(** * BiRealEST: bidirectional expansive-space-tree planner

    A shallow embedding of [ompl::geometric::BiRealEST]
    (src/ompl/geometric/planners/est/src/BiRealEST.cpp) and the properties
    of its weight bookkeeping, its main loop, its path reconstruction and
    its graph export.

    Conventions of the embedding.
    - A [double] is a binary64 floating-point number (the primitive
      [float]), with the operations of the code and their rounding.
    - A [Motion*] is the position of the motion in the vector of its tree
      ([startMotions_] or [goalMotions_]): motions are only ever appended,
      and the parent of a motion lives in the same vector.
    - A [PDF<Motion*>::Element*] is the position of the element in the
      sampler.
    - Dereferencing a pointer that does not exist, and the failed
      [assert], are the [None] of the option monad.
    - Everything the planner asks of its collaborators (random numbers,
      samplers, validity checks, goal, termination condition) is a method
      of the class [World]; calls that consume something thread a world
      state. *)

From Stdlib Require Import QArith Qabs Floats.
From stdpp Require Import base option list.

Open Scope Q_scope.
Open Scope nat_scope.

(** ** Numbers *)

(** The conversion of an integer to [double], as in
    [neighbors.size() + 1.]: exact below 2^53, rounded to the nearest
    double above. The integers converted are sizes of vectors, which stay
    far below 2^63, where the primitive integers wrap. *)
Definition toDouble (z : Z) : float := PrimFloat.of_uint63 (Uint63.of_Z z).

(** The literal [1e-3] of line 62: the double nearest to 1/1000. *)
Definition minRange : float := 0x1.0624dd2f1a9fcp-10%float.

(** The real number a finite [double] stands for, as a rational: sign,
    mantissa and exponent are read off the number. (Infinities and NaN,
    which stand for no number, are given 0.) *)
Definition realValue (f : float) : Q :=
  match Prim2SF f with
  | S754_finite s m e =>
      (inject_Z (if s then Z.neg m else Z.pos m) * 2 ^ e)%Q
  | _ => 0%Q
  end.

(** ** Pointers *)

Abbreviation MotionPtr := nat (only parsing).
Abbreviation Element := nat (only parsing).

Inductive Side := StartSide | GoalSide.

Definition otherSide (s : Side) : Side :=
  match s with StartSide => GoalSide | GoalSide => StartSide end.

#[global] Instance Side_eq_dec : EqDecision Side.
Proof. solve_decision. Defined.

(** A [base::State*] that a motion owns: [StateOf s i] is the state
    allocated by [new Motion(si_)] for the [i]-th motion of side [s]. The
    null pointer is [None] of [option StatePtr]. *)
Inductive StatePtr := StateOf (s : Side) (i : MotionPtr).

#[global] Instance StatePtr_eq_dec : EqDecision StatePtr.
Proof. solve_decision. Defined.

(** ** The weighted sampler *)

Module PDF.

(** Modelled from the spec: the weighted sampler [PDF<Motion*>]
    (ompl/datastructures/PDF.h is not among the sources). The spec gives
    its interface: add(item, weight) -> handle, getWeight(handle),
    update(handle, newWeight), sample(uniform01) -> item with
    probability proportional to weight. The elements are kept in the
    order they were added; a handle is a position. *)
Abbreviation t := (list (MotionPtr * float)).

(** Modelled from the spec: the sampler after [clear()], with no
    element. *)
Definition empty : t := [].

(** Modelled from the spec: add(item, weight) -> handle. The new element
    comes last and its handle is its position. *)
Definition add (pdf : t) (d : MotionPtr) (w : float) : t * Element :=
  (pdf ++ [(d, w)], length pdf).

(** Modelled from the spec: getWeight(handle) -> weight. A handle of no
    element has no weight. *)
Definition getWeight (pdf : t) (e : Element) : option float :=
  snd <$> pdf !! e.

(** Modelled from the spec: the item an element was added with. *)
Definition getData (pdf : t) (e : Element) : option MotionPtr :=
  fst <$> pdf !! e.

(** Modelled from the spec: update(handle, newWeight). The element keeps
    its item and its position. *)
Definition update (pdf : t) (e : Element) (w : float) : option t :=
  d ← getData pdf e; Some (<[e := (d, w)]> pdf).

(** Modelled from the spec: the sum of the weights, to which a draw in
    [0,1) is scaled. *)
Definition total (pdf : t) : float :=
  foldr (λ dw acc, snd dw + acc)%float 0%float pdf.

(** Modelled from the spec: the choice of an item with probability
    proportional to its weight. The elements are walked with the scaled
    draw [x]: an element is taken when [x] does not exceed its weight,
    otherwise its weight is subtracted and the walk moves on; the last
    element takes what is left. *)
Fixpoint pick (l : list (MotionPtr * float)) (x : float)
    : option MotionPtr :=
  match l with
  | [] => None
  | [(d, _)] => Some d
  | (d, w) :: rest =>
      if PrimFloat.leb x w then Some d else pick rest (x - w)%float
  end.

(** Modelled from the spec: sample(uniform01) -> item; it fails only
    on a sampler with no element. *)
Definition sample (pdf : t) (r : float) : option MotionPtr :=
  pick pdf (r * total pdf)%float.

End PDF.

(** ** The exported graph *)

Module PlannerData.

(** Modelled from the spec: the graph container [base::PlannerData]
    (ompl/base/PlannerData.h is not among the sources), which receives
    the vertices, tagged by side, and the edges of section 4.4. A vertex
    is a state pointer with its tag and is known by the position at
    which it was added; a state is a vertex at most once; an edge is a
    pair of vertex positions and is present at most once; an edge
    between positions that are not vertices is not added. [None] as a
    position is INVALID_INDEX. *)
Record t := mk {
  vertices : list (StatePtr * nat);
  edges : list (nat * nat);
  startVertices : list nat;
  goalVertices : list nat
}.

(** Modelled from the spec: the graph with nothing in it. *)
Definition empty : t := mk [] [] [] [].

(** Modelled from the spec: the number of vertices. *)
Definition numVertices (d : t) : nat := length (vertices d).

(** Modelled from the spec: the position of the vertex of a state;
    INVALID_INDEX for the null state and for a state that is no
    vertex. *)
Definition vertexIndex (d : t) (st : option StatePtr) : option nat :=
  st ← st; fst <$> list_find (λ v, v.1 = st) (vertices d).

(** Modelled from the spec: a vertex is added unless its state is null
    or is a vertex already, which then keeps its tag; the result is the
    position of the vertex of that state. *)
Definition addVertex (d : t) (v : option StatePtr * nat) : t * option nat :=
  match v.1 with
  | None => (d, None)
  | Some st =>
      match vertexIndex d (Some st) with
      | Some i => (d, Some i)
      | None =>
          (mk (vertices d ++ [(st, v.2)]) (edges d) (startVertices d)
             (goalVertices d),
           Some (numVertices d))
      end
  end.

(** Modelled from the spec: a vertex added and marked as a start. *)
Definition addStartVertex (d : t) (v : option StatePtr * nat) : t :=
  let '(d', i) := addVertex d v in
  match i with
  | Some i =>
      mk (vertices d') (edges d') (startVertices d' ++ [i]) (goalVertices d')
  | None => d'
  end.

(** Modelled from the spec: a vertex added and marked as a goal. *)
Definition addGoalVertex (d : t) (v : option StatePtr * nat) : t :=
  let '(d', i) := addVertex d v in
  match i with
  | Some i =>
      mk (vertices d') (edges d') (startVertices d') (goalVertices d' ++ [i])
  | None => d'
  end.

(** Modelled from the spec: whether the edge is in the graph. *)
Definition edgeExists (d : t) (v1 v2 : nat) : bool :=
  bool_decide ((v1, v2) ∈ edges d).

(** Modelled from the spec: [addEdge] by vertex position. The edge is
    added when both positions are vertices and the edge is not there
    yet. *)
Definition addEdgeAt (d : t) (v1 v2 : option nat) : t :=
  match v1, v2 with
  | Some v1, Some v2 =>
      if (v1 <? numVertices d) && (v2 <? numVertices d)
         && negb (edgeExists d v1 v2)
      then mk (vertices d) (edges d ++ [(v1, v2)]) (startVertices d)
             (goalVertices d)
      else d
  | _, _ => d
  end.

(** Modelled from the spec: [addEdge] by vertex. Both ends become
    vertices first. *)
Definition addEdge (d : t) (v1 v2 : option StatePtr * nat) : t :=
  let '(d1, i1) := addVertex d v1 in
  let '(d2, i2) := addVertex d1 v2 in
  match i1, i2 with
  | Some _, Some _ => addEdgeAt d2 i1 i2
  | _, _ => d2
  end.

End PlannerData.

(** ** The collaborators *)

(** What the planner calls outside itself. [W] is the state of the
    outside world (random generator, samplers, input states, clock).

    - [distance], [checkMotion]: [si_->distance], [si_->checkMotion].
    - [isStartGoalPairValid], [couldSample]: the goal region.
    - [goalIsSampleable]: whether the [dynamic_cast] to
      [GoalSampleableRegion] succeeds.
    - [nextStarts]: the states [pis_.nextStart()] yields until it
      yields NULL, the input states being finitely many.
    - [nextGoal b]: [pis_.nextGoal(ptc)] when [b] (blocking) and
      [pis_.nextGoal()] otherwise.
    - [uniform01]: [rng_.uniform01()].
    - [sampleNear near d]: [sampler_->sampleNear(xstate, near, d)];
      [Some x] is success with [xstate] holding [x].
    - [ptc]: one evaluation of the termination condition.
    - [configurePlannerRange d]: the value
      [tools::SelfConfig::configurePlannerRange] leaves in the range it
      is given, [d] being its value before.
    - [nnOrder]: the order in which a nearest-neighbor index reports
      the hits of a radius query, given each hit with its distance to the
      query. *)
Class World (State W : Type) := {
  distance : State → State → float;
  checkMotion : State → State → bool;
  isStartGoalPairValid : State → State → bool;
  goalIsSampleable : W → bool;
  couldSample : W → bool;
  getSampledGoalsCount : W → nat;
  nextStarts : W → list State * W;
  nextGoal : bool → W → option State * W;
  uniform01 : W → float * W;
  sampleNear : State → float → W → option State * W;
  ptc : W → bool * W;
  configurePlannerRange : float → float;
  nnOrder : list (MotionPtr * float) → list MotionPtr;
  nnOrder_perm : ∀ hits, nnOrder hits ≡ₚ hits.*1
}.

Inductive PlannerStatus :=
| EXACT_SOLUTION
| TIMEOUT
| INVALID_START
| INVALID_GOAL
| UNRECOGNIZED_GOAL_TYPE.

Section BiRealEST.

Context {State W : Type} `{!World State W}.

(** ** Data *)

Record Motion := mkMotion {
  state : State;
  parent : option MotionPtr;
  root : State;
  element : option Element
}.

Definition setElement (m : Motion) (e : Element) : Motion :=
  mkMotion (state m) (parent m) (root m) (Some e).

(** Modelled from the spec: the nearest-neighbor index
    (ompl/datastructures/NearestNeighbors.h is not among the sources),
    with add(node) and nearestInRadius(node, radius) -> list<node>. The
    index holds each [Motion*] with the state it points to, which never
    changes once the motion is inserted. *)
Definition NN := list (MotionPtr * State).

(** Modelled from the spec: add(node). *)
Definition nn_add (nn : NN) (p : MotionPtr) (s : State) : NN := nn ++ [(p, s)].

(** Modelled from the spec: the test of a radius query, the distance
    being that of the states ([distanceFunction]). *)
Definition withinR (q : State) (r : float) (e : MotionPtr * State) : bool :=
  PrimFloat.leb (distance e.2 q) r.

(** Modelled from the spec: nearestInRadius(node, radius) -> list<node>,
    the nodes of the index within the radius of the query, in the order
    the index reports them ([nnOrder], which the spec leaves open). *)
Definition nearestR (nn : NN) (q : State) (r : float) : list MotionPtr :=
  nnOrder ((λ e, (e.1, distance e.2 q)) <$> filter (withinR q r) nn).

(** ** addMotion *)

(** The loop of lines 280-285 over the neighbors, each a motion of the
    same tree. *)
Fixpoint updateNeighbors (motions : list Motion) (pdf : PDF.t)
    (neighbors : list MotionPtr) : option PDF.t :=
  match neighbors with
  | [] => Some pdf
  | n :: rest =>
      m ← motions !! n;
      elem ← element m;
      w ← PDF.getWeight pdf elem;
      pdf' ← PDF.update pdf elem (w / (w + 1))%float;
      updateNeighbors motions pdf' rest
  end.

(** Line 287: the weight of a motion born with [k] neighbors,
    [1. / (neighbors.size() + 1.)]. *)
Definition seedWeight (k : nat) : float :=
  (1 / (toDouble (Z.of_nat k) + 1))%float.

(** Lines 275-290. The motion is not yet in the vector: its pointer is
    the position it is about to take. *)

Definition addMotion (motion : Motion) (motions : list Motion) (pdf : PDF.t)
    (nn : NN) (neighbors : list MotionPtr)
    : option (list Motion * PDF.t * NN) :=
  pdf1 ← updateNeighbors motions pdf neighbors;
  let '(pdf2, elem) :=
    PDF.add pdf1 (length motions) (seedWeight (length neighbors)) in
  let motion' := setElement motion elem in
  Some (motions ++ [motion'], pdf2, nn_add nn (length motions) (state motion')).

(** ** Construction, setRange, setup, clear *)

Record Planner := mkPlanner {
  setup_ : bool;
  maxDistance_ : float;
  nbrhoodRadius_ : float;
  startMotions_ : list Motion;
  startPdf_ : PDF.t;
  nnStart_ : NN;
  goalMotions_ : list Motion;
  goalPdf_ : PDF.t;
  nnGoal_ : NN;
  connectionPoint_ : option StatePtr * option StatePtr;
  (** the paths handed to [pdef_->addSolutionPath], oldest first *)
  solutionPaths : list (list State)
}.

(** The constructor sets [maxDistance_] to 0 and the connection point to
    a pair of nulls; it does not initialise [nbrhoodRadius_], whose value
    is then whatever the memory holds ([junk]). *)
Definition BiRealEST (junk : float) : Planner :=
  mkPlanner false 0%float junk [] PDF.empty [] [] PDF.empty [] (None, None)
    [].

(** Modelled from the spec: [setRange] (declared in BiRealEST.h, which is
    not among the sources). The spec has the range as the tunable
    parameter and the neighborhood radius as derived from it (range / 3)
    and not independently settable. *)
Definition setRange (d : float) (p : Planner) : Planner :=
  mkPlanner (setup_ p) d (d / 3)%float (startMotions_ p) (startPdf_ p)
    (nnStart_ p) (goalMotions_ p) (goalPdf_ p) (nnGoal_ p) (connectionPoint_ p)
    (solutionPaths p).

(** Lines 58-78. The indices are always there in this model, so that
    their allocation leaves no trace. *)
Definition setup (p : Planner) : Planner :=
  if PrimFloat.ltb (maxDistance_ p) minRange then
    let maxDistance := configurePlannerRange (maxDistance_ p) in
    mkPlanner true maxDistance (maxDistance / 3)%float (startMotions_ p)
      (startPdf_ p) (nnStart_ p) (goalMotions_ p) (goalPdf_ p) (nnGoal_ p)
      (connectionPoint_ p) (solutionPaths p)
  else
    mkPlanner true (maxDistance_ p) (nbrhoodRadius_ p) (startMotions_ p)
      (startPdf_ p) (nnStart_ p) (goalMotions_ p) (goalPdf_ p) (nnGoal_ p)
      (connectionPoint_ p) (solutionPaths p).

(** Lines 80-97. *)
Definition clear (p : Planner) : Planner :=
  mkPlanner (setup_ p) (maxDistance_ p) (nbrhoodRadius_ p) [] PDF.empty []
    [] PDF.empty [] (None, None) (solutionPaths p).

(** [checkValidity] runs [setup] on a planner that is not set up. *)
Definition checkValidity (p : Planner) : Planner :=
  if setup_ p then p else setup p.

(** ** The two trees *)

Definition Tree : Type := list Motion * PDF.t * NN.

Definition treeOf (s : Side) (p : Planner) : Tree :=
  match s with
  | StartSide => (startMotions_ p, startPdf_ p, nnStart_ p)
  | GoalSide => (goalMotions_ p, goalPdf_ p, nnGoal_ p)
  end.

Definition motionsOf (s : Side) (p : Planner) : list Motion := (treeOf s p).1.1.
Definition pdfOf (s : Side) (p : Planner) : PDF.t := (treeOf s p).1.2.
Definition nnOf (s : Side) (p : Planner) : NN := (treeOf s p).2.

Definition setTree (s : Side) (t : Tree) (p : Planner) : Planner :=
  match s with
  | StartSide =>
      mkPlanner (setup_ p) (maxDistance_ p) (nbrhoodRadius_ p) t.1.1 t.1.2 t.2
        (goalMotions_ p) (goalPdf_ p) (nnGoal_ p) (connectionPoint_ p)
        (solutionPaths p)
  | GoalSide =>
      mkPlanner (setup_ p) (maxDistance_ p) (nbrhoodRadius_ p)
        (startMotions_ p) (startPdf_ p) (nnStart_ p) t.1.1 t.1.2 t.2
        (connectionPoint_ p) (solutionPaths p)
  end.

Definition recordSolution (cp : StatePtr * StatePtr) (path : list State)
    (p : Planner) : Planner :=
  mkPlanner (setup_ p) (maxDistance_ p) (nbrhoodRadius_ p) (startMotions_ p)
    (startPdf_ p) (nnStart_ p) (goalMotions_ p) (goalPdf_ p) (nnGoal_ p)
    (Some cp.1, Some cp.2) (solutionPaths p ++ [path]).

(** Lines 131-136 and 170-175: a root motion for the state [st], inserted
    with the neighbors the index reports before the insertion. *)
Definition insertRoot (s : Side) (st : State) (p : Planner) : option Planner :=
  let motion := mkMotion st None st None in
  let neighbors := nearestR (nnOf s p) st (nbrhoodRadius_ p) in
  t ← addMotion motion (motionsOf s p) (pdfOf s p) (nnOf s p) neighbors;
  Some (setTree s t p).

(** The loop of lines 129-137 over the states [pis_.nextStart()] yields. *)
Fixpoint seedStarts (sts : list State) (p : Planner) : option Planner :=
  match sts with
  | [] => Some p
  | st :: rest => p' ← insertRoot StartSide st p; seedStarts rest p'
  end.

(** ** One iteration of the main loop *)

Record LoopState := mkLoop {
  planner : Planner;
  world : W;
  startTree : bool;
  solved : bool
}.

(** How an iteration ended. *)
Inductive Outcome :=
| GoalTreeEmpty                           (* break, line 181 *)
| SampleNearFailed (s : Side)             (* continue, line 196 *)
| DensityRejected (s : Side)              (* continue, line 207 *)
| MotionInvalid (s : Side)                (* checkMotion fails, line 211 *)
| Inserted (s : Side) (m : MotionPtr)     (* inserted, no connection *)
| Connected (s : Side) (m n : MotionPtr). (* inserted and connected *)

(** Lines 165-176. *)
Definition replenish (p : Planner) (w : W) : option (Planner * W) :=
  if (length (goalMotions_ p) =? 0)
     || (getSampledGoalsCount w <? length (goalMotions_ p) / 2) then
    let '(st, w') := nextGoal (length (goalMotions_ p) =? 0) w in
    match st with
    | Some st => p' ← insertRoot GoalSide st p; Some (p', w')
    | None => Some (p, w')
    end
  else Some (p, w).

(** Line 205: [double p = 1.0 - (1.0 / neighbors.size())]. *)
Definition rejectionThreshold (k : nat) : float :=
  (1 - 1 / toDouble (Z.of_nat k))%float.

(** Lines 203-208: the number of neighbors [k] decides whether a number
    is drawn at all. *)
Definition densityReject (k : nat) (w : W) : bool * W :=
  if k =? 0 then (false, w)
  else
    let '(u, w') := uniform01 w in
    (PrimFloat.ltb u (rejectionThreshold k), w').

(** Lines 227-228: the two tests a neighbor [nm] of the other tree has
    to pass for the new motion to be connected to it. *)
Definition accepts (motion nm : Motion) : bool :=
  isStartGoalPairValid (root motion) (root nm)
  && checkMotion (state motion) (state nm).

(** Lines 225-261, the scan: the neighbors looked at, in order, and the
    first one, if any, that passes both tests. *)
Fixpoint connectScan (motion : Motion) (others : list Motion)
    (neighbors : list MotionPtr) : option (list MotionPtr * option MotionPtr) :=
  match neighbors with
  | [] => Some ([], None)
  | n :: rest =>
      nm ← others !! n;
      if accepts motion nm
      then Some ([n], Some n)
      else '(seen, found) ← connectScan motion others rest;
           Some (n :: seen, found)
  end.

(** Lines 235-249: the walk up the parent links. The C++ loop has no
    bound; a walk that has not reached a null parent after as many steps
    as there are motions is on a cycle and never ends, which is [None]
    here. *)
Fixpoint parentChain (fuel : nat) (motions : list Motion)
    (solution : option MotionPtr) : option (list Motion) :=
  match solution with
  | None => Some []
  | Some i =>
      match fuel with
      | O => None
      | S fuel' =>
          m ← motions !! i;
          rest ← parentChain fuel' motions (parent m);
          Some (m :: rest)
      end
  end.

Definition mpath (motions : list Motion) (m : MotionPtr) : option (list Motion) :=
  parentChain (length motions) motions (Some m).

(** Lines 232-256. *)
Definition solutionPath (p : Planner) (startMotion goalMotion : MotionPtr)
    : option (list State) :=
  mpath1 ← mpath (startMotions_ p) startMotion;
  mpath2 ← mpath (goalMotions_ p) goalMotion;
  Some (reverse (state <$> mpath1) ++ (state <$> mpath2)).

Definition sideOf (startTree : bool) : Side :=
  if startTree then StartSide else GoalSide.

(** Lines 224-261, after the insertion of the motion [m] (the record
    [motion]) into the tree of [side]. *)
Definition connect (side : Side) (m : MotionPtr) (motion : Motion)
    (p : Planner) : option (list MotionPtr * option MotionPtr * Planner) :=
  let neighbors :=
    nearestR (nnOf (otherSide side) p) (state motion) (maxDistance_ p) in
  '(seen, found) ← connectScan motion (motionsOf (otherSide side) p) neighbors;
  match found with
  | None => Some (seen, None, p)
  | Some n =>
      let startMotion := match side with StartSide => m | GoalSide => n end in
      let goalMotion := match side with StartSide => n | GoalSide => m end in
      path ← solutionPath p startMotion goalMotion;
      Some (seen, Some n,
            recordSolution (StateOf side m, StateOf (otherSide side) n) path p)
  end.

(** Lines 186-196: the side, the motion to expand from, and what
    [sampleNear] made of it. *)
Definition pickCandidate (s : LoopState)
    : option (MotionPtr * Motion * option State * W) :=
  let side := sideOf (startTree s) in
  let p := planner s in
  let '(u, w1) := uniform01 (world s) in
  existing ← PDF.sample (pdfOf side p) u;
  em ← motionsOf side p !! existing;
  let '(x, w2) := sampleNear (state em) (maxDistance_ p) w1 in
  Some (existing, em, x, w2).

(** Lines 186-265, the body below the goal-tree replenishment. It runs
    with [solved] false, which the loop condition guarantees. *)
Definition expand (s : LoopState) : option (Outcome * LoopState) :=
  let side := sideOf (startTree s) in
  let p := planner s in
  '(existing, em, x, w2) ← pickCandidate s;
  match x with
  | None => Some (SampleNearFailed side, mkLoop p w2 (startTree s) (solved s))
  | Some xstate =>
      let neighbors := nearestR (nnOf side p) xstate (nbrhoodRadius_ p) in
      let '(rejected, w3) := densityReject (length neighbors) w2 in
      if rejected then
        Some (DensityRejected side, mkLoop p w3 (startTree s) (solved s))
      else if checkMotion (state em) xstate then
        let motion := mkMotion xstate (Some existing) (root em) None in
        let m := length (motionsOf side p) in
        t ← addMotion motion (motionsOf side p) (pdfOf side p) (nnOf side p)
              neighbors;
        '(_, found, p') ← connect side m motion (setTree side t p);
        match found with
        | None =>
            Some (Inserted side m, mkLoop p' w3 (negb (startTree s)) (solved s))
        | Some n =>
            Some (Connected side m n, mkLoop p' w3 (negb (startTree s)) true)
        end
      else
        Some (MotionInvalid side, mkLoop p w3 (negb (startTree s)) (solved s))
  end.

(** Lines 163-265, the whole body. The test of line 178 stands inside
    the conditional of line 165 in the source; where that conditional
    is not entered the goal tree is not empty, so the test is made here
    in both cases. *)
Definition iteration (s : LoopState) : option (Outcome * LoopState) :=
  '(p, w) ← replenish (planner s) (world s);
  if length (goalMotions_ p) =? 0 then
    Some (GoalTreeEmpty, mkLoop p w (startTree s) (solved s))
  else expand (mkLoop p w (startTree s) (solved s)).

(** ** solve *)

(** How a run ends: with a result, with the fuel of the model used up,
    or on an invalid pointer or a failed [assert]. *)
Inductive Run (A : Type) :=
| Finished (a : A)
| OutOfFuel
| Aborted.
Global Arguments Finished {A} a.
Global Arguments OutOfFuel {A}.
Global Arguments Aborted {A}.

(** The loop of lines 162-266, with the outcomes of its iterations in
    order. [fuel] bounds the number of iterations. *)
Fixpoint mainLoop (fuel : nat) (s : LoopState)
    : Run (LoopState * list Outcome) :=
  let '(stop, w) := ptc (world s) in
  let s := mkLoop (planner s) w (startTree s) (solved s) in
  if stop || solved s then Finished (s, [])
  else
    match fuel with
    | O => OutOfFuel
    | S fuel' =>
        match iteration s with
        | None => Aborted
        | Some (GoalTreeEmpty, s') => Finished (s', [GoalTreeEmpty])
        | Some (o, s') =>
            match mainLoop fuel' s' with
            | Finished (sf, os) => Finished (sf, o :: os)
            | OutOfFuel => OutOfFuel
            | Aborted => Aborted
            end
        end
    end.

(** What a call of [solve] leaves: its status, the planner, the world,
    and how each iteration of the loop ended. *)
Record Solved := mkSolved {
  status : PlannerStatus;
  after : Planner;
  afterWorld : W;
  outcomes : list Outcome
}.

(** Lines 116-273. *)
Definition solve (fuel : nat) (p0 : Planner) (w : W) : Run Solved :=
  let p := checkValidity p0 in
  if negb (goalIsSampleable w) then
    Finished (mkSolved UNRECOGNIZED_GOAL_TYPE p w [])
  else
    let '(sts, w1) := nextStarts w in
    match seedStarts sts p with
    | None => Aborted
    | Some p1 =>
        if length (startMotions_ p1) =? 0 then
          Finished (mkSolved INVALID_START p1 w1 [])
        else if negb (couldSample w1) then
          Finished (mkSolved INVALID_GOAL p1 w1 [])
        else
          match mainLoop fuel (mkLoop p1 w1 true false) with
          | Finished (s, os) =>
              Finished (mkSolved
                          (if solved s then EXACT_SOLUTION else TIMEOUT)
                          (planner s) (world s) os)
          | OutOfFuel => OutOfFuel
          | Aborted => Aborted
          end
    end.

(** ** getPlannerData *)

(** A vector with the position of each entry. *)
Definition indexed {A} (l : list A) : list (nat * A) := imap pair l.

(** Lines 296-303, the body for [startMotions_[i]]. *)
Definition exportStart (d : PlannerData.t) (im : nat * Motion) : PlannerData.t :=
  match parent im.2 with
  | None => PlannerData.addStartVertex d (Some (StateOf StartSide im.1), 1)
  | Some p =>
      PlannerData.addEdge d (Some (StateOf StartSide p), 1)
        (Some (StateOf StartSide im.1), 1)
  end.

(** Lines 305-313, the body for [goalMotions_[i]]. *)
Definition exportGoal (d : PlannerData.t) (im : nat * Motion) : PlannerData.t :=
  match parent im.2 with
  | None => PlannerData.addGoalVertex d (Some (StateOf GoalSide im.1), 2)
  | Some p =>
      PlannerData.addEdge d (Some (StateOf GoalSide im.1), 2)
        (Some (StateOf GoalSide p), 2)
  end.

(** Lines 292-317. *)
Definition getPlannerData (p : Planner) (data : PlannerData.t)
    : PlannerData.t :=
  let d1 := foldl exportStart data (indexed (startMotions_ p)) in
  let d2 := foldl exportGoal d1 (indexed (goalMotions_ p)) in
  PlannerData.addEdgeAt d2
    (PlannerData.vertexIndex d2 (connectionPoint_ p).1)
    (PlannerData.vertexIndex d2 (connectionPoint_ p).2).

End BiRealEST.

(** ** Vocabulary of the properties *)

Section Vocabulary.

Context {State W : Type} `{!World State W}.

(** The sampler handles of the neighbors, when every neighbor is a motion
    of the vector and has a handle. *)
Fixpoint handles (motions : list (@Motion State)) (neighbors : list MotionPtr)
    : option (list Element) :=
  match neighbors with
  | [] => Some []
  | n :: rest =>
      m ← motions !! n;
      e ← element m;
      es ← handles motions rest;
      Some (e :: es)
  end.

(** The invariant of a tree: the three structures are in lockstep. The
    motion at position [i] holds the handle [i] and has its parent
    before it; the sampler holds the motions in order; the index holds
    each motion with its state, in order. *)
Definition wfTree (t : @Tree State) : Prop :=
  (∀ i m, t.1.1 !! i = Some m →
     element m = Some i ∧ ∀ q, parent m = Some q → q < i)
  ∧ t.1.2.*1 = seq 0 (length t.1.1)
  ∧ t.2 = imap (λ i m, (i, state m)) t.1.1.

(** The connection point is a pair of nulls, or the states of two
    motions, one of each tree. *)
Definition wfConnection (p : @Planner State) : Prop :=
  connectionPoint_ p = (None, None)
  ∨ ∃ s m n,
      connectionPoint_ p = (Some (StateOf s m), Some (StateOf (otherSide s) n))
      ∧ m < length (motionsOf s p)
      ∧ n < length (motionsOf (otherSide s) p).

Definition wfPlanner (p : @Planner State) : Prop :=
  wfTree (treeOf StartSide p) ∧ wfTree (treeOf GoalSide p) ∧ wfConnection p.

(** [c] is the walk along the parent links that starts at [from] and
    ends at a null parent. *)
Fixpoint isChain (motions : list (@Motion State)) (from : option MotionPtr)
    (c : list (@Motion State)) : Prop :=
  match c with
  | [] => from = None
  | m :: rest =>
      ∃ i, from = Some i ∧ motions !! i = Some m
           ∧ isChain motions (parent m) rest
  end.

(** The side an iteration expanded, if it got as far as choosing one. *)
Definition expandedSide (o : Outcome) : option Side :=
  match o with
  | GoalTreeEmpty => None
  | SampleNearFailed s | DensityRejected s | MotionInvalid s
  | Inserted s _ | Connected s _ _ => Some s
  end.

(** The iterations that reach line 265. *)
Definition reachesFlip (o : Outcome) : bool :=
  match o with
  | MotionInvalid _ | Inserted _ _ | Connected _ _ _ => true
  | _ => false
  end.

(** The iterations given up before the insertion. *)
Definition abandoned (o : Outcome) : bool :=
  match o with
  | SampleNearFailed _ | DensityRejected _ | MotionInvalid _ => true
  | _ => false
  end.

Definition isConnected (o : Outcome) : bool :=
  match o with Connected _ _ _ => true | _ => false end.

(** No two neighbors of the list are equal. *)
Fixpoint noRepeat (l : list Side) : bool :=
  match l with
  | x :: (y :: _) as rest => negb (bool_decide (x = y)) && noRepeat rest
  | _ => true
  end.

(** The list is [s], the other side, [s], ... *)
Fixpoint alternatesFrom (s : Side) (l : list Side) : Prop :=
  match l with
  | [] => True
  | x :: rest => x = s ∧ alternatesFrom (otherSide s) rest
  end.


(** What is done to a planner before it is asked to solve. *)
Inductive Op := SetRange (d : float) | Setup | Clear.

Definition applyOp (p : @Planner State) (op : Op) : @Planner State :=
  match op with
  | SetRange d => setRange d p
  | Setup => setup p
  | Clear => clear p
  end.

Definition configured (junk : float) (ops : list Op) : @Planner State :=
  foldl applyOp (BiRealEST junk) ops.

(** What an iteration did, read off its outcome. [p] and [w] are the
    planner and the world the goal-tree replenishment left. *)
Definition iterationCase (s : @LoopState State W) (o : Outcome)
    (s' : @LoopState State W) (p : @Planner State) (w : W) : Prop :=
  let s1 := mkLoop p w (startTree s) (solved s) in
  let side := sideOf (startTree s) in
  match o with
  | GoalTreeEmpty => goalMotions_ p = [] ∧ s' = s1
  | SampleNearFailed sd =>
      sd = side ∧ goalMotions_ p ≠ [] ∧
      ∃ existing em w2,
        pickCandidate s1 = Some (existing, em, None, w2)
        ∧ s' = mkLoop p w2 (startTree s) (solved s)
  | DensityRejected sd =>
      sd = side ∧ goalMotions_ p ≠ [] ∧
      ∃ existing em x w2 w3,
        pickCandidate s1 = Some (existing, em, Some x, w2)
        ∧ densityReject (length (nearestR (nnOf side p) x (nbrhoodRadius_ p))) w2
            = (true, w3)
        ∧ s' = mkLoop p w3 (startTree s) (solved s)
  | MotionInvalid sd =>
      sd = side ∧ goalMotions_ p ≠ [] ∧
      ∃ existing em x w2 w3,
        pickCandidate s1 = Some (existing, em, Some x, w2)
        ∧ densityReject (length (nearestR (nnOf side p) x (nbrhoodRadius_ p))) w2
            = (false, w3)
        ∧ checkMotion (state em) x = false
        ∧ s' = mkLoop p w3 (negb (startTree s)) (solved s)
  | Inserted sd m =>
      sd = side ∧ goalMotions_ p ≠ [] ∧
      ∃ existing em x w2 w3 t seen p',
        pickCandidate s1 = Some (existing, em, Some x, w2)
        ∧ densityReject (length (nearestR (nnOf side p) x (nbrhoodRadius_ p))) w2
            = (false, w3)
        ∧ checkMotion (state em) x = true
        ∧ m = length (motionsOf side p)
        ∧ addMotion (mkMotion x (Some existing) (root em) None)
            (motionsOf side p) (pdfOf side p) (nnOf side p)
            (nearestR (nnOf side p) x (nbrhoodRadius_ p)) = Some t
        ∧ connect side m (mkMotion x (Some existing) (root em) None)
            (setTree side t p) = Some (seen, None, p')
        ∧ s' = mkLoop p' w3 (negb (startTree s)) (solved s)
  | Connected sd m n =>
      sd = side ∧ goalMotions_ p ≠ [] ∧
      ∃ existing em x w2 w3 t seen p',
        pickCandidate s1 = Some (existing, em, Some x, w2)
        ∧ densityReject (length (nearestR (nnOf side p) x (nbrhoodRadius_ p))) w2
            = (false, w3)
        ∧ checkMotion (state em) x = true
        ∧ m = length (motionsOf side p)
        ∧ addMotion (mkMotion x (Some existing) (root em) None)
            (motionsOf side p) (pdfOf side p) (nnOf side p)
            (nearestR (nnOf side p) x (nbrhoodRadius_ p)) = Some t
        ∧ connect side m (mkMotion x (Some existing) (root em) None)
            (setTree side t p) = Some (seen, Some n, p')
        ∧ s' = mkLoop p' w3 (negb (startTree s)) true
  end.

(** The planners the code can produce: a new one, one changed by
    [setRange], [setup] or [clear], and one left by a call of [solve]. *)
Inductive Reachable : @Planner State → Prop :=
| reach_new junk : Reachable (BiRealEST junk)
| reach_op p op : Reachable p → Reachable (applyOp p op)
| reach_solve p fuel w r :
    Reachable p → solve fuel p w = Finished r → Reachable (after r).

(** The run of [solve] past the entry checks. *)
Definition entersLoop (p : @Planner State) (w : W) (p1 : @Planner State)
    (w1 : W) : Prop :=
  goalIsSampleable w = true
  ∧ nextStarts w = ((nextStarts w).1, w1)
  ∧ seedStarts (nextStarts w).1 (checkValidity p) = Some p1
  ∧ startMotions_ p1 ≠ []
  ∧ couldSample w1 = true.

(** The loop, started in [s], goes through [n] whole iterations and is
    still running after them: at each of [n + 1] successive heads of the
    loop the termination condition is false and nothing is solved, and
    none of the [n] iterations leaves by the [break]. *)
Fixpoint Runs (n : nat) (s : @LoopState State W) : Prop :=
  (ptc (world s)).1 || solved s = false
  ∧ match n with
    | O => True
    | S n' =>
        ∃ o s',
          iteration (mkLoop (planner s) (ptc (world s)).2 (startTree s)
                       (solved s)) = Some (o, s')
          ∧ o ≠ GoalTreeEmpty
          ∧ Runs n' s'
    end.

(** Once the range is at least 1e-3, or [setup] has run, the radius is a
    third of the range. *)
Definition radiusDerived (p : @Planner State) : Prop :=
  setup_ p || negb (PrimFloat.ltb (maxDistance_ p) minRange) = true →
  nbrhoodRadius_ p = (maxDistance_ p / 3)%float.

(** The graph [getPlannerData] builds from nothing. The vertices are
    the states of the start motions, tagged 1, then the states of the
    goal motions, tagged 2, each in the order of its vector; so the
    vertex of the [i]-th start motion is [i] and the vertex of the
    [j]-th goal motion is [ns + j], [ns] being the number of start
    motions. *)
Definition startVerts (ns : nat) : list (StatePtr * nat) :=
  (λ i, (StateOf StartSide i, 1)) <$> seq 0 ns.

Definition goalVerts (ng : nat) : list (StatePtr * nat) :=
  (λ j, (StateOf GoalSide j, 2)) <$> seq 0 ng.

Definition allVerts (ns ng : nat) : list (StatePtr * nat) :=
  startVerts ns ++ goalVerts ng.

Definition vertexOf (ns : nat) (st : StatePtr) : nat :=
  match st with
  | StateOf StartSide i => i
  | StateOf GoalSide j => ns + j
  end.

(** One edge, parent to child, for each start motion with a parent. *)
Definition startEdges (motions : list (@Motion State)) : list (nat * nat) :=
  omap (λ im, (λ q, (q, im.1)) <$> parent im.2) (indexed motions).

(** One edge, child to parent, for each goal motion with a parent. *)
Definition goalEdges (ns : nat) (motions : list (@Motion State))
    : list (nat * nat) :=
  omap (λ im, (λ q, (ns + im.1, ns + q)) <$> parent im.2) (indexed motions).

Definition treeEdges (p : @Planner State) : list (nat * nat) :=
  startEdges (startMotions_ p)
  ++ goalEdges (length (startMotions_ p)) (goalMotions_ p).

(** What the code has made sure of when it creates a motion, [motions]
    being the vector of its tree. A motion without parent has its own
    state as root (lines 133 and 172). Any other motion has its parent in
    the vector, the root of its parent (line 217), and the motion from
    its parent's state to its own has passed [checkMotion] (line 211). *)
Definition fits (motions : list (@Motion State)) (m : @Motion State) : Prop :=
  match parent m with
  | None => root m = state m
  | Some q =>
      ∃ pm, motions !! q = Some pm ∧ root m = root pm
            ∧ checkMotion (state pm) (state m) = true
  end.

Definition treeFits (motions : list (@Motion State)) : Prop :=
  ∀ i m, motions !! i = Some m → fits motions m.

(** What line 284 makes of a weight. *)
Definition decay (w : float) : float := (w / (w + 1))%float.

(** Every weight of the sampler is the weight a motion is born with
    among some number [k] of neighbors, decayed some number [j] of
    times, the tree holding more than [k + j] motions. *)
Definition weightsOK (t : @Tree State) : Prop :=
  ∀ e w, PDF.getWeight t.1.2 e = Some w →
    ∃ k j, k + j < length t.1.1 ∧ w = Nat.iter j decay (seedWeight k).

(** [R] holds of every element of the list and its successor. *)
Fixpoint adjacent {A} (R : A → A → Prop) (l : list A) : Prop :=
  match l with
  | a :: (b :: _) as rest => R a b ∧ adjacent R rest
  | _ => True
  end.

(** The motion between two states has passed [checkMotion] in one
    direction or the other. *)
Definition linked (a b : State) : Prop :=
  checkMotion a b = true ∨ checkMotion b a = true.

(** Every recorded solution path has at least two states, and each of
    its steps has passed [checkMotion] in one direction. *)
Definition pathsChecked (p : @Planner State) : Prop :=
  ∀ path, path ∈ solutionPaths p → 2 ≤ length path ∧ adjacent linked path.

(** The full invariant of a planner. *)
Definition Sound (p : @Planner State) : Prop :=
  wfPlanner p
  ∧ (∀ s, treeFits (motionsOf s p))
  ∧ (∀ s, weightsOK (treeOf s p))
  ∧ pathsChecked p.

(** The iterations that add a motion to the tree of the side [sd]. *)
Definition insertsOn (sd : Side) (o : Outcome) : bool :=
  match o with
  | Inserted s _ | Connected s _ _ => bool_decide (s = sd)
  | _ => false
  end.

(** [p'] is [p] with motions appended to its trees and paths appended
    to its record: no motion of [p] is removed, moved or altered, and
    the range, the radius and the setup flag are those of [p]. *)
Definition extends (p p' : @Planner State) : Prop :=
  (∀ sd, motionsOf sd p `prefix_of` motionsOf sd p')
  ∧ solutionPaths p `prefix_of` solutionPaths p'
  ∧ maxDistance_ p' = maxDistance_ p
  ∧ nbrhoodRadius_ p' = nbrhoodRadius_ p
  ∧ setup_ p' = setup_ p.

(** The two counts that make up the local density of the motion at
    position [i], whose state is [x]: the motions before it that it
    found within the radius [r] when it was inserted, and the motions
    after it that found it within the radius when they were inserted.
    The distance is taken from the motion already in the tree to the one
    being inserted, as the radius query takes it. *)
Definition foundNear (r : float) (motions : list (@Motion State)) (i : nat)
    (x : State) : nat :=
  length (filter (λ m, PrimFloat.leb (distance (state m) x) r)
            (take i motions)).

Definition arrivedNear (r : float) (motions : list (@Motion State)) (i : nat)
    (x : State) : nat :=
  length (filter (λ m, PrimFloat.leb (distance x (state m)) r)
            (drop (S i) motions)).

(** Every weight of the sampler is the weight its motion was born with
    among the neighbors it found, decayed once for each motion that
    arrived near it. *)
Definition densityTree (r : float) (t : @Tree State) : Prop :=
  ∀ i m w, t.1.1 !! i = Some m → PDF.getWeight t.1.2 i = Some w →
    w = Nat.iter (arrivedNear r t.1.1 i (state m)) decay
          (seedWeight (foundNear r t.1.1 i (state m))).

Definition densityOK (p : @Planner State) : Prop :=
  ∀ sd, densityTree (nbrhoodRadius_ p) (treeOf sd p).

(** The planners the code produces when the range is left alone once
    the planner has been asked to solve: configured, then only solved
    and cleared. *)
Inductive Steady : @Planner State → Prop :=
| steady_configured junk ops : Steady (configured junk ops)
| steady_clear p : Steady p → Steady (clear p)
| steady_solve p fuel w r :
    Steady p → solve fuel p w = Finished r → Steady (after r).

(** The connection point is a pair of nulls, or it holds the states of
    two motions that are in the trees, one in each, the first of which
    passed both tests of lines 227-228 against the second. *)
Definition bridged (p : @Planner State) : Prop :=
  connectionPoint_ p = (None, None)
  ∨ ∃ s m n mm nm,
      connectionPoint_ p = (Some (StateOf s m), Some (StateOf (otherSide s) n))
      ∧ motionsOf s p !! m = Some mm
      ∧ motionsOf (otherSide s) p !! n = Some nm
      ∧ accepts mm nm = true.

(** The states in which the bodies of the iterations of the loop run,
    in order, the loop being started in [s] (at most [fuel] of them). *)
Fixpoint bodies (fuel : nat) (s : @LoopState State W)
    : list (@LoopState State W) :=
  let '(stop, w) := ptc (world s) in
  let b := mkLoop (planner s) w (startTree s) (solved s) in
  if stop || solved s then []
  else
    match fuel with
    | O => []
    | S fuel' =>
        b :: match iteration b with
             | Some (GoalTreeEmpty, _) | None => []
             | Some (_, s') => bodies fuel' s'
             end
    end.

(** The iteration whose body runs in [b] finds a bridging connection: it
    gets as far as inserting a motion (lines 186-220), and among the
    motions of the other tree that the radius query of line 224 reports
    for it there is one that passes both tests of lines 227-228. *)
Definition bridges (b : @LoopState State W) : Prop :=
  ∃ p w existing em x w2 w3 t n nm,
    let side := sideOf (startTree b) in
    let motion := mkMotion x (Some existing) (root em) None in
    replenish (planner b) (world b) = Some (p, w)
    ∧ goalMotions_ p ≠ []
    ∧ pickCandidate (mkLoop p w (startTree b) (solved b))
      = Some (existing, em, Some x, w2)
    ∧ densityReject (length (nearestR (nnOf side p) x (nbrhoodRadius_ p))) w2
      = (false, w3)
    ∧ checkMotion (state em) x = true
    ∧ addMotion motion (motionsOf side p) (pdfOf side p) (nnOf side p)
        (nearestR (nnOf side p) x (nbrhoodRadius_ p)) = Some t
    ∧ n ∈ nearestR (nnOf (otherSide side) (setTree side t p)) x
            (maxDistance_ (setTree side t p))
    ∧ motionsOf (otherSide side) (setTree side t p) !! n = Some nm
    ∧ accepts motion nm = true.

(** *** Rounding, on the weights and thresholds of small trees *)

(** One decay of the weight [w]: [w] and the new weight are positive,
    the new weight is smaller, and it is the real [w / (w + 1)] to
    within 2^-53. *)
Definition decayOK (w : float) : bool :=
  PrimFloat.ltb 0 w && PrimFloat.ltb 0 (decay w) && PrimFloat.ltb (decay w) w
  && Qle_bool (Qabs (realValue (decay w) - realValue w / (realValue w + 1))) (2 ^ (-53)).

(** The weight [w] is at most 1 and is the real [1 / n] to within
    [j] times 2^-53. *)
Definition nearReciprocal (n j : nat) (w : float) : bool :=
  PrimFloat.leb w 1
  && Qle_bool (Qabs (realValue w - 1 / inject_Z (Z.of_nat n)))
       (inject_Z (Z.of_nat j) * 2 ^ (-53)).

(** The next [n] decays of [w], the weight of a motion born among [k]
    neighbors and decayed [j] times already. *)
Fixpoint decaysOK (n k j : nat) (w : float) : bool :=
  match n with
  | O => true
  | S n' =>
      decayOK w && nearReciprocal (S (k + j)) (S j) w
      && decaysOK n' k (S j) (decay w)
  end.

(** The weight a motion is born with among [k] neighbors is the real
    [1 / (k + 1)] to within 2^-53. *)
Definition seedOK (k : nat) : bool :=
  Qle_bool (Qabs (realValue (seedWeight k) - 1 / (inject_Z (Z.of_nat k) + 1)))
    (2 ^ (-53)).

(** All this for every weight a tree of at most [n] motions can hold. *)
Definition weightsChecked (n : nat) : bool :=
  forallb (λ k, seedOK k && decaysOK (n - k) k 0 (seedWeight k)) (seq 0 n).

(** The threshold of [k] neighbors lies in [0, 1), is not above the
    threshold of [k + 1], and is the real [1 - 1/k] to within 2^-53. *)
Definition thresholdOK (k : nat) : bool :=
  PrimFloat.leb 0 (rejectionThreshold k)
  && PrimFloat.ltb (rejectionThreshold k) 1
  && PrimFloat.leb (rejectionThreshold k) (rejectionThreshold (S k))
  && Qle_bool (Qabs (realValue (rejectionThreshold k)
                     - (1 - 1 / inject_Z (Z.of_nat k))))
       (2 ^ (-53)).

Definition thresholdsChecked (n : nat) : bool :=
  forallb thresholdOK (seq 1 n).

(** The positions of the motions of a vector that have no parent. *)
Definition rootPositions (motions : list (@Motion State)) : list nat :=
  omap (λ im, match parent im.2 with None => Some im.1 | Some _ => None end)
    (indexed motions).

(** The root motions the seeding loop appends for the states [sts] to a
    vector of [n] motions. *)
Definition rootMotions (n : nat) (sts : list State) : list (@Motion State) :=
  imap (λ i st, mkMotion st None st (Some (n + i))) sts.

End Vocabulary.

Global Arguments Motion : clear implicits.
Global Arguments NN : clear implicits.
Global Arguments Planner : clear implicits.
Global Arguments Tree : clear implicits.
Global Arguments LoopState : clear implicits.
Global Arguments Solved : clear implicits.

(** ** A scripted world on the line

    States are integers, the distance is the absolute difference, a
    motion is valid when it is at most five long, and every answer of the
    outside (start and goal states, random draws, nearby samples,
    termination) is read off a script. *)

Module Line.

Record Script := mkScript {
  sampleable : bool;
  could : bool;
  starts : list Z;
  goals : list Z;
  sampledGoals : nat;
  draws : list float;
  (** offsets of the nearby samples from their anchor *)
  nears : list (option Z);
  stops : list bool
}.

Definition popStarts (w : Script) : list Z * Script :=
  (starts w,
   mkScript (sampleable w) (could w) [] (goals w) (sampledGoals w) (draws w)
     (nears w) (stops w)).

Definition popGoal (w : Script) : option Z * Script :=
  match goals w with
  | [] => (None, w)
  | g :: gs =>
      (Some g,
       mkScript (sampleable w) (could w) (starts w) gs (S (sampledGoals w))
         (draws w) (nears w) (stops w))
  end.

Definition popDraw (w : Script) : float * Script :=
  match draws w with
  | [] => (0%float, w)
  | u :: us =>
      (u,
       mkScript (sampleable w) (could w) (starts w) (goals w)
         (sampledGoals w) us (nears w) (stops w))
  end.

Definition popNear (near : Z) (w : Script) : option Z * Script :=
  match nears w with
  | [] => (None, w)
  | x :: xs =>
      (Z.add near <$> x,
       mkScript (sampleable w) (could w) (starts w) (goals w)
         (sampledGoals w) (draws w) xs (stops w))
  end.

Definition popStop (w : Script) : bool * Script :=
  match stops w with
  | [] => (true, w)
  | b :: bs =>
      (b,
       mkScript (sampleable w) (could w) (starts w) (goals w)
         (sampledGoals w) (draws w) (nears w) bs)
  end.

#[global] Instance scripted : World Z Script := {|
  distance a b := toDouble (Z.abs (a - b));
  checkMotion a b := (Z.abs (a - b) <=? 5)%Z;
  isStartGoalPairValid _ _ := true;
  goalIsSampleable := sampleable;
  couldSample := could;
  getSampledGoalsCount := sampledGoals;
  nextStarts := popStarts;
  nextGoal _ := popGoal;
  uniform01 := popDraw;
  sampleNear near _ := popNear near;
  ptc := popStop;
  configurePlannerRange d := if PrimFloat.leb d 0 then 6%float else d;
  nnOrder hits := hits.*1;
  nnOrder_perm hits := Permutation_refl _
|}.

(** A planner set up with range 6 (neighborhood radius 2). *)
Definition fresh : Planner Z := setup (BiRealEST 0).

Definition script (ss gs : list Z) (us : list float) (xs : list (option Z))
    (bs : list bool) : Script :=
  mkScript true true ss gs 0 us xs bs.

(** A run that connects the two trees in its second iteration: one start
    state at 3, one goal state at 12; the first iteration grows the
    start tree to 4, the second grows the goal tree to 9, from where the
    start motion at 3 is too far for a valid motion and the one at 4 is
    not. *)
Definition w0 : Script :=
  script [3%Z] [12%Z] [0; 0; 0; 0]%float [Some 1%Z; Some (-3)%Z]
    [false; false; false; false].

(** The planner and the world with which the loop is entered. *)
Definition p1 : Planner Z := default fresh (seedStarts [3%Z] fresh).
Definition w1 : Script := (popStarts w0).2.

(** The state in which the body of the loop runs, the loop being entered
    in [s]. *)
Definition body (s : LoopState Z Script) : LoopState Z Script :=
  mkLoop (planner s) (popStop (world s)).2 (startTree s) (solved s).

Definition next (s : LoopState Z Script) : LoopState Z Script :=
  default s (snd <$> iteration (body s)).

Definition s1 : LoopState Z Script := mkLoop p1 w1 true false.
Definition s2 : LoopState Z Script := next s1.
Definition s3 : LoopState Z Script := next s2.

(** The planner and the world of the first iteration after the goal-tree
    replenishment. *)
Definition p2 : Planner Z :=
  default p1 (fst <$> replenish (planner (body s1)) (world (body s1))).
Definition w2 : Script :=
  default w1 (snd <$> replenish (planner (body s1)) (world (body s1))).

(** The tree the second iteration inserts its motion into. *)
Definition t3 : Tree Z :=
  default ([], [], [])
    (addMotion (mkMotion 9%Z (Some 0) 12%Z None) (goalMotions_ (planner s2))
       (goalPdf_ (planner s2)) (nnGoal_ (planner s2)) []).

Definition result (fuel : nat) (p : Planner Z) (w : Script)
    : Solved Z Script :=
  match solve fuel p w with
  | Finished r => r
  | _ => mkSolved TIMEOUT p w []
  end.

(** A run whose local sampler fails twice, and then the time is up. *)
Definition wFail : Script :=
  script [3%Z] [12%Z] [0; 0]%float [None; None] [false; false].

(** Worlds that fail the entry checks. *)
Definition wNoGoalKind : Script :=
  mkScript false true [] [] 0 [] [] [].
Definition wNoStart : Script :=
  mkScript true true [] [12%Z] 0 [] [] [].
Definition wNoGoal : Script :=
  mkScript true false [3%Z] [] 0 [] [] [].

(** A world whose goal region yields no state. *)
Definition wExhausted : Script :=
  mkScript true true [3%Z] [] 0 [] [] [false].

(** The pieces of the two iterations of the run [w0]. *)
Definition seed1 : Motion Z := mkMotion 3%Z None 3%Z (Some 0).
Definition seed2 : Motion Z := mkMotion 12%Z None 12%Z (Some 0).
Definition found2 : Motion Z := mkMotion 4%Z (Some 0) 3%Z (Some 1).
Definition afterNear1 : Script :=
  mkScript true true [] [] 1 [0; 0; 0]%float [Some (-3)%Z]
    [false; false; false].
Definition afterNear2 : Script :=
  mkScript true true [] [] 1 [0%float] [] [false; false].

(** The first iteration of the run [wFail]. *)
Definition sFail : LoopState Z Script :=
  body (mkLoop p1 (popStarts wFail).2 true false).
Definition sFail' : LoopState Z Script :=
  default sFail (snd <$> iteration sFail).

(** The planner the run [w0] leaves, and the weight its start sampler
    holds for the start root. *)
Definition solvedPlanner : Planner Z := after (result 10 fresh w0).
Definition rootWeight : float :=
  default 0%float (PDF.getWeight (pdfOf StartSide solvedPlanner) 0).

(** Two start states, 3 and 4, each in the neighborhood of the other:
    the candidate 4 grown from 3 has both for neighbors. With the draw
    0.25 it is rejected, with the draw 0.75 it is inserted. *)
Definition wDense : Script :=
  script [3%Z; 4%Z] [12%Z] [0; 0.25]%float [Some 1%Z] [false; false].
Definition wGrow : Script :=
  script [3%Z; 4%Z] [12%Z] [0; 0.75]%float [Some 1%Z] [false; false].

Definition pPair : Planner Z := default fresh (seedStarts [3%Z; 4%Z] fresh).

Definition sDense : LoopState Z Script :=
  body (mkLoop pPair (popStarts wDense).2 true false).
Definition pDense : Planner Z :=
  default pPair (fst <$> replenish (planner sDense) (world sDense)).
Definition wDense' : Script :=
  default wDense (snd <$> replenish (planner sDense) (world sDense)).

Definition afterNearDense : Script :=
  mkScript true true [] [] 1 [0.25%float] [] [false].

Definition sGrow : LoopState Z Script :=
  body (mkLoop pPair (popStarts wGrow).2 true false).
Definition sGrow' : LoopState Z Script :=
  default sGrow (snd <$> iteration sGrow).
Definition pGrow : Planner Z :=
  default pPair (fst <$> replenish (planner sGrow) (world sGrow)).

(** Nine start states within the radius 2 of the candidate 4, and a
    draw that is the very double the code compares it with. *)
Definition nineStarts : list Z := [2; 3; 4; 5; 6; 3; 4; 5; 4]%Z.
Definition drawNine : float := (1 - 1 / 9)%float.
Definition wNine : Script :=
  script nineStarts [12%Z] [0%float; drawNine] [Some 2%Z] [false; false].
Definition pNine : Planner Z := default fresh (seedStarts nineStarts fresh).
Definition sNine : LoopState Z Script :=
  body (mkLoop pNine (popStarts wNine).2 true false).
Definition sNine' : LoopState Z Script :=
  default sNine (snd <$> iteration sNine).
Definition pNine' : Planner Z :=
  default pNine (fst <$> replenish (planner sNine) (world sNine)).
Definition wNine' : Script :=
  default wNine (snd <$> replenish (planner sNine) (world sNine)).

Definition seedNine : Motion Z := mkMotion 2%Z None 2%Z (Some 0).
Definition afterNearNine : Script :=
  mkScript true true [] [] 1 [drawNine] [] [false].

End Line.


(** * Properties *)

Section Properties.

Context {State W : Type} `{!World State W}.

Implicit Types (motions : list (Motion State)) (pdf : PDF.t) (nn : NN State).
Implicit Types (neighbors es : list nat) (p : Planner State).

(** ** Rounded arithmetic *)

Lemma decaysOK_iter n : ∀ k j0 w j,
  decaysOK n k j0 w = true → j < n →
  decayOK (Nat.iter j decay w) = true
  ∧ nearReciprocal (S (k + (j0 + j))) (S (j0 + j)) (Nat.iter j decay w)
    = true.
Proof.
  induction n as [|n IH]; intros k j0 w j Hn Hj; [lia|].
  simpl in Hn. apply andb_true_iff in Hn as [Hw Hn].
  apply andb_true_iff in Hw as [Hw Hr].
  destruct j as [|j]; [by rewrite Nat.add_0_r|].
  rewrite Nat.iter_succ_r, <- Nat.add_succ_comm. apply IH; [done|lia].
Qed.

Lemma weightsChecked_family n k j :
  weightsChecked n = true → k + j < n →
  seedOK k = true
  ∧ decayOK (Nat.iter j decay (seedWeight k)) = true
  ∧ nearReciprocal (S (k + j)) (S j) (Nat.iter j decay (seedWeight k))
    = true.
Proof.
  unfold weightsChecked. rewrite forallb_forall. intros Hn Hkj.
  specialize (Hn k). rewrite in_seq in Hn.
  destruct (andb_prop _ _ (Hn ltac:(lia))) as [Hs Hd].
  split; [done|]. apply (decaysOK_iter (n - k) k 0); [exact Hd|lia].
Qed.

Lemma nearReciprocal_facts n j w :
  nearReciprocal n j w = true →
  PrimFloat.leb w 1 = true
  ∧ (Qabs (realValue w - 1 / inject_Z (Z.of_nat n))
     <= inject_Z (Z.of_nat j) * 2 ^ (-53))%Q.
Proof.
  unfold nearReciprocal. rewrite andb_true_iff, Qle_bool_iff. tauto.
Qed.

Lemma decayOK_facts w :
  decayOK w = true →
  PrimFloat.ltb 0 w = true
  ∧ PrimFloat.ltb 0 (w / (w + 1)) = true
  ∧ PrimFloat.ltb (w / (w + 1)) w = true
  ∧ (Qabs (realValue (w / (w + 1)) - realValue w / (realValue w + 1)) <= 2 ^ (-53))%Q.
Proof.
  unfold decayOK, decay. rewrite !andb_true_iff, Qle_bool_iff. tauto.
Qed.

Lemma thresholdsChecked_family n k :
  thresholdsChecked n = true → 1 ≤ k ≤ n → thresholdOK k = true.
Proof.
  unfold thresholdsChecked. rewrite forallb_forall. intros Hn Hk.
  apply Hn. rewrite in_seq. lia.
Qed.

Lemma thresholdOK_facts k :
  thresholdOK k = true →
  PrimFloat.leb 0 (rejectionThreshold k) = true
  ∧ PrimFloat.ltb (rejectionThreshold k) 1 = true
  ∧ PrimFloat.leb (rejectionThreshold k) (rejectionThreshold (S k)) = true
  ∧ (Qabs (realValue (rejectionThreshold k) - (1 - 1 / inject_Z (Z.of_nat k)))
     <= 2 ^ (-53))%Q.
Proof.
  unfold thresholdOK. rewrite !andb_true_iff, Qle_bool_iff. tauto.
Qed.

(** ** The sampler *)

Lemma getWeight_lt pdf e : e < length pdf → is_Some (PDF.getWeight pdf e).
Proof.
  intros He. unfold PDF.getWeight.
  destruct (lookup_lt_is_Some_2 pdf e He) as [dw Hdw]. rewrite Hdw. by eexists.
Qed.

Lemma update_Some pdf e w0 w :
  PDF.getWeight pdf e = Some w0 →
  ∃ d, pdf !! e = Some (d, w0) ∧ PDF.update pdf e w = Some (<[e := (d, w)]> pdf).
Proof.
  unfold PDF.getWeight, PDF.update, PDF.getData. intros Hw.
  destruct (pdf !! e) as [[d w1]|] eqn:E; simplify_eq/=. by exists d.
Qed.

Lemma getWeight_insert_eq pdf e d w :
  e < length pdf → PDF.getWeight (<[e := (d, w)]> pdf) e = Some w.
Proof.
  intros He. unfold PDF.getWeight. by rewrite list_lookup_insert_eq.
Qed.

Lemma getWeight_insert_ne pdf e e' dw :
  e ≠ e' → PDF.getWeight (<[e := dw]> pdf) e' = PDF.getWeight pdf e'.
Proof.
  intros Hne. unfold PDF.getWeight. by rewrite list_lookup_insert_ne.
Qed.

(** ** addMotion *)

Lemma updateNeighbors_weights motions neighbors : ∀ pdf es,
  handles motions neighbors = Some es →
  NoDup es →
  Forall (λ e, e < length pdf) es →
  ∃ pdf',
    updateNeighbors motions pdf neighbors = Some pdf'
    ∧ length pdf' = length pdf
    ∧ pdf'.*1 = pdf.*1
    ∧ (∀ e w, e ∈ es → PDF.getWeight pdf e = Some w →
         PDF.getWeight pdf' e = Some (w / (w + 1))%float)
    ∧ (∀ e, e ∉ es → PDF.getWeight pdf' e = PDF.getWeight pdf e).
Proof.
  induction neighbors as [|n rest IH]; intros pdf es Hes Hnd Hlt; simpl in *.
  - simplify_eq. exists pdf. repeat split; auto. intros e w He. by apply elem_of_nil in He.
  - destruct (motions !! n) as [m|]; simpl in *; [|done].
    destruct (element m) as [e|]; simpl in *; [|done].
    destruct (handles motions rest) as [es'|]; simplify_eq/=.
    apply NoDup_cons in Hnd as [Hnotin Hnd].
    apply Forall_cons in Hlt as [He Hlt].
    destruct (getWeight_lt pdf e He) as [w Hw]. rewrite Hw. simpl.
    destruct (update_Some pdf e w (w / (w + 1))%float Hw) as (d & Hd & ->). simpl.
    destruct (IH (<[e:=(d, (w / (w + 1))%float)]> pdf) es' eq_refl Hnd) as (pdf' & Hup & Hlen & Hdata & Hin & Hout).
    { by rewrite length_insert. }
    exists pdf'. split; [done|]. split; [by rewrite Hlen, length_insert|].
    split.
    { rewrite Hdata. rewrite list_fmap_insert. simpl.
      apply list_insert_id. by rewrite list_lookup_fmap, Hd. }
    split.
    + intros e0 w0 He0 Hw0. apply elem_of_cons in He0 as [->|He0].
      * rewrite Hout by done. simplify_eq. by apply getWeight_insert_eq.
      * apply Hin; [done|]. rewrite getWeight_insert_ne; [done|].
        intros ->. contradiction.
    + intros e0 He0. apply not_elem_of_cons in He0 as [Hne Hni].
      rewrite Hout by done. by apply getWeight_insert_ne.
Qed.

Lemma weights_checked : weightsChecked 256 = true.
Proof. vm_compute. reflexivity. Qed.

(** C1. [addMotion] called with [k] distinct neighbors, each holding a
    handle of the sampler, returns; the weight [w] of every neighbor has
    become the double [w / (w + 1.)], the quotient as the machine rounds
    it; the weights of the other elements are as before; and the new
    node is the last motion, holds the handle of a new element of the
    sampler, and that element is the new node's, with the double
    [1. / (k + 1.)] for weight. For the weights a tree of at most 256
    motions holds (the weight of a motion born among [k] neighbors and
    decayed [j] times, [k + j < 256]) the rounded quotient is positive,
    strictly less than [w], and within 2^-53 of the real [w / (w + 1)];
    and the weight at birth is within 2^-53 of the real [1 / (k + 1)]. *)
Theorem addMotion_weights motion motions pdf nn neighbors es :
  (handles motions neighbors = Some es →
   NoDup es →
   Forall (λ e, e < length pdf) es →
   ∃ pdf' nn',
     addMotion motion motions pdf nn neighbors
       = Some (motions ++ [setElement motion (length pdf)], pdf', nn')
     ∧ (∀ e w, e ∈ es → PDF.getWeight pdf e = Some w →
          PDF.getWeight pdf' e = Some (w / (w + 1))%float)
     ∧ (∀ e, e ∉ es → e < length pdf →
          PDF.getWeight pdf' e = PDF.getWeight pdf e)
     ∧ PDF.getData pdf' (length pdf) = Some (length motions)
     ∧ PDF.getWeight pdf' (length pdf)
         = Some (1 / (toDouble (Z.of_nat (length neighbors)) + 1))%float)
  ∧ (∀ k j, k + j < 256 →
       let w := Nat.iter j decay (seedWeight k) in
       PrimFloat.ltb 0 w = true
       ∧ PrimFloat.ltb 0 (w / (w + 1)) = true
       ∧ PrimFloat.ltb (w / (w + 1)) w = true
       ∧ (Qabs (realValue (w / (w + 1)) - realValue w / (realValue w + 1))
          <= 2 ^ (-53))%Q)
  ∧ (∀ k, k < 256 →
       (Qabs (realValue (1 / (toDouble (Z.of_nat k) + 1))%float
              - 1 / (inject_Z (Z.of_nat k) + 1))
        <= 2 ^ (-53))%Q).
Proof.
  split; [|split].
  - intros Hes Hnd Hlt.
    destruct (updateNeighbors_weights motions neighbors pdf es Hes Hnd Hlt)
      as (pdf1 & Hup & Hlen & _ & Hin & Hout).
    unfold addMotion. rewrite Hup. simpl. rewrite Hlen.
    eexists _, _. split; [reflexivity|].
    split; [|split; [|split]].
    + intros e w He Hw.
      unfold PDF.getWeight. rewrite lookup_app_l.
      * by apply Hin.
      * rewrite Hlen. by eapply Forall_forall in Hlt.
    + intros e He Hl. unfold PDF.getWeight. rewrite lookup_app_l by lia.
      by apply Hout.
    + unfold PDF.getData. rewrite lookup_app_r by lia.
      by rewrite Hlen, Nat.sub_diag.
    + unfold PDF.getWeight. rewrite lookup_app_r by lia.
      by rewrite Hlen, Nat.sub_diag.
  - intros k j Hkj w.
    exact (decayOK_facts w
             (proj1 (proj2 (weightsChecked_family 256 k j weights_checked
                              Hkj)))).
  - intros k Hk.
    assert (Hk0 : k + 0 < 256) by lia.
    pose proof (proj1 (weightsChecked_family 256 k 0 weights_checked Hk0))
      as Hs.
    unfold seedOK, seedWeight in Hs. apply Qle_bool_iff in Hs. exact Hs.
Qed.


(** ** Radius queries *)

Lemma nearestR_perm nn q r :
  nearestR nn q r ≡ₚ (filter (withinR q r) nn).*1.
Proof.
  unfold nearestR. rewrite nnOrder_perm, <- list_fmap_compose. done.
Qed.

Lemma nearestR_length nn q r :
  length (nearestR nn q r) = length (filter (withinR q r) nn).
Proof. by rewrite nearestR_perm, length_fmap. Qed.

Lemma nearestR_NoDup nn q r : NoDup nn.*1 → NoDup (nearestR nn q r).
Proof.
  intros Hnd. rewrite nearestR_perm.
  eapply sublist_NoDup; [exact Hnd|]. apply fmap_sublist, sublist_filter.

Qed.

Lemma nearestR_elem nn q r n : n ∈ nearestR nn q r → n ∈ nn.*1.
Proof.
  rewrite nearestR_perm. intros Hn.
  eapply sublist_subseteq; [|exact Hn]. apply fmap_sublist, sublist_filter.
Qed.

(** ** The invariant *)

Lemma wfTree_nn_fst (t : Tree State) : wfTree t → t.2.*1 = seq 0 (length t.1.1).
Proof.
  intros (_ & _ & ->). rewrite fmap_imap.
  rewrite (imap_ext _ (λ j _, j)) by done.
  by rewrite imap_seq_0, list_fmap_id.
Qed.

Lemma wfTree_length_pdf (t : Tree State) : wfTree t → length t.1.2 = length t.1.1.
Proof.
  intros (_ & Hpdf & _).
  by rewrite <- (length_fmap fst), Hpdf, length_seq.
Qed.

Lemma wfTree_neighbors (t : Tree State) q r :
  wfTree t →
  NoDup (nearestR t.2 q r)
  ∧ Forall (λ n, n < length t.1.1) (nearestR t.2 q r).
Proof.
  intros Hwf. pose proof (wfTree_nn_fst t Hwf) as Hfst. split.
  - apply nearestR_NoDup. rewrite Hfst. apply NoDup_seq.
  - apply Forall_forall. intros n Hn. apply nearestR_elem in Hn.
    rewrite Hfst in Hn. apply elem_of_seq in Hn. lia.
Qed.

Lemma handles_wf motions neighbors :
  (∀ i m, motions !! i = Some m → element m = Some i) →
  Forall (λ n, n < length motions) neighbors →
  handles motions neighbors = Some neighbors.
Proof.
  intros Hel. induction 1 as [|n rest Hn _ IH]; simpl; [done|].
  destruct (lookup_lt_is_Some_2 motions n Hn) as [m Hm].
  rewrite Hm. simpl. rewrite (Hel n m Hm). simpl. by rewrite IH.
Qed.

Lemma wfTree_empty : wfTree (([] : list (Motion State)), PDF.empty, []).
Proof. repeat split; intros; simplify_eq/=. Qed.

Lemma addMotion_wf motion motions pdf nn neighbors :
  wfTree (motions, pdf, nn) →
  NoDup neighbors →
  Forall (λ n, n < length motions) neighbors →
  (∀ q, parent motion = Some q → q < length motions) →
  ∃ t,
    addMotion motion motions pdf nn neighbors = Some t
    ∧ t.1.1 = motions ++ [setElement motion (length motions)]
    ∧ wfTree t.
Proof.
  intros Hwf Hnd Hlt Hpar.
  pose proof (wfTree_length_pdf _ Hwf) as Hlen. simpl in Hlen.
  destruct Hwf as (Hmot & Hpdf & Hnn). simpl in *.
  assert (Hh : handles motions neighbors = Some neighbors).
  { apply handles_wf; [|done]. intros i m Hm. by apply Hmot. }
  destruct (updateNeighbors_weights motions neighbors pdf neighbors Hh Hnd)
    as (pdf1 & Hup & Hlen1 & Hdata & _).
  { by rewrite Hlen. }
  unfold addMotion. rewrite Hup. simpl.
  eexists. split; [reflexivity|]. simpl. rewrite Hlen1, Hlen.
  split; [done|]. split; [|split]; simpl.
  - intros i m Hm. apply lookup_app_Some in Hm as [Hm|[Hge Hm]].
    + by apply Hmot.
    + apply list_lookup_singleton_Some in Hm as [Hi <-]. simpl. split.
      * f_equal. lia.
      * intros q Hq. specialize (Hpar q Hq). lia.
  - rewrite fmap_app, Hdata, Hpdf, length_app. simpl.
    by rewrite Nat.add_1_r, seq_S.
  - unfold nn_add. rewrite imap_app, Hnn. simpl. by rewrite Nat.add_0_r.
Qed.


(** ** Case analysis of an iteration *)

Lemma length_zero_iff {A} (l : list A) : (length l =? 0) = true ↔ l = [].
Proof. rewrite Nat.eqb_eq. apply length_zero_iff_nil. Qed.

Lemma iteration_inv s o s' :
  iteration s = Some (o, s') →
  ∃ p w, replenish (planner s) (world s) = Some (p, w) ∧ iterationCase s o s' p w.
Proof.
  unfold iteration. intros Hit.
  destruct (replenish (planner s) (world s)) as [[p w]|]; [|done].
  exists p, w. split; [done|]. simpl in Hit. unfold iterationCase.
  destruct (length (goalMotions_ p) =? 0) eqn:Hg.
  { apply length_zero_iff in Hg. simplify_eq. by split. }
  assert (Hne : goalMotions_ p ≠ []).
  { intros Hnil. apply length_zero_iff in Hnil. congruence. }
  unfold expand in Hit. simpl in Hit.
  destruct (pickCandidate _) as [[[[existing em] [x|]] w2]|]; simpl in Hit;
    [| |done].
  2:{ simplify_eq. simpl. eauto 10. }
  destruct (densityReject _ w2) as [[] w3] eqn:Hrej.
  { simplify_eq. simpl. eauto 12. }
  destruct (checkMotion (state em) x) eqn:Hcm.
  2:{ simplify_eq. simpl. eauto 12. }
  destruct (addMotion _ _ _ _ _) as [t|] eqn:Hadd; simpl in Hit; [|done].
  destruct (connect _ _ _ _) as [[[seen [n|]] p']|] eqn:Hcon; simpl in Hit;
    [| |done].
  - simplify_eq. simpl. split; [done|]. split; [done|].
    by exists existing, em, x, w2, w3, t, seen, p'.
  - simplify_eq. simpl. split; [done|]. split; [done|].
    by exists existing, em, x, w2, w3, t, seen, p'.
Qed.


(** ** The invariant is kept *)

#[local] Arguments setTree : simpl never.
#[local] Arguments recordSolution : simpl never.

Lemma treeOf_setTree_same s (t : Tree State) p : treeOf s (setTree s t p) = t.
Proof. by destruct s, t as [[??]?]. Qed.

Lemma treeOf_setTree_other s (t : Tree State) p :
  treeOf (otherSide s) (setTree s t p) = treeOf (otherSide s) p.
Proof. by destruct s. Qed.

Lemma motionsOf_setTree_same s (t : Tree State) p :
  motionsOf s (setTree s t p) = t.1.1.
Proof. unfold motionsOf. by rewrite treeOf_setTree_same. Qed.

Lemma motionsOf_setTree_other s (t : Tree State) p :
  motionsOf (otherSide s) (setTree s t p) = motionsOf (otherSide s) p.
Proof. unfold motionsOf. by rewrite treeOf_setTree_other. Qed.

Lemma wfPlanner_tree s p : wfPlanner p → wfTree (treeOf s p).
Proof. intros (Hs & Hg & _). by destruct s. Qed.

Lemma treeOf_eta s p : treeOf s p = (motionsOf s p, pdfOf s p, nnOf s p).
Proof. by destruct s. Qed.

Lemma setTree_wf s (t : Tree State) p :
  wfPlanner p → wfTree t → length (motionsOf s p) ≤ length t.1.1 →
  wfPlanner (setTree s t p).
Proof.
  intros (Hs & Hg & Hc) Ht Hlen. destruct t as [[ms pdf] nn].
  split; [|split].
  - by destruct s.
  - by destruct s.
  - destruct Hc as [Hc|(s0 & m & n & Hc & Hm & Hn)].
    + left. by destruct s.
    + right. exists s0, m, n. split; [by destruct s|].
      destruct s, s0; simpl in *; unfold motionsOf in *; simpl in *; lia.
Qed.

Lemma recordSolution_wf s m n path p :
  wfPlanner p →
  m < length (motionsOf s p) → n < length (motionsOf (otherSide s) p) →
  wfPlanner (recordSolution (StateOf s m, StateOf (otherSide s) n) path p).
Proof.
  intros (Hs & Hg & _) Hm Hn. split; [done|]. split; [done|].
  right. by exists s, m, n.
Qed.

Lemma insertRoot_wf s st p :
  wfPlanner p →
  ∃ t,
    insertRoot s st p = Some (setTree s t p)
    ∧ t.1.1 = motionsOf s p
                ++ [mkMotion st None st (Some (length (motionsOf s p)))]
    ∧ wfPlanner (setTree s t p).
Proof.
  intros Hwf. pose proof (wfPlanner_tree s p Hwf) as Ht.
  destruct (wfTree_neighbors _ st (nbrhoodRadius_ p) Ht) as [Hnd Hlt].
  rewrite treeOf_eta in Ht.
  destruct (addMotion_wf (mkMotion st None st None) (motionsOf s p)
              (pdfOf s p) (nnOf s p)
              (nearestR (nnOf s p) st (nbrhoodRadius_ p)) Ht Hnd Hlt)
    as (t & Hadd & Hms & Ht'); [done|].
  exists t. unfold insertRoot. rewrite Hadd. simpl.
  split; [done|]. split; [done|].
  apply setTree_wf; [done..|]. rewrite Hms, length_app. lia.
Qed.

Lemma seedStarts_wf sts : ∀ p,
  wfPlanner p →
  ∃ p',
    seedStarts sts p = Some p'
    ∧ wfPlanner p'
    ∧ length (startMotions_ p') = length (startMotions_ p) + length sts.
Proof.
  induction sts as [|st rest IH]; intros p Hwf; simpl.
  - exists p. split; [done|]. split; [done|]. lia.
  - destruct (insertRoot_wf StartSide st p Hwf) as (t & -> & Hms & Hwf').
    simpl. destruct (IH _ Hwf') as (p' & -> & Hwf'' & Hlen).
    exists p'. split; [done|]. split; [done|].
    rewrite Hlen. simpl. rewrite Hms, length_app. simpl.
    unfold motionsOf. simpl. lia.
Qed.

Lemma replenish_wf p w :
  wfPlanner p →
  ∃ p' w',
    replenish p w = Some (p', w')
    ∧ wfPlanner p'
    ∧ treeOf StartSide p' = treeOf StartSide p.
Proof.
  intros Hwf. unfold replenish.
  destruct (_ || _); [|by exists p, w].
  destruct (nextGoal _ w) as [[st|] w']; [|by exists p, w'].
  destruct (insertRoot_wf GoalSide st p Hwf) as (t & -> & Hms & Hwf').
  simpl. by exists (setTree GoalSide t p), w'.
Qed.

(** ** Sampling a motion *)

Lemma pick_Some (l : list (MotionPtr * float)) : ∀ x,
  l ≠ [] → ∃ d, PDF.pick l x = Some d ∧ d ∈ l.*1.
Proof.
  induction l as [|[d w] rest IH]; intros x Hne; [done|].
  destruct rest as [|dw rest'].
  - exists d. split; [done|]. apply list_elem_of_here.
  - simpl. destruct dw as [d' w'].
    destruct (PrimFloat.leb x w).
    + exists d. split; [done|]. apply list_elem_of_here.
    + destruct (IH (x - w)%float) as (d0 & Hd0 & Hin); [done|].
      exists d0. split; [exact Hd0|]. by apply list_elem_of_further.
Qed.

Lemma pickCandidate_wf (s : LoopState State W) :
  wfTree (treeOf (sideOf (startTree s)) (planner s)) →
  motionsOf (sideOf (startTree s)) (planner s) ≠ [] →
  ∃ existing em x w2,
    pickCandidate s = Some (existing, em, x, w2)
    ∧ motionsOf (sideOf (startTree s)) (planner s) !! existing = Some em.
Proof.
  intros Hwf Hne. unfold pickCandidate.
  destruct (uniform01 (world s)) as [u w1].
  set (side := sideOf (startTree s)) in *.
  pose proof (wfTree_length_pdf _ Hwf) as Hlen.
  destruct Hwf as (_ & Hpdf & _).
  unfold PDF.sample.
  destruct (pick_Some (pdfOf side (planner s))
              (u * PDF.total (pdfOf side (planner s)))%float)
    as (d & Hd & Hin).
  { intros Hnil. apply Hne. apply length_zero_iff_nil.
    unfold motionsOf. rewrite <- Hlen. unfold pdfOf in Hnil. by rewrite Hnil. }
  rewrite Hd. simpl.
  unfold pdfOf in Hin. rewrite Hpdf in Hin. apply elem_of_seq in Hin.
  destruct (lookup_lt_is_Some_2 (motionsOf side (planner s)) d) as [em Hem].
  { unfold motionsOf. lia. }
  rewrite Hem. simpl.
  destruct (sampleNear (state em) (maxDistance_ (planner s)) w1) as [x w2].
  by exists d, em, x, w2.
Qed.

(** ** Walking up the parents *)

Lemma parentChain_isChain motions fuel : ∀ from c,
  parentChain fuel motions from = Some c → isChain motions from c.
Proof.
  induction fuel as [|fuel IH]; intros [i|] c Hc; simpl in Hc;
    simplify_eq/=; try done.
  destruct (motions !! i) as [m|] eqn:Hm; simplify_eq/=.
  destruct (parentChain fuel motions (parent m)) as [rest|] eqn:Hrest;
    simplify_eq/=.
  exists i. split; [done|]. split; [done|]. by apply IH.
Qed.

Lemma parentChain_wf motions :
  (∀ i m, motions !! i = Some m → ∀ q, parent m = Some q → q < i) →
  ∀ fuel i, i < length motions → i < fuel →
    ∃ m c, motions !! i = Some m
           ∧ parentChain fuel motions (Some i) = Some (m :: c).
Proof.
  intros Hpar. induction fuel as [|fuel IH]; intros i Hi Hfuel; [lia|].
  destruct (lookup_lt_is_Some_2 motions i Hi) as [m Hm].
  simpl. rewrite Hm. simpl.
  destruct (parent m) as [q|] eqn:Hq.
  - pose proof (Hpar i m Hm q Hq) as Hlt.
    destruct (IH q) as (mq & c & _ & ->); [lia..|]. simpl. eauto.
  - destruct fuel; simpl; eauto.
Qed.

Lemma isChain_last motions : ∀ c from m,
  isChain motions from (m :: c) →
  ∃ r, last (m :: c) = Some r ∧ parent r = None ∧ r ∈ motions.
Proof.
  induction c as [|m' c IH]; intros from m (i & _ & Hm & Hrest).
  - simpl in Hrest. exists m. split; [done|]. split; [done|].
    by eapply list_elem_of_lookup_2.
  - destruct (IH _ _ Hrest) as (r & Hlast & Hroot & Hin). by exists r.
Qed.

Lemma mpath_wf motions i :
  (∀ i m, motions !! i = Some m → ∀ q, parent m = Some q → q < i) →
  i < length motions →
  ∃ m c, motions !! i = Some m ∧ mpath motions i = Some (m :: c).
Proof. intros Hpar Hi. by apply parentChain_wf. Qed.

Lemma wfTree_parents (t : Tree State) :
  wfTree t → ∀ i m, t.1.1 !! i = Some m → ∀ q, parent m = Some q → q < i.
Proof. intros (Hmot & _) i m Hm. by apply (Hmot i m). Qed.

Lemma solutionPath_wf p sm gm :
  wfPlanner p →
  sm < length (startMotions_ p) → gm < length (goalMotions_ p) →
  ∃ m1 c1 m2 c2,
    mpath (startMotions_ p) sm = Some (m1 :: c1)
    ∧ mpath (goalMotions_ p) gm = Some (m2 :: c2)
    ∧ startMotions_ p !! sm = Some m1
    ∧ goalMotions_ p !! gm = Some m2
    ∧ solutionPath p sm gm
        = Some (reverse (state <$> m1 :: c1) ++ (state <$> m2 :: c2)).
Proof.
  intros (Hs & Hg & _) Hsm Hgm.
  destruct (mpath_wf (startMotions_ p) sm (wfTree_parents _ Hs) Hsm)
    as (m1 & c1 & Hm1 & Hc1).
  destruct (mpath_wf (goalMotions_ p) gm (wfTree_parents _ Hg) Hgm)
    as (m2 & c2 & Hm2 & Hc2).
  exists m1, c1, m2, c2. unfold solutionPath. rewrite Hc1, Hc2. done.
Qed.

(** ** The scan of the other tree *)

Lemma connectScan_first motion others pre n nm post :
  Forall (λ n', ∃ nm', others !! n' = Some nm' ∧ accepts motion nm' = false)
    pre →
  others !! n = Some nm → accepts motion nm = true →
  connectScan motion others (pre ++ n :: post) = Some (pre ++ [n], Some n).
Proof.
  intros Hpre Hn Hacc. induction Hpre as [|n' pre (nm' & Hn' & Hrej) _ IH];
    simpl.
  - by rewrite Hn; simpl; rewrite Hacc.
  - rewrite Hn'. simpl. rewrite Hrej, IH. done.
Qed.

Lemma connectScan_none motion others neighbors :
  Forall (λ n', ∃ nm', others !! n' = Some nm' ∧ accepts motion nm' = false)
    neighbors →
  connectScan motion others neighbors = Some (neighbors, None).
Proof.
  induction 1 as [|n' rest (nm' & Hn' & Hrej) _ IH]; simpl; [done|].
  rewrite Hn'. simpl. by rewrite Hrej, IH.
Qed.

Lemma connectScan_total motion others neighbors :
  Forall (λ n, n < length others) neighbors →
  ∃ seen found,
    connectScan motion others neighbors = Some (seen, found)
    ∧ ∀ n, found = Some n → n < length others.
Proof.
  induction 1 as [|n rest Hn _ (seen & found & IH & Hfound)]; simpl.
  - by exists [], None.
  - destruct (lookup_lt_is_Some_2 others n Hn) as [nm ->]. simpl.
    destruct (accepts motion nm).
    + exists [n], (Some n). split; [done|]. by intros ? [= <-].
    + rewrite IH. simpl. by exists (n :: seen), found.
Qed.

Lemma neighbors_valid s p q r :
  wfPlanner p →
  NoDup (nearestR (nnOf s p) q r)
  ∧ Forall (λ n, n < length (motionsOf s p)) (nearestR (nnOf s p) q r).
Proof.
  intros Hwf. by apply (wfTree_neighbors (treeOf s p)), wfPlanner_tree.
Qed.

Lemma connect_wf side m motion p :
  wfPlanner p → m < length (motionsOf side p) →
  ∃ seen found p',
    connect side m motion p = Some (seen, found, p')
    ∧ wfPlanner p'
    ∧ (∀ s, treeOf s p' = treeOf s p).
Proof.
  intros Hwf Hm. unfold connect.
  destruct (neighbors_valid (otherSide side) p (state motion)
              (maxDistance_ p) Hwf) as [_ Hlt].
  destruct (connectScan_total motion (motionsOf (otherSide side) p) _ Hlt)
    as (seen & found & -> & Hfound). simpl.
  destruct found as [n|]; [|by exists seen, None, p].
  specialize (Hfound n eq_refl).
  destruct (solutionPath_wf p
              (match side with StartSide => m | GoalSide => n end)
              (match side with StartSide => n | GoalSide => m end) Hwf)
    as (m1 & c1 & m2 & c2 & _ & _ & _ & _ & ->).
  { by destruct side. }
  { by destruct side. }
  simpl. eexists seen, (Some n), _. split; [done|].
  split; [by apply recordSolution_wf|]. by intros [].
Qed.

(** ** An iteration never fails, and keeps the invariant *)

Lemma expand_wf (s : LoopState State W) :
  wfPlanner (planner s) →
  motionsOf (sideOf (startTree s)) (planner s) ≠ [] →
  ∃ o s',
    expand s = Some (o, s')
    ∧ wfPlanner (planner s')
    ∧ ∀ sd, length (motionsOf sd (planner s))
            ≤ length (motionsOf sd (planner s')).
Proof.
  intros Hwf Hne.
  destruct (pickCandidate_wf s (wfPlanner_tree _ _ Hwf) Hne)
    as (existing & em & x & w2 & Hpick & Hem).
  unfold expand. rewrite Hpick. simpl.
  set (side := sideOf (startTree s)) in *. set (p := planner s) in *.
  destruct x as [x|]; [|by eexists _, _].
  destruct (densityReject _ w2) as [[] w3]; [by eexists _, _|].
  destruct (checkMotion (state em) x); [|by eexists _, _].
  destruct (neighbors_valid side p x (nbrhoodRadius_ p) Hwf) as [Hnd Hlt].
  pose proof (wfPlanner_tree side p Hwf) as Ht. rewrite treeOf_eta in Ht.
  destruct (addMotion_wf (mkMotion x (Some existing) (root em) None)
              (motionsOf side p) (pdfOf side p) (nnOf side p) _ Ht Hnd Hlt)
    as (t & -> & Hms & Ht').
  { intros q [= <-]. by eapply lookup_lt_Some. }
  simpl.
  assert (Hlen : length (motionsOf side p) < length t.1.1).
  { rewrite Hms, length_app. simpl. lia. }
  assert (Hwf1 : wfPlanner (setTree side t p)).
  { apply setTree_wf; [done..|lia]. }
  destruct (connect_wf side (length (motionsOf side p))
              (mkMotion x (Some existing) (root em) None) _ Hwf1)
    as (seen & found & p' & -> & Hwf' & Htrees).
  { by rewrite motionsOf_setTree_same. }
  simpl.
  assert (Hgrow : ∀ sd, length (motionsOf sd p) ≤ length (motionsOf sd p')).
  { intros sd. unfold motionsOf at 2. rewrite Htrees.
    fold (motionsOf sd (setTree side t p)).
    destruct (decide (sd = side)) as [->|Hsd].
    - rewrite motionsOf_setTree_same. lia.
    - assert (sd = otherSide side) as -> by (by destruct sd, side).
      by rewrite motionsOf_setTree_other. }
  destruct found; by eexists _, _.
Qed.

Lemma iteration_wf (s : LoopState State W) :
  wfPlanner (planner s) → startMotions_ (planner s) ≠ [] →
  ∃ o s',
    iteration s = Some (o, s')
    ∧ wfPlanner (planner s')
    ∧ startMotions_ (planner s') ≠ [].
Proof.
  intros Hwf Hne. unfold iteration.
  destruct (replenish_wf (planner s) (world s) Hwf)
    as (p & w & -> & Hwfp & Hstart).
  simpl.
  assert (Hnep : startMotions_ p ≠ []).
  { by injection Hstart as -> _ _. }
  destruct (length (goalMotions_ p) =? 0) eqn:Hg; [by eexists _, _|].
  destruct (expand_wf (mkLoop p w (startTree s) (solved s)) Hwfp)
    as (o & s' & -> & Hwf' & Hgrow).
  { simpl. destruct (startTree s); simpl; [done|].
    intros Hnil. apply length_zero_iff in Hnil.
    unfold motionsOf in Hnil. simpl in Hnil. congruence. }
  exists o, s'. split; [done|]. split; [done|].
  specialize (Hgrow StartSide). simpl in Hgrow.
  unfold motionsOf in Hgrow. simpl in Hgrow.
  destruct (startMotions_ p); [done|].
  intros Hnil. rewrite Hnil in Hgrow. simpl in Hgrow. lia.
Qed.

Lemma mainLoop_safe fuel : ∀ s : LoopState State W,
  wfPlanner (planner s) → startMotions_ (planner s) ≠ [] →
  mainLoop fuel s ≠ Aborted
  ∧ ∀ sf os, mainLoop fuel s = Finished (sf, os) → wfPlanner (planner sf).
Proof.
  induction fuel as [|fuel IH]; intros s Hwf Hne; simpl;
    destruct (ptc (world s)) as [stop w]; simpl;
    (destruct (stop || solved s); [split; [done|by intros ?? [= <- _]]|]).
  - done.
  - destruct (iteration_wf (mkLoop (planner s) w (startTree s) (solved s)))
      as (o & s' & -> & Hwf' & Hne'); [done..|].
    destruct (IH s' Hwf' Hne') as [Hsafe Hfin].
    destruct (mainLoop fuel s') as [[sf os]| |] eqn:Hloop; [|clear Hfin..].
    + specialize (Hfin sf os eq_refl).
      destruct o; (split; [done|]); intros ?? [= <- _]; done.
    + destruct o; (split; [done|]); intros ?? [= <- _]; done.
    + done.
Qed.

(** ** Density rejection *)

Lemma densityReject_true k w :
  (densityReject k w).1 = true
  ↔ k ≠ 0
    ∧ PrimFloat.ltb (uniform01 w).1 (1 - 1 / toDouble (Z.of_nat k)) = true.
Proof.
  unfold densityReject. destruct (k =? 0) eqn:Hk;
    rewrite ?Nat.eqb_eq, ?Nat.eqb_neq in *.
  - simpl. split; [done|]. by intros [].
  - destruct (uniform01 w) as [u w']. simpl.
    unfold rejectionThreshold. tauto.
Qed.

Lemma filter_index_length (q : State) (r : float)
    (motions : list (Motion State)) :
  ∀ g : nat → nat,
    length (filter (withinR q r) (imap (λ i m, (g i, state m)) motions))
    = length (filter (λ m, PrimFloat.leb (distance (state m) q) r) motions).
Proof.
  induction motions as [|m rest IH]; intros g; [done|].
  simpl. rewrite !filter_cons. specialize (IH (g ∘ S)).
  repeat case_decide; unfold withinR in *; simpl in *; try tauto;
    unfold compose; simpl; congruence.
Qed.

Lemma thresholds_checked : thresholdsChecked 4096 = true.
Proof. vm_compute. reflexivity. Qed.

(** C2. In an iteration that has its candidate [x], let [k] be the
    number of neighbors the radius query of line 200 reports. [k] is the
    number of motions of the side being expanded whose state is within
    the neighborhood radius of [x]. The iteration ends at the rejection
    of line 207 exactly when [k] is not 0 and the next draw [u] is below
    the double [1.0 - (1.0 / k)], the difference and the quotient as the
    machine rounds them; with [k = 0] it never does. That double is 0 at
    [k = 1]; for [k] from 1 to 4096 it lies in [0, 1), is not above the
    one of [k + 1], and is within 2^-53 of the real [1 - 1/k]. *)
Theorem density_rejection (s : LoopState State W) p w existing em x w2 :
  wfPlanner p →
  replenish (planner s) (world s) = Some (p, w) →
  goalMotions_ p ≠ [] →
  pickCandidate (mkLoop p w (startTree s) (solved s))
    = Some (existing, em, Some x, w2) →
  let side := sideOf (startTree s) in
  let k := length (nearestR (nnOf side p) x (nbrhoodRadius_ p)) in
  let u := (uniform01 w2).1 in
  k = length (filter (λ m, PrimFloat.leb (distance (state m) x)
                             (nbrhoodRadius_ p))
                (motionsOf side p))
  ∧ ((∃ s', iteration s = Some (DensityRejected side, s'))
     ↔ k ≠ 0 ∧ PrimFloat.ltb u (1 - 1 / toDouble (Z.of_nat k)) = true)
  ∧ (k = 0 → ∀ s', iteration s ≠ Some (DensityRejected side, s'))
  ∧ (1 - 1 / toDouble 1)%float = 0%float
  ∧ (∀ j, 1 ≤ j ≤ 4096 →
       let t := (1 - 1 / toDouble (Z.of_nat j))%float in
       PrimFloat.leb 0 t = true
       ∧ PrimFloat.ltb t 1 = true
       ∧ PrimFloat.leb t (1 - 1 / toDouble (Z.of_nat (S j))) = true
       ∧ (Qabs (realValue t - (1 - 1 / inject_Z (Z.of_nat j))) <= 2 ^ (-53))%Q).
Proof.
  intros Hwf Hrep Hgoal Hpick side k u.
  assert (Hiff : (∃ s', iteration s = Some (DensityRejected side, s'))
                 ↔ (densityReject k w2).1 = true).
  { split.
    - intros [s' Hit]. apply iteration_inv in Hit as (p0 & w0 & Hrep0 & Hcase).
      rewrite Hrep in Hrep0. simplify_eq. simpl in Hcase.
      destruct Hcase as (_ & _ & ex & em0 & x0 & w20 & w3 & Hpick0 & Hrej & _).
      rewrite Hpick in Hpick0. simplify_eq. fold side in Hrej. fold k in Hrej.
      by rewrite Hrej.
    - intros Hrej. unfold iteration. rewrite Hrep. simpl.
      destruct (length (goalMotions_ p) =? 0) eqn:Hg.
      { by apply length_zero_iff in Hg. }
      unfold expand. rewrite Hpick. simpl. fold side. fold k.
      destruct (densityReject k w2) as [rej w3]. simpl in Hrej. subst rej.
      by eexists. }
  split.
  { unfold k. rewrite nearestR_length.
    pose proof (wfPlanner_tree side p Hwf) as (_ & _ & Hnn).
    unfold nnOf. rewrite Hnn. apply (filter_index_length x _ _ id). }
  split; [by rewrite Hiff, densityReject_true|].
  split.
  { intros Hk s' Hit.
    assert (Hex : ∃ s', iteration s = Some (DensityRejected side, s'))
      by eauto.
    rewrite Hiff, densityReject_true in Hex. by destruct Hex. }
  split; [reflexivity|].
  intros j Hj t.
  exact (thresholdOK_facts j
           (thresholdsChecked_family 4096 j thresholds_checked Hj)).
Qed.

(** ** The connection of the two trees *)

Lemma motionsOf_recordSolution sd cp path p :
  motionsOf sd (recordSolution cp path p) = motionsOf sd p.
Proof. by destruct sd. Qed.

Lemma mainLoop_solved fuel (s : LoopState State W) :
  solved s = true →
  mainLoop fuel s
  = Finished (mkLoop (planner s) (ptc (world s)).2 (startTree s) true, []).
Proof.
  intros Hs. destruct fuel; simpl; destruct (ptc (world s)) as [stop w];
    simpl; rewrite Hs, orb_true_r; done.
Qed.

(** C3. Take an iteration that has inserted its new node [m] (the
    candidate [x], expanded from [existing]), and let the other tree's
    index report, for the ball of radius [maxDistance_] around the new
    node, the neighbors [pre ++ n :: post] in this order, where no
    neighbor of [pre] passes the two tests of lines 227-228 and [n]
    does. Then the scan looks at [pre] and [n] and at nothing of [post];
    the iteration ends connected to [n]; the connection point is the
    pair (state of the new node, state of [n]); [solved] is set; and
    the main loop, entered again in that state, finishes at once. *)
Theorem bridge_first_success (s : LoopState State W) p w existing em x w2 w3
    t pre n nm post :
  let side := sideOf (startTree s) in
  let motion := mkMotion x (Some existing) (root em) None in
  let m := length (motionsOf side p) in
  let p1 := setTree side t p in
  wfPlanner p →
  replenish (planner s) (world s) = Some (p, w) →
  goalMotions_ p ≠ [] →
  pickCandidate (mkLoop p w (startTree s) (solved s))
    = Some (existing, em, Some x, w2) →
  densityReject (length (nearestR (nnOf side p) x (nbrhoodRadius_ p))) w2
    = (false, w3) →
  checkMotion (state em) x = true →
  addMotion motion (motionsOf side p) (pdfOf side p) (nnOf side p)
    (nearestR (nnOf side p) x (nbrhoodRadius_ p)) = Some t →
  nearestR (nnOf (otherSide side) p1) x (maxDistance_ p1) = pre ++ n :: post →
  (∀ n' nm', n' ∈ pre → motionsOf (otherSide side) p1 !! n' = Some nm' →
     accepts motion nm' = false) →
  motionsOf (otherSide side) p1 !! n = Some nm →
  accepts motion nm = true →
  ∃ s',
    connect side m motion p1 = Some (pre ++ [n], Some n, planner s')
    ∧ iteration s = Some (Connected side m n, s')
    ∧ motionsOf side (planner s') !! m = Some (setElement motion m)
    ∧ connectionPoint_ (planner s')
      = (Some (StateOf side m), Some (StateOf (otherSide side) n))
    ∧ solved s' = true
    ∧ ∀ fuel,
        mainLoop fuel s'
        = Finished (mkLoop (planner s') (ptc (world s')).2 (startTree s') true,
                    []).
Proof.
  intros side motion m p1 Hwf Hrep Hgoal Hpick Hrej Hcm Hadd Hnbrs Hpre Hn Hacc.
  (* the insertion *)
  destruct (neighbors_valid side p x (nbrhoodRadius_ p) Hwf) as [Hnd Hlt].
  pose proof (wfPlanner_tree side p Hwf) as Ht. rewrite treeOf_eta in Ht.
  assert (Hex : existing < length (motionsOf side p)).
  { unfold pickCandidate in Hpick. simpl in Hpick. fold side in Hpick.
    destruct (uniform01 w) as [u0 w1].
    destruct (PDF.sample (pdfOf side p) u0) as [e|]; simpl in Hpick; [|done].
    destruct (motionsOf side p !! e) as [em'|] eqn:He; simpl in Hpick; [|done].
    destruct (sampleNear _ _ w1). simplify_eq.
    by eapply lookup_lt_Some. }
  destruct (addMotion_wf motion (motionsOf side p) (pdfOf side p)
              (nnOf side p) _ Ht Hnd Hlt) as (t' & Hadd' & Hms & Ht').
  { by intros q [= <-]. }
  rewrite Hadd in Hadd'. injection Hadd' as <-.
  assert (Hwf1 : wfPlanner p1).
  { apply setTree_wf; [done..|]. rewrite Hms, length_app. lia. }
  assert (Hm1 : motionsOf side p1 !! m = Some (setElement motion m)).
  { unfold p1. rewrite motionsOf_setTree_same, Hms.
    by rewrite lookup_app_r, Nat.sub_diag. }
  (* the scan *)
  destruct (neighbors_valid (otherSide side) p1 x (maxDistance_ p1) Hwf1)
    as [_ Hvalid].
  rewrite Hnbrs in Hvalid. apply Forall_app in Hvalid as [Hvpre _].
  assert (Hscan : connectScan motion (motionsOf (otherSide side) p1)
                    (pre ++ n :: post) = Some (pre ++ [n], Some n)).
  { apply connectScan_first with nm; [|done..].
    apply Forall_forall. intros n' Hn'.
    destruct (lookup_lt_is_Some_2 (motionsOf (otherSide side) p1) n')
      as [nm' Hnm'].
    { by eapply Forall_forall in Hvpre. }
    exists nm'. split; [done|]. by apply (Hpre n'). }
  (* the path *)
  destruct (solutionPath_wf p1
              (match side with StartSide => m | GoalSide => n end)
              (match side with StartSide => n | GoalSide => m end) Hwf1)
    as (m1 & c1 & m2 & c2 & _ & _ & _ & _ & Hpath).
  { apply lookup_lt_Some in Hm1, Hn. by destruct side. }
  { apply lookup_lt_Some in Hm1, Hn. by destruct side. }
  set (path := reverse (state <$> m1 :: c1) ++ (state <$> m2 :: c2)) in *.
  set (p' := recordSolution (StateOf side m, StateOf (otherSide side) n)
               path p1).
  assert (Hcon : connect side m motion p1 = Some (pre ++ [n], Some n, p')).
  { unfold connect. change (state motion) with x. rewrite Hnbrs, Hscan.
    simpl. by rewrite Hpath. }
  exists (mkLoop p' w3 (negb (startTree s)) true). simpl.
  split; [done|]. split.
  { unfold iteration. rewrite Hrep. simpl.
    destruct (length (goalMotions_ p) =? 0) eqn:Hg.
    { by apply length_zero_iff in Hg. }
    unfold expand. rewrite Hpick. simpl. fold side. rewrite Hrej, Hcm.
    fold motion. rewrite Hadd. simpl. fold m. fold p1. by rewrite Hcon. }
  split; [by unfold p'; rewrite motionsOf_recordSolution|].
  split; [done|]. split; [done|].
  intros fuel. by apply mainLoop_solved.
Qed.

(** ** The solution path *)

Lemma pickCandidate_existing (s : LoopState State W) existing em x w2 :
  pickCandidate s = Some (existing, em, x, w2) →
  motionsOf (sideOf (startTree s)) (planner s) !! existing = Some em.
Proof.
  unfold pickCandidate. intros Hpick.
  destruct (uniform01 (world s)) as [u0 w0].
  destruct (PDF.sample _ u0) as [e|]; simpl in Hpick; [|done].
  destruct (motionsOf _ _ !! e) as [em'|] eqn:He; simpl in Hpick; [|done].
  destruct (sampleNear _ _ w0). by simplify_eq.
Qed.

Lemma connectScan_found motion others : ∀ neighbors seen n,
  connectScan motion others neighbors = Some (seen, Some n) →
  n ∈ neighbors ∧ n < length others.
Proof.
  induction neighbors as [|n0 rest IH]; intros seen n Hscan; simpl in Hscan;
    [by simplify_eq|].
  destruct (others !! n0) as [nm|] eqn:Hn0; simpl in Hscan; [|done].
  destruct (accepts motion nm).
  - simplify_eq. split; [apply list_elem_of_here|by eapply lookup_lt_Some].
  - destruct (connectScan motion others rest) as [[seen' found']|] eqn:Hrest;
      simpl in Hscan; [|done].
    simplify_eq. destruct (IH _ _ eq_refl) as [Hin Hlt].
    split; [by apply list_elem_of_further|done].
Qed.

Lemma connect_inv side m motion p seen found p' :
  connect side m motion p = Some (seen, found, p') →
  match found with
  | None => p' = p
  | Some n =>
      n < length (motionsOf (otherSide side) p)
      ∧ ∃ path,
          solutionPath p (match side with StartSide => m | GoalSide => n end)
            (match side with StartSide => n | GoalSide => m end) = Some path
          ∧ p' = recordSolution (StateOf side m, StateOf (otherSide side) n)
                   path p
  end.
Proof.
  unfold connect. intros Hcon.
  destruct (connectScan _ _ _) as [[seen0 [n|]]|] eqn:Hscan; simpl in Hcon;
    [| |done].
  - destruct (solutionPath _ _ _) as [path|] eqn:Hpath; simpl in Hcon; [|done].
    simplify_eq. apply connectScan_found in Hscan as [_ Hlt].
    split; [done|]. by exists path.
  - by simplify_eq.
Qed.

Lemma insertRoot_frame s st p p' :
  insertRoot s st p = Some p' →
  solutionPaths p' = solutionPaths p
  ∧ connectionPoint_ p' = connectionPoint_ p
  ∧ maxDistance_ p' = maxDistance_ p
  ∧ nbrhoodRadius_ p' = nbrhoodRadius_ p
  ∧ treeOf (otherSide s) p' = treeOf (otherSide s) p.
Proof.
  unfold insertRoot. intros Hins.
  destruct (addMotion _ _ _ _ _) as [t|]; simplify_eq/=. by destruct s.
Qed.

Lemma replenish_frame p w p' w' :
  replenish p w = Some (p', w') →
  solutionPaths p' = solutionPaths p
  ∧ connectionPoint_ p' = connectionPoint_ p
  ∧ maxDistance_ p' = maxDistance_ p
  ∧ nbrhoodRadius_ p' = nbrhoodRadius_ p
  ∧ treeOf StartSide p' = treeOf StartSide p.
Proof.
  unfold replenish. intros Hrep.
  destruct (_ || _); [|by simplify_eq].
  destruct (nextGoal _ w) as [[st|] w0]; [|by simplify_eq].
  destruct (insertRoot GoalSide st p) as [p0|] eqn:Hins; simplify_eq/=.
  by apply insertRoot_frame in Hins.
Qed.

Lemma solutionPaths_setTree sd (t : Tree State) p :
  solutionPaths (setTree sd t p) = solutionPaths p.
Proof. by destruct sd. Qed.

Lemma head_reverse_app {A} (l k : list A) x :
  last l = Some x → head (reverse l ++ k) = Some x.
Proof. intros Hl. by rewrite head_app, head_reverse, Hl. Qed.

Lemma last_app_r {A} (l k : list A) x :
  last k = Some x → last (l ++ k) = Some x.
Proof. intros Hk. by rewrite last_app, Hk. Qed.

(** C4. When an iteration finds a solution, the path it hands over is
    the reversed walk up the parents from the start-side bridging node
    followed by the walk up the parents from the goal-side bridging
    node. Each walk ends at a root of its tree, so the path begins with
    the state of a root of the start tree and ends with the state of a
    root of the goal tree, and its length is the sum of the lengths of
    the two walks. *)
Theorem solution_path_shape (s s' : LoopState State W) side m n :
  wfPlanner (planner s) →
  iteration s = Some (Connected side m n, s') →
  let p' := planner s' in
  let startMotion := match side with StartSide => m | GoalSide => n end in
  let goalMotion := match side with StartSide => n | GoalSide => m end in
  ∃ c1 c2 r1 r2 path,
    isChain (startMotions_ p') (Some startMotion) c1
    ∧ isChain (goalMotions_ p') (Some goalMotion) c2
    ∧ path = reverse (state <$> c1) ++ (state <$> c2)
    ∧ solutionPaths p' = solutionPaths (planner s) ++ [path]
    ∧ last c1 = Some r1 ∧ parent r1 = None ∧ r1 ∈ startMotions_ p'
    ∧ last c2 = Some r2 ∧ parent r2 = None ∧ r2 ∈ goalMotions_ p'
    ∧ head path = Some (state r1)
    ∧ last path = Some (state r2)
    ∧ length path = length c1 + length c2.
Proof.
  intros Hwf Hit p' startMotion goalMotion.
  apply iteration_inv in Hit as (p & w & Hrep & Hcase). simpl in Hcase.
  destruct Hcase as (-> & Hgoal & existing & em & x & w2 & w3 & t & seen & p0
                     & Hpick & Hrej & Hcm & -> & Hadd & Hcon & ->).
  set (side := sideOf (startTree s)) in *. simpl in p'. subst p'.
  destruct (replenish_wf _ (world s) Hwf) as (p1 & w1 & Hrep1 & Hwfp & _).
  rewrite Hrep in Hrep1. injection Hrep1 as <- <-.
  apply replenish_frame in Hrep as (Hsol & _).
  (* the insertion keeps the invariant *)
  destruct (neighbors_valid side p x (nbrhoodRadius_ p) Hwfp) as [Hnd Hlt].
  pose proof (wfPlanner_tree side p Hwfp) as Ht. rewrite treeOf_eta in Ht.
  destruct (addMotion_wf (mkMotion x (Some existing) (root em) None)
              _ _ _ _ Ht Hnd Hlt) as (t' & Hadd' & Hms & Ht').
  { intros q [= <-]. apply pickCandidate_existing in Hpick.
    by eapply lookup_lt_Some. }
  rewrite Hadd in Hadd'. injection Hadd' as <-.
  set (p1 := setTree side t p) in *.
  assert (Hwf1 : wfPlanner p1).
  { apply setTree_wf; [done..|]. rewrite Hms, length_app. lia. }
  assert (Hm : length (motionsOf side p) < length (motionsOf side p1)).
  { unfold p1. rewrite motionsOf_setTree_same, Hms, length_app. simpl. lia. }
  apply connect_inv in Hcon as (Hn & path & Hpath & ->).
  destruct (solutionPath_wf p1 startMotion goalMotion Hwf1)
    as (m1 & c1 & m2 & c2 & Hc1 & Hc2 & _ & _ & Hpath').
  { unfold startMotion. by destruct side. }
  { unfold goalMotion. by destruct side. }
  unfold startMotion, goalMotion in Hpath'. rewrite Hpath in Hpath'.
  injection Hpath' as ->.
  apply parentChain_isChain in Hc1, Hc2.
  destruct (isChain_last _ _ _ _ Hc1) as (r1 & Hl1 & Hroot1 & Hin1).
  destruct (isChain_last _ _ _ _ Hc2) as (r2 & Hl2 & Hroot2 & Hin2).
  exists (m1 :: c1), (m2 :: c2), r1, r2,
    (reverse (state <$> m1 :: c1) ++ (state <$> m2 :: c2)).
  split; [exact Hc1|]. split; [exact Hc2|]. split; [reflexivity|].
  split.
  { unfold recordSolution, p1. simpl. by rewrite solutionPaths_setTree, Hsol. }
  split; [done|]. split; [done|]. split; [exact Hin1|].
  split; [done|]. split; [done|]. split; [exact Hin2|].
  split. { apply head_reverse_app. by rewrite fmap_last, Hl1. }
  split. { apply last_app_r. by rewrite fmap_last, Hl2. }
  by rewrite length_app, length_reverse, !length_fmap.
Qed.

(** ** The run of the main loop *)

Lemma mainLoop_inv fuel (s sf : LoopState State W) os :
  mainLoop fuel s = Finished (sf, os) →
  let s0 := mkLoop (planner s) (ptc (world s)).2 (startTree s) (solved s) in
  ((ptc (world s)).1 || solved s = true ∧ sf = s0 ∧ os = [])
  ∨ ((ptc (world s)).1 || solved s = false
     ∧ ∃ fuel' o s',
         fuel = S fuel' ∧ iteration s0 = Some (o, s')
         ∧ ((o = GoalTreeEmpty ∧ sf = s' ∧ os = [o])
            ∨ (o ≠ GoalTreeEmpty
               ∧ ∃ os', mainLoop fuel' s' = Finished (sf, os')
                        ∧ os = o :: os'))).
Proof.
  intros Hloop s0. subst s0.
  destruct fuel as [|fuel']; simpl in Hloop;
    destruct (ptc (world s)) as [stop w]; simpl in *;
    destruct (stop || solved s); simplify_eq; auto.
  right. split; [done|].
  destruct (iteration _) as [[o s']|] eqn:Hit; [|done].
  exists fuel', o, s'. split; [done|]. split; [done|].
  destruct (mainLoop fuel' s') as [[sf' os']| |] eqn:Hrest;
    destruct o; simplify_eq; eauto 8.
Qed.

Lemma iteration_side (s s' : LoopState State W) o :
  iteration s = Some (o, s') →
  (∀ sd, expandedSide o = Some sd → sd = sideOf (startTree s))
  ∧ startTree s' = (if reachesFlip o then negb (startTree s) else startTree s)
  ∧ solved s' = solved s || isConnected o.
Proof.
  intros Hit. apply iteration_inv in Hit as (p & w & _ & Hcase).
  destruct o; simpl in *.
  - destruct Hcase as (_ & ->). simpl. by rewrite orb_false_r.
  - destruct Hcase as (-> & _ & ? & ? & ? & _ & ->). simpl.
    rewrite orb_false_r. split; [by intros ? [= <-]|done].
  - destruct Hcase as (-> & _ & ? & ? & ? & ? & ? & _ & _ & ->). simpl.
    rewrite orb_false_r. split; [by intros ? [= <-]|done].
  - destruct Hcase as (-> & _ & ? & ? & ? & ? & ? & _ & _ & _ & ->). simpl.
    rewrite orb_false_r. split; [by intros ? [= <-]|done].
  - destruct Hcase as (-> & _ & ? & ? & ? & ? & ? & ? & ? & ? & _ & _ & _ & _
                       & _ & _ & ->). simpl.
    rewrite orb_false_r. split; [by intros ? [= <-]|done].
  - destruct Hcase as (-> & _ & ? & ? & ? & ? & ? & ? & ? & ? & _ & _ & _ & _
                       & _ & _ & ->). simpl.
    rewrite orb_true_r. split; [by intros ? [= <-]|done].
Qed.

Lemma sideOf_negb b : sideOf (negb b) = otherSide (sideOf b).
Proof. by destruct b. Qed.

Lemma mainLoop_sides fuel : ∀ (s sf : LoopState State W) os,
  mainLoop fuel s = Finished (sf, os) →
  (∀ o sd, head os = Some o → expandedSide o = Some sd →
     sd = sideOf (startTree s))
  ∧ (∀ i o o' sd sd',
       os !! i = Some o → os !! S i = Some o' →
       expandedSide o = Some sd → expandedSide o' = Some sd' →
       sd' = if reachesFlip o then otherSide sd else sd)
  ∧ alternatesFrom (sideOf (startTree s))
      (omap expandedSide (filter reachesFlip os)).
Proof.
  induction fuel as [|fuel IH]; intros s sf os Hloop;
    apply mainLoop_inv in Hloop
      as [(_ & _ & ->)|(_ & fuel' & o & s' & Hfuel & Hit & Hrest)];
    try done; try (by repeat split; intros; simplify_eq/=).
  injection Hfuel as <-.
  apply iteration_side in Hit as (Hside & Hflip & _). simpl in *.
  destruct Hrest as [(-> & _ & ->)|(Hne & os' & Hloop' & ->)].
  { repeat split; intros; simplify_eq/=. }
  destruct (IH _ _ _ Hloop') as (Hhead & Hpairs & Halt).
  split; [|split].
  - intros o0 sd [= <-]. apply Hside.
  - intros [|i] o1 o2 sd sd' Ho1 Ho2 Hsd Hsd'; simpl in *.
    + simplify_eq. rewrite (Hside _ Hsd).
      rewrite (Hhead o2 sd'); [|by rewrite head_lookup|done].
      rewrite Hflip. destruct (reachesFlip o1); [apply sideOf_negb|done].
    + by eapply Hpairs.
  - rewrite filter_cons. rewrite Hflip in Halt. case_decide as Hd.
    + destruct (reachesFlip o) eqn:Hr; [|done].
      destruct (expandedSide o) as [sd|] eqn:Hsd; [|by destruct o].
      simpl. rewrite Hsd. simpl.
      split; [by apply Hside|]. by rewrite <- sideOf_negb.
    + destruct (reachesFlip o); [by destruct Hd|done].
Qed.

(** ** solve *)

Lemma solve_enters fuel p w p1 w1 :
  entersLoop p w p1 w1 →
  solve fuel p w
  = match mainLoop fuel (mkLoop p1 w1 true false) with
    | Finished (s, os) =>
        Finished (mkSolved (if solved s then EXACT_SOLUTION else TIMEOUT)
                    (planner s) (world s) os)
    | OutOfFuel => OutOfFuel
    | Aborted => Aborted
    end.
Proof.
  intros (Hg & Hst & Hseed & Hne & Hc). unfold solve. rewrite Hg. simpl.
  rewrite Hst, Hseed.
  destruct (length (startMotions_ p1) =? 0) eqn:Hlen.
  { by apply length_zero_iff in Hlen. }
  by rewrite Hc.
Qed.

Lemma solve_inv fuel p w r :
  solve fuel p w = Finished r →
  outcomes r = []
  ∨ ∃ p1 w1 sf,
      entersLoop p w p1 w1
      ∧ mainLoop fuel (mkLoop p1 w1 true false) = Finished (sf, outcomes r)
      ∧ r = mkSolved (if solved sf then EXACT_SOLUTION else TIMEOUT)
              (planner sf) (world sf) (outcomes r).
Proof.
  unfold solve. intros Hsolve.
  destruct (goalIsSampleable w) eqn:Hg; simpl in Hsolve;
    [|left; by simplify_eq].
  destruct (nextStarts w) as [sts w1] eqn:Hst.
  destruct (seedStarts sts (checkValidity p)) as [p1|] eqn:Hseed; [|done].
  destruct (length (startMotions_ p1) =? 0) eqn:Hlen; [left; by simplify_eq|].
  destruct (couldSample w1) eqn:Hc; simpl in Hsolve; [|left; by simplify_eq].
  destruct (mainLoop fuel _) as [[sf os]| |] eqn:Hloop; [|done..].
  right. exists p1, w1, sf. simplify_eq. simpl. split; [|done].
  repeat split; try done; rewrite ?Hst; try done.
  intros Hnil. apply length_zero_iff in Hnil. congruence.
Qed.
(** C5, as the code has it. The side to expand is toggled by exactly
    the iterations that reach line 265 (those that got to the motion
    check); an iteration left by the [continue] of line 196 or of line
    207 is followed by an iteration on the same side. So, in any run of
    [solve]: the first iteration is on the start side; of two
    iterations in a row, the second is on the other side when the first
    reached the toggle and on the same side when it did not; and the
    sides of the iterations that reached the toggle alternate,
    beginning with the start side. *)
Theorem solve_sides fuel p w r :
  solve fuel p w = Finished r →
  (∀ o sd, head (outcomes r) = Some o → expandedSide o = Some sd →
     sd = StartSide)
  ∧ (∀ i o o' sd sd',
       outcomes r !! i = Some o → outcomes r !! S i = Some o' →
       expandedSide o = Some sd → expandedSide o' = Some sd' →
       sd' = if reachesFlip o then otherSide sd else sd)
  ∧ alternatesFrom StartSide (omap expandedSide (filter reachesFlip (outcomes r))).
Proof.
  intros Hsolve.
  apply solve_inv in Hsolve as [->|(p1 & w1 & sf & _ & Hloop & _)].
  { repeat split; intros; simplify_eq/=. }
  by apply mainLoop_sides in Hloop.
Qed.

(** C6, as the code has it. [solve] makes its three checks before the
    loop, in this order, and a failed check ends the call with its
    status, whatever the fuel of the loop, with no iteration made, no
    random number drawn and the termination condition never evaluated:
    a goal that is not sampleable gives UNRECOGNIZED_GOAL_TYPE, whatever
    the start states; with a sampleable goal, a start tree that is empty
    once the input start states are inserted gives INVALID_START (so it
    is when the input yields no valid start state and the planner holds
    none); with a sampleable goal and a start tree that is not empty, a
    goal that cannot be sampled gives INVALID_GOAL. *)
Theorem solve_configuration_errors fuel p w :
  let p0 := checkValidity p in
  let sts := (nextStarts w).1 in
  let w1 := (nextStarts w).2 in
  (goalIsSampleable w = false →
     solve fuel p w = Finished (mkSolved UNRECOGNIZED_GOAL_TYPE p0 w []))
  ∧ (goalIsSampleable w = true →
     ∀ p1, seedStarts sts p0 = Some p1 → startMotions_ p1 = [] →
       solve fuel p w = Finished (mkSolved INVALID_START p1 w1 []))
  ∧ (goalIsSampleable w = true → sts = [] → startMotions_ p = [] →
       solve fuel p w = Finished (mkSolved INVALID_START p0 w1 []))
  ∧ (goalIsSampleable w = true →
     ∀ p1, seedStarts sts p0 = Some p1 → startMotions_ p1 ≠ [] →
       couldSample w1 = false →
       solve fuel p w = Finished (mkSolved INVALID_GOAL p1 w1 [])).
Proof.
  intros p0 sts w1. subst p0 sts w1. unfold solve.
  destruct (nextStarts w) as [sts w1]. simpl.
  split; [by intros ->|].
  split.
  { intros -> p1 -> Hnil. simpl. by rewrite Hnil. }
  split.
  { intros -> -> Hnil. simpl.
    assert (Hnil' : startMotions_ (checkValidity p) = []).
    { unfold checkValidity, setup.
      destruct (setup_ p); [done|]. by destruct (PrimFloat.ltb _ _). }
    by rewrite Hnil'. }
  intros -> p1 -> Hne Hc. simpl.
  destruct (length (startMotions_ p1) =? 0) eqn:Hlen.
  { by apply length_zero_iff in Hlen. }
  by rewrite Hc.
Qed.

(** ** The status of a run that enters the loop *)

Lemma elem_of_Connected_cons o os :
  isConnected o = false →
  (∃ sd m n, Connected sd m n ∈ o :: os) ↔ (∃ sd m n, Connected sd m n ∈ os).
Proof.
  intros Ho. split; intros (sd & m & n & Hin); exists sd, m, n.
  - apply elem_of_cons in Hin as [<-|Hin]; [done|done].
  - by apply list_elem_of_further.
Qed.

Lemma mainLoop_solved_iff fuel : ∀ (s sf : LoopState State W) os,
  mainLoop fuel s = Finished (sf, os) →
  solved s = false →
  (solved sf = true ↔ ∃ sd m n, Connected sd m n ∈ os).
Proof.
  induction fuel as [|fuel IH]; intros s sf os Hloop Hs;
    apply mainLoop_inv in Hloop
      as [(_ & -> & ->)|(_ & fuel' & o & s' & Hfuel & Hit & Hrest)];
    try done.
  - simpl. rewrite Hs. split; [done|]. intros (? & ? & ? & Hin).
    by apply elem_of_nil in Hin.
  - simpl. rewrite Hs. split; [done|]. intros (? & ? & ? & Hin).
    by apply elem_of_nil in Hin.
  - injection Hfuel as <-.
    apply iteration_side in Hit as (_ & _ & Hsolved). simpl in Hsolved.
    rewrite Hs in Hsolved. simpl in Hsolved.
    destruct Hrest as [(-> & -> & ->)|(Hne & os' & Hloop' & ->)].
    { rewrite Hsolved. simpl. split; [done|]. intros (? & ? & ? & Hin).
      apply list_elem_of_singleton in Hin. done. }
    destruct (isConnected o) eqn:Hcon.
    + rewrite mainLoop_solved in Hloop' by done. simplify_eq. simpl.
      split; [|done]. intros _. destruct o; try done.
      eexists _, _, _. apply list_elem_of_here.
    + rewrite elem_of_Connected_cons by done. by eapply IH.
Qed.

Lemma mainLoop_OutOfFuel fuel : ∀ s : LoopState State W,
  mainLoop fuel s = OutOfFuel → Runs fuel s.
Proof.
  induction fuel as [|fuel IH]; intros s Hloop; simpl in *;
    destruct (ptc (world s)) as [stop w]; simpl in *;
    destruct (stop || solved s) eqn:Hstop; try done.
  split; [done|].
  destruct (iteration _) as [[o s']|] eqn:Hit; [|done].
  exists o, s'. split; [done|].
  destruct (mainLoop fuel s') as [[sf os]| |] eqn:Hrest.
  - by destruct o.
  - split; [by destruct o|]. by apply IH.
  - by destruct o.
Qed.

(** ** The neighborhood radius *)

Lemma applyOp_radiusDerived p op :
  radiusDerived p → radiusDerived (applyOp p op).
Proof.
  unfold radiusDerived. intros Hp. destruct op as [d| |]; simpl.
  - done.
  - unfold setup. destruct (PrimFloat.ltb (maxDistance_ p) minRange) eqn:Hlt;
      simpl; [done|].
    intros _. apply Hp. by rewrite orb_true_r.
  - done.
Qed.

Lemma configured_radiusDerived junk ops : radiusDerived (configured junk ops).
Proof.
  unfold configured. induction ops as [|op ops IH] using rev_ind.
  - unfold radiusDerived. simpl. done.
  - rewrite foldl_snoc. by apply applyOp_radiusDerived.
Qed.

(** C9. Whatever was done to the planner since its construction
    (ranges set, earlier setups, clears), once [setup] has run, the
    neighborhood radius is the range divided by 3, the range being the
    self-configured one when the range in place is below 1e-3 and the
    one set otherwise. The same holds after the [checkValidity] that
    opens [solve]. *)
Theorem setup_radius junk ops :
  let p := setup (configured junk ops) in
  let p' := checkValidity (configured junk ops) in
  nbrhoodRadius_ p = (maxDistance_ p / 3)%float
  ∧ nbrhoodRadius_ p' = (maxDistance_ p' / 3)%float
  ∧ maxDistance_ p
    = (if PrimFloat.ltb (maxDistance_ (configured junk ops)) minRange
       then configurePlannerRange (maxDistance_ (configured junk ops))
       else maxDistance_ (configured junk ops)).
Proof.
  intros p p'.
  pose proof (configured_radiusDerived junk (ops ++ [Setup])) as Hp.
  unfold configured in Hp. rewrite foldl_snoc in Hp. simpl in Hp.
  fold (configured junk ops) in Hp.
  assert (Hset : setup_ (setup (configured junk ops)) = true).
  { unfold setup. by destruct (PrimFloat.ltb _ _). }
  split; [|split].
  - apply Hp. by rewrite Hset.
  - subst p'. unfold checkValidity.
    destruct (setup_ (configured junk ops)) eqn:Hs.
    + apply configured_radiusDerived. by rewrite Hs.
    + apply Hp. by rewrite Hset.
  - subst p. unfold setup. by destruct (PrimFloat.ltb _ _).
Qed.

(** ** Abandoned iterations *)

Lemma replenish_cases p w p' w' :
  replenish p w = Some (p', w') →
  p' = p
  ∨ ∃ st,
      (length (goalMotions_ p) =? 0)
      || (getSampledGoalsCount w <? length (goalMotions_ p) / 2) = true
      ∧ nextGoal (length (goalMotions_ p) =? 0) w = (Some st, w')
      ∧ insertRoot GoalSide st p = Some p'.
Proof.
  unfold replenish. intros Hrep.
  destruct (_ || _) eqn:Hdue; [|left; by simplify_eq].
  destruct (nextGoal _ w) as [[st|] w0] eqn:Hnext; [|left; by simplify_eq].
  destruct (insertRoot GoalSide st p) as [p0|] eqn:Hins; simplify_eq/=.
  right. by exists st.
Qed.

(** C10, as the code has it. An iteration given up before the
    insertion (because [sampleNear] fails, the density draw rejects, or
    the motion from the seed is invalid) leaves the planner as the
    goal-tree replenishment of lines 165-176, which opens the iteration,
    made it: nothing below line 186 touches it. So the start tree, the
    connection point and the solution paths are as before the iteration,
    and the whole planner is as before the iteration unless the
    replenishment was due and [nextGoal] yielded a state, which is then
    the one motion the goal tree has gained. *)
Theorem abandoned_iteration_frame (s s' : LoopState State W) o :
  iteration s = Some (o, s') →
  abandoned o = true →
  (∃ w, replenish (planner s) (world s) = Some (planner s', w))
  ∧ treeOf StartSide (planner s') = treeOf StartSide (planner s)
  ∧ connectionPoint_ (planner s') = connectionPoint_ (planner s)
  ∧ solutionPaths (planner s') = solutionPaths (planner s)
  ∧ (planner s' = planner s
     ∨ ∃ st w',
         (length (goalMotions_ (planner s)) =? 0)
         || (getSampledGoalsCount (world s)
             <? length (goalMotions_ (planner s)) / 2) = true
         ∧ nextGoal (length (goalMotions_ (planner s)) =? 0) (world s)
           = (Some st, w')
         ∧ insertRoot GoalSide st (planner s) = Some (planner s')).
Proof.
  intros Hit Hab. apply iteration_inv in Hit as (p & w & Hrep & Hcase).
  assert (Hp : planner s' = p).
  { destruct o; simpl in *; try done.
    - by destruct Hcase as (_ & _ & ? & ? & ? & _ & ->).
    - by destruct Hcase as (_ & _ & ? & ? & ? & ? & ? & _ & _ & ->).
    - by destruct Hcase as (_ & _ & ? & ? & ? & ? & ? & _ & _ & _ & ->). }
  rewrite Hp.
  destruct (replenish_frame _ _ _ _ Hrep) as (Hsol & Hcp & _ & _ & Hstart).
  split; [by exists w|]. split; [done|]. split; [done|]. split; [done|].
  destruct (replenish_cases _ _ _ _ Hrep) as [->|(st & Hdue & Hnext & Hins)];
    [by left|].
  right. by exists st, w.
Qed.

(** ** The exported graph *)

Lemma list_find_fst_NoDup (l : list (StatePtr * nat)) i st tag :
  NoDup l.*1 → l !! i = Some (st, tag) →
  list_find (λ v, v.1 = st) l = Some (i, (st, tag)).
Proof.
  intros Hnd Hi. apply list_find_Some. split; [done|]. split; [done|].
  intros j [st' tag'] Hj Hlt Heq. simpl in Heq. subst st'.
  assert (i = j); [|lia].
  eapply NoDup_lookup; [exact Hnd| |];
    rewrite list_lookup_fmap; [by rewrite Hi|by rewrite Hj].
Qed.

Lemma list_find_fst_None (l : list (StatePtr * nat)) st :
  st ∉ l.*1 → list_find (λ v, v.1 = st) l = None.
Proof.
  intros Hnot. apply list_find_None, Forall_forall. intros [st' tag] Hin Heq.
  simpl in Heq. subst st'. apply Hnot.
  apply list_elem_of_fmap. by exists (st, tag).
Qed.

Lemma allVerts_fst ns ng :
  (allVerts ns ng).*1
  = (StateOf StartSide <$> seq 0 ns) ++ (StateOf GoalSide <$> seq 0 ng).
Proof.
  unfold allVerts, startVerts, goalVerts.
  by rewrite fmap_app, <- !list_fmap_compose.
Qed.

Lemma allVerts_NoDup ns ng : NoDup (allVerts ns ng).*1.
Proof.
  rewrite allVerts_fst. apply NoDup_app. split; [|split].
  - apply NoDup_fmap_2; [by intros ?? [= ->]|apply NoDup_seq].
  - intros st Hs Hg. apply list_elem_of_fmap in Hs as (i & -> & _).
    apply list_elem_of_fmap in Hg as (j & Hj & _). done.
  - apply NoDup_fmap_2; [by intros ?? [= ->]|apply NoDup_seq].
Qed.

Lemma allVerts_length ns ng : length (allVerts ns ng) = ns + ng.
Proof.
  unfold allVerts, startVerts, goalVerts.
  by rewrite length_app, !length_fmap, !length_seq.
Qed.

Lemma allVerts_lookup_start ns ng i :
  i < ns → allVerts ns ng !! i = Some (StateOf StartSide i, 1).
Proof.
  intros Hi. unfold allVerts, startVerts.
  rewrite lookup_app_l by (by rewrite length_fmap, length_seq).
  by rewrite list_lookup_fmap, lookup_seq_lt.
Qed.

Lemma allVerts_lookup_goal ns ng j :
  j < ng → allVerts ns ng !! (ns + j) = Some (StateOf GoalSide j, 2).
Proof.
  intros Hj. unfold allVerts, startVerts, goalVerts.
  rewrite lookup_app_r by (rewrite length_fmap, length_seq; lia).
  rewrite length_fmap, length_seq.
  replace (ns + j - ns) with j by lia.
  by rewrite list_lookup_fmap, lookup_seq_lt.
Qed.

Lemma vertexIndex_start d ns ng i :
  PlannerData.vertices d = allVerts ns ng →
  PlannerData.vertexIndex d (Some (StateOf StartSide i))
  = if decide (i < ns) then Some i else None.
Proof.
  intros Hv. unfold PlannerData.vertexIndex. simpl. rewrite Hv.
  case_decide as Hi.
  - by rewrite (list_find_fst_NoDup _ i _ 1 (allVerts_NoDup ns ng)
                  (allVerts_lookup_start ns ng i Hi)).
  - rewrite list_find_fst_None; [done|]. rewrite allVerts_fst.
    intros Hin. apply elem_of_app in Hin as [Hin|Hin];
      apply list_elem_of_fmap in Hin as (k & Hk & Hin); simplify_eq.
    apply elem_of_seq in Hin. lia.
Qed.

Lemma vertexIndex_goal d ns ng j :
  PlannerData.vertices d = allVerts ns ng →
  PlannerData.vertexIndex d (Some (StateOf GoalSide j))
  = if decide (j < ng) then Some (ns + j) else None.
Proof.
  intros Hv. unfold PlannerData.vertexIndex. simpl. rewrite Hv.
  case_decide as Hj.
  - by rewrite (list_find_fst_NoDup _ (ns + j) _ 2 (allVerts_NoDup ns ng)
                  (allVerts_lookup_goal ns ng j Hj)).
  - rewrite list_find_fst_None; [done|]. rewrite allVerts_fst.
    intros Hin. apply elem_of_app in Hin as [Hin|Hin];
      apply list_elem_of_fmap in Hin as (k & Hk & Hin); simplify_eq.
    apply elem_of_seq in Hin. lia.
Qed.

Lemma allVerts_snoc_start ns :
  allVerts ns 0 ++ [(StateOf StartSide ns, 1)] = allVerts (S ns) 0.
Proof.
  unfold allVerts, startVerts, goalVerts.
  rewrite seq_S, fmap_app. simpl. by rewrite !app_nil_r.
Qed.

Lemma allVerts_snoc_goal ns ng :
  allVerts ns ng ++ [(StateOf GoalSide ng, 2)] = allVerts ns (S ng).
Proof.
  unfold allVerts, startVerts, goalVerts.
  by rewrite seq_S, fmap_app, app_assoc.
Qed.

Lemma indexed_snoc {A} (l : list A) x :
  indexed (l ++ [x]) = indexed l ++ [(length l, x)].
Proof. unfold indexed. rewrite imap_app. simpl. by rewrite Nat.add_0_r. Qed.

Lemma startEdges_snoc motions m :
  startEdges (motions ++ [m])
  = startEdges motions
    ++ match parent m with Some q => [(q, length motions)] | None => [] end.
Proof.
  unfold startEdges. rewrite indexed_snoc, omap_app. simpl.
  by destruct (parent m).
Qed.

Lemma goalEdges_snoc ns motions m :
  goalEdges ns (motions ++ [m])
  = goalEdges ns motions
    ++ match parent m with
       | Some q => [(ns + length motions, ns + q)]
       | None => []
       end.
Proof.
  unfold goalEdges. rewrite indexed_snoc, omap_app. simpl.
  by destruct (parent m).
Qed.

Lemma elem_of_startEdges motions a b :
  (a, b) ∈ startEdges motions ↔ ∃ m, motions !! b = Some m ∧ parent m = Some a.
Proof.
  unfold startEdges, indexed. rewrite list_elem_of_omap. split.
  - intros ([i m] & Hin & Hpar). apply elem_of_lookup_imap in Hin
      as (i' & m' & [= -> ->] & Hm). simpl in Hpar.
    destruct (parent m') as [q|] eqn:Hq; simplify_eq/=. by exists m'.
  - intros (m & Hm & Hpar). exists (b, m). split.
    + apply elem_of_lookup_imap. by exists b, m.
    + simpl. by rewrite Hpar.
Qed.

Lemma elem_of_goalEdges ns motions a b :
  (a, b) ∈ goalEdges ns motions
  ↔ ∃ j q m, a = ns + j ∧ b = ns + q ∧ motions !! j = Some m
             ∧ parent m = Some q.
Proof.
  unfold goalEdges, indexed. rewrite list_elem_of_omap. split.
  - intros ([i m] & Hin & Hpar). apply elem_of_lookup_imap in Hin
      as (i' & m' & [= -> ->] & Hm). simpl in Hpar.
    destruct (parent m') as [q|] eqn:Hq; simplify_eq/=. by exists i', q, m'.
  - intros (j & q & m & -> & -> & Hm & Hpar). exists (j, m). split.
    + apply elem_of_lookup_imap. by exists j, m.
    + simpl. by rewrite Hpar.
Qed.

#[local] Arguments PlannerData.vertexIndex : simpl never.

Lemma addVertex_new d st tag :
  PlannerData.vertexIndex d (Some st) = None →
  PlannerData.addVertex d (Some st, tag)
  = (PlannerData.mk (PlannerData.vertices d ++ [(st, tag)])
       (PlannerData.edges d) (PlannerData.startVertices d)
       (PlannerData.goalVertices d),
     Some (PlannerData.numVertices d)).
Proof. intros Hv. unfold PlannerData.addVertex. simpl. by rewrite Hv. Qed.

Lemma addVertex_old d st tag i :
  PlannerData.vertexIndex d (Some st) = Some i →
  PlannerData.addVertex d (Some st, tag) = (d, Some i).
Proof. intros Hv. unfold PlannerData.addVertex. simpl. by rewrite Hv. Qed.

Lemma addEdgeAt_new d v1 v2 :
  v1 < PlannerData.numVertices d → v2 < PlannerData.numVertices d →
  (v1, v2) ∉ PlannerData.edges d →
  PlannerData.addEdgeAt d (Some v1) (Some v2)
  = PlannerData.mk (PlannerData.vertices d) (PlannerData.edges d ++ [(v1, v2)])
      (PlannerData.startVertices d) (PlannerData.goalVertices d).
Proof.
  intros H1 H2 Hnot. unfold PlannerData.addEdgeAt, PlannerData.edgeExists.
  apply Nat.ltb_lt in H1, H2. rewrite H1, H2. simpl.
  by rewrite bool_decide_eq_false_2.
Qed.

Lemma exportStart_step d motions m :
  (∀ q, parent m = Some q → q < length motions) →
  PlannerData.vertices d = allVerts (length motions) 0 →
  PlannerData.edges d = startEdges motions →
  PlannerData.vertices (exportStart d (length motions, m))
    = allVerts (S (length motions)) 0
  ∧ PlannerData.edges (exportStart d (length motions, m))
    = startEdges (motions ++ [m]).
Proof.
  intros Hpar Hv He. unfold exportStart. simpl.
  rewrite startEdges_snoc.
  pose proof (vertexIndex_start d _ _ (length motions) Hv) as Hnew.
  rewrite decide_False in Hnew by lia.
  destruct (parent m) as [q|] eqn:Hq.
  - specialize (Hpar q eq_refl).
    pose proof (vertexIndex_start d _ _ q Hv) as Hold.
    rewrite decide_True in Hold by done.
    unfold PlannerData.addEdge.
    rewrite (addVertex_old _ _ _ _ Hold), (addVertex_new _ _ _ Hnew).
    assert (Hn : PlannerData.numVertices d = length motions).
    { unfold PlannerData.numVertices. rewrite Hv, allVerts_length. lia. }
    rewrite Hn. rewrite addEdgeAt_new; simpl.
    + by rewrite Hv, He, allVerts_snoc_start.
    + unfold PlannerData.numVertices. simpl.
      rewrite length_app, Hv, allVerts_length. simpl. lia.
    + unfold PlannerData.numVertices. simpl.
      rewrite length_app, Hv, allVerts_length. simpl. lia.
    + rewrite He. intros Hin. apply elem_of_startEdges in Hin as (m' & Hm' & _).
      apply lookup_lt_Some in Hm'. lia.
  - unfold PlannerData.addStartVertex. rewrite (addVertex_new _ _ _ Hnew).
    simpl. by rewrite Hv, He, allVerts_snoc_start, app_nil_r.
Qed.

Lemma exportGoal_step d ns motions m E :
  (∀ q, parent m = Some q → q < length motions) →
  PlannerData.vertices d = allVerts ns (length motions) →
  PlannerData.edges d = E ++ goalEdges ns motions →
  (∀ a b, (a, b) ∈ E → a < ns) →
  PlannerData.vertices (exportGoal d (length motions, m))
    = allVerts ns (S (length motions))
  ∧ PlannerData.edges (exportGoal d (length motions, m))
    = E ++ goalEdges ns (motions ++ [m]).
Proof.
  intros Hpar Hv He HE. unfold exportGoal. simpl.
  rewrite goalEdges_snoc.
  pose proof (vertexIndex_goal d _ _ (length motions) Hv) as Hnew.
  rewrite decide_False in Hnew by lia.
  destruct (parent m) as [q|] eqn:Hq.
  - specialize (Hpar q eq_refl).
    unfold PlannerData.addEdge. rewrite (addVertex_new _ _ _ Hnew).
    set (d1 := PlannerData.mk _ _ _ _).
    assert (Hv1 : PlannerData.vertices d1 = allVerts ns (S (length motions))).
    { simpl. by rewrite Hv, allVerts_snoc_goal. }
    pose proof (vertexIndex_goal d1 _ _ q Hv1) as Hold.
    rewrite decide_True in Hold by lia.
    rewrite (addVertex_old _ _ _ _ Hold).
    unfold PlannerData.numVertices. rewrite Hv, allVerts_length.
    rewrite addEdgeAt_new.
    + simpl. by rewrite Hv, He, allVerts_snoc_goal, app_assoc.
    + unfold PlannerData.numVertices. rewrite Hv1, allVerts_length. lia.
    + unfold PlannerData.numVertices. rewrite Hv1, allVerts_length. lia.
    + simpl. rewrite He. intros Hin. apply elem_of_app in Hin as [Hin|Hin].
      * apply HE in Hin. lia.
      * apply elem_of_goalEdges in Hin as (j & q' & m' & Hj & _ & Hm' & _).
        apply lookup_lt_Some in Hm'. lia.
  - unfold PlannerData.addGoalVertex. rewrite (addVertex_new _ _ _ Hnew).
    simpl. by rewrite Hv, He, allVerts_snoc_goal, app_nil_r.
Qed.

Lemma exportStart_fold motions :
  (∀ i m, motions !! i = Some m → ∀ q, parent m = Some q → q < i) →
  PlannerData.vertices (foldl exportStart PlannerData.empty (indexed motions))
    = allVerts (length motions) 0
  ∧ PlannerData.edges (foldl exportStart PlannerData.empty (indexed motions))
    = startEdges motions.
Proof.
  induction motions as [|m motions IH] using rev_ind; intros Hpar; [done|].
  rewrite indexed_snoc, foldl_snoc, length_app. simpl.
  rewrite Nat.add_1_r.
  destruct IH as [Hv He].
  { intros i m' Hm'. apply (Hpar i m'). by apply lookup_app_l_Some. }
  apply exportStart_step; [|done..].
  apply (Hpar (length motions) m).
  by rewrite lookup_app_r, Nat.sub_diag.
Qed.

Lemma exportGoal_fold d0 ns motions :
  (∀ i m, motions !! i = Some m → ∀ q, parent m = Some q → q < i) →
  PlannerData.vertices d0 = allVerts ns 0 →
  (∀ a b, (a, b) ∈ PlannerData.edges d0 → a < ns) →
  PlannerData.vertices (foldl exportGoal d0 (indexed motions))
    = allVerts ns (length motions)
  ∧ PlannerData.edges (foldl exportGoal d0 (indexed motions))
    = PlannerData.edges d0 ++ goalEdges ns motions.
Proof.
  intros Hpar Hv0 HE. revert Hpar.
  induction motions as [|m motions IH] using rev_ind; intros Hpar.
  { simpl. split; [done|]. by rewrite app_nil_r. }
  rewrite indexed_snoc, foldl_snoc, length_app. simpl.
  rewrite Nat.add_1_r.
  destruct IH as [Hv He].
  { intros i m' Hm'. apply (Hpar i m'). by apply lookup_app_l_Some. }
  apply exportGoal_step; [|done..].
  apply (Hpar (length motions) m).
  by rewrite lookup_app_r, Nat.sub_diag.
Qed.

Lemma startEdges_length motions :
  length (startEdges motions)
  = length (filter (λ m, is_Some (parent m)) motions).
Proof.
  induction motions as [|m motions IH] using rev_ind; [done|].
  rewrite startEdges_snoc, filter_app, !length_app, IH. f_equal.
  rewrite filter_cons, filter_nil. case_decide as Hd.
  - by destruct Hd as [q ->].
  - destruct (parent m); [destruct Hd; eauto|done].
Qed.

Lemma goalEdges_length ns motions :
  length (goalEdges ns motions)
  = length (filter (λ m, is_Some (parent m)) motions).
Proof.
  induction motions as [|m motions IH] using rev_ind; [done|].
  rewrite goalEdges_snoc, filter_app, !length_app, IH. f_equal.
  rewrite filter_cons, filter_nil. case_decide as Hd.
  - by destruct Hd as [q ->].
  - destruct (parent m); [destruct Hd; eauto|done].
Qed.

(** C8. For a planner that satisfies the invariant, the graph
    [getPlannerData] builds from nothing has these vertices and edges.
    - Vertices: the state of every start motion, tagged 1, and the state
      of every goal motion, tagged 2, each once.
    - Edges of the trees: for every start motion with a parent, the edge
      from the parent's vertex to the motion's vertex; for every goal
      motion with a parent, the edge from the motion's vertex to the
      parent's vertex; one edge for each motion with a parent and no
      other.
    - The connecting edge: when the connection point is the pair of
      nulls (nothing was solved), there is no further edge; when it
      holds two states, there is exactly one more edge, from the vertex
      of the first to the vertex of the second. *)
Theorem getPlannerData_graph p :
  wfPlanner p →
  let ns := length (startMotions_ p) in
  let ng := length (goalMotions_ p) in
  let d := getPlannerData p PlannerData.empty in
  let nonRoots := λ ms : list (Motion State),
                    length (filter (λ m, is_Some (parent m)) ms) in
  PlannerData.vertices d = startVerts ns ++ goalVerts ng
  ∧ (∀ i, i < ns →
       PlannerData.vertexIndex d (Some (StateOf StartSide i)) = Some i)
  ∧ (∀ j, j < ng →
       PlannerData.vertexIndex d (Some (StateOf GoalSide j)) = Some (ns + j))
  ∧ (∀ i m q, startMotions_ p !! i = Some m → parent m = Some q →
       (q, i) ∈ PlannerData.edges d)
  ∧ (∀ j m q, goalMotions_ p !! j = Some m → parent m = Some q →
       (ns + j, ns + q) ∈ PlannerData.edges d)
  ∧ length (treeEdges p)
    = nonRoots (startMotions_ p) + nonRoots (goalMotions_ p)
  ∧ (connectionPoint_ p = (None, None) → PlannerData.edges d = treeEdges p)
  ∧ (∀ a b, connectionPoint_ p = (Some a, Some b) →
       PlannerData.vertexIndex d (Some a) = Some (vertexOf ns a)
       ∧ PlannerData.vertexIndex d (Some b) = Some (vertexOf ns b)
       ∧ PlannerData.edges d
         = treeEdges p ++ [(vertexOf ns a, vertexOf ns b)]).
Proof.
  intros (Hs & Hg & Hc) ns ng d nonRoots.
  pose proof (wfTree_parents _ Hs) as Hps.
  pose proof (wfTree_parents _ Hg) as Hpg. simpl in Hps, Hpg.
  destruct (exportStart_fold (startMotions_ p) Hps) as [Hv1 He1].
  set (d1 := foldl exportStart PlannerData.empty (indexed (startMotions_ p)))
    in *.
  assert (HE1 : ∀ a b, (a, b) ∈ PlannerData.edges d1 → a < b ∧ b < ns).
  { intros a b Hin. rewrite He1 in Hin.
    apply elem_of_startEdges in Hin as (m & Hm & Hpar).
    split; [by eapply Hps|by eapply lookup_lt_Some]. }
  destruct (exportGoal_fold d1 ns (goalMotions_ p) Hpg Hv1) as [Hv2 He2].
  { intros a b Hin. apply HE1 in Hin. lia. }
  set (d2 := foldl exportGoal d1 (indexed (goalMotions_ p))) in *.
  rewrite He1 in He2. fold (treeEdges p) in He2. fold ng in Hv2.
  assert (Hn2 : PlannerData.numVertices d2 = ns + ng).
  { unfold PlannerData.numVertices. by rewrite Hv2, allVerts_length. }
  assert (Htree : ∀ a b, (a, b) ∈ treeEdges p →
                    (a < b ∧ b < ns) ∨ (ns ≤ a ∧ ns ≤ b)).
  { intros a b Hin. apply elem_of_app in Hin as [Hin|Hin].
    - left. apply elem_of_startEdges in Hin as (m & Hm & Hpar).
      split; [by eapply Hps|by eapply lookup_lt_Some].
    - right. apply elem_of_goalEdges in Hin as (j & q & m & -> & -> & _). lia. }
  assert (Hd : d = PlannerData.addEdgeAt d2
                     (PlannerData.vertexIndex d2 (connectionPoint_ p).1)
                     (PlannerData.vertexIndex d2 (connectionPoint_ p).2))
    by done.
  assert (Hvd : PlannerData.vertices d = allVerts ns ng).
  { rewrite Hd. unfold PlannerData.addEdgeAt.
    repeat case_match; simpl; done. }
  assert (Hcases :
    (connectionPoint_ p = (None, None) ∧ PlannerData.edges d = treeEdges p)
    ∨ ∃ a b, connectionPoint_ p = (Some a, Some b)
             ∧ PlannerData.edges d
               = treeEdges p ++ [(vertexOf ns a, vertexOf ns b)]
             ∧ vertexOf ns a < ns + ng ∧ vertexOf ns b < ns + ng).
  { destruct Hc as [Hc|(s & m & n & Hc & Hm & Hn)].
    - left. split; [done|]. rewrite Hd, Hc. simpl.
      by unfold PlannerData.vertexIndex.
    - right. exists (StateOf s m), (StateOf (otherSide s) n).
      split; [done|]. rewrite Hd, Hc. simpl.
      destruct s; simpl in *; unfold motionsOf in Hm, Hn; simpl in Hm, Hn;
        fold ns in Hm, Hn; fold ng in Hm, Hn.
      + rewrite (vertexIndex_start d2 _ _ m Hv2),
          (vertexIndex_goal d2 _ _ n Hv2).
        rewrite !decide_True by done.
        rewrite addEdgeAt_new; simpl; [|lia..|].
        * rewrite He2. split; [done|]. simpl. lia.
        * rewrite He2. intros Hin. apply Htree in Hin. lia.
      + rewrite (vertexIndex_goal d2 _ _ m Hv2),
          (vertexIndex_start d2 _ _ n Hv2).
        rewrite !decide_True by done.
        rewrite addEdgeAt_new; simpl; [|lia..|].
        * rewrite He2. split; [done|]. simpl. lia.
        * rewrite He2. intros Hin. apply Htree in Hin. lia. }
  assert (Hsub : ∀ e, e ∈ treeEdges p → e ∈ PlannerData.edges d).
  { intros e He. destruct Hcases as [[_ ->]|(a & b & _ & -> & _)]; [done|].
    apply elem_of_app. by left. }
  split; [exact Hvd|].
  split.
  { intros i Hi. rewrite (vertexIndex_start d _ _ i Hvd).
    by rewrite decide_True. }
  split.
  { intros j Hj. rewrite (vertexIndex_goal d _ _ j Hvd).
    by rewrite decide_True. }
  split.
  { intros i m q Hm Hq. apply Hsub, elem_of_app. left.
    apply elem_of_startEdges. by exists m. }
  split.
  { intros j m q Hm Hq. apply Hsub, elem_of_app. right.
    apply elem_of_goalEdges. by exists j, q, m. }
  split.
  { unfold treeEdges. by rewrite length_app, startEdges_length,
      goalEdges_length. }
  split.
  { intros Hnone. destruct Hcases as [[_ He]|(a & b & Hab & _)]; [done|].
    rewrite Hnone in Hab. done. }
  intros a b Hab. destruct Hcases as [[Hnone _]|(a' & b' & Hab' & He & Ha & Hb)].
  { rewrite Hnone in Hab. done. }
  rewrite Hab in Hab'. injection Hab' as <- <-.
  split; [|split; [|done]].
  - destruct a as [[] i]; simpl in *.
    + rewrite (vertexIndex_start d _ _ i Hvd).
      destruct Hc as [Hc|(s & m & n & Hc & Hm & Hn)]; [congruence|].
      rewrite Hab in Hc. destruct s; simplify_eq/=.
      by rewrite decide_True.
    + rewrite (vertexIndex_goal d _ _ i Hvd). rewrite decide_True; [done|lia].
  - destruct b as [[] i]; simpl in *.
    + rewrite (vertexIndex_start d _ _ i Hvd).
      destruct Hc as [Hc|(s & m & n & Hc & Hm & Hn)]; [congruence|].
      rewrite Hab in Hc. destruct s; simplify_eq/=.
      by rewrite decide_True.
    + rewrite (vertexIndex_goal d _ _ i Hvd). rewrite decide_True; [done|lia].
Qed.

(** ** Every planner the code can reach satisfies the invariant *)

Lemma BiRealEST_wf junk : wfPlanner (BiRealEST (State:=State) junk).
Proof.
  split; [apply wfTree_empty|]. split; [apply wfTree_empty|]. by left.
Qed.

Lemma wfPlanner_trees p p' :
  wfPlanner p →
  (∀ s, treeOf s p' = treeOf s p) →
  connectionPoint_ p' = connectionPoint_ p →
  wfPlanner p'.
Proof.
  intros (Hs & Hg & Hc) Htrees Hcp. split; [|split].
  - by rewrite (Htrees StartSide).
  - by rewrite (Htrees GoalSide).
  - destruct Hc as [Hc|(s & m & n & Hc & Hm & Hn)].
    + left. by rewrite Hcp.
    + right. exists s, m, n. unfold motionsOf. rewrite Hcp, !Htrees. done.
Qed.

Lemma setup_wf p : wfPlanner p → wfPlanner (setup p).
Proof.
  intros Hwf. apply (wfPlanner_trees p); [done| |].
  - intros []; unfold setup; by destruct (PrimFloat.ltb _ _).
  - unfold setup; by destruct (PrimFloat.ltb _ _).
Qed.

Lemma applyOp_wf p op : wfPlanner p → wfPlanner (applyOp p op).
Proof.
  intros Hwf. destruct op as [d| |]; simpl.
  - apply (wfPlanner_trees p); [done|by intros []|done].
  - by apply setup_wf.
  - split; [apply wfTree_empty|]. split; [apply wfTree_empty|]. by left.
Qed.

Lemma configured_wf junk ops : wfPlanner (configured (State:=State) junk ops).
Proof.
  unfold configured. induction ops as [|op ops IH] using rev_ind.
  - apply BiRealEST_wf.
  - rewrite foldl_snoc. by apply applyOp_wf.
Qed.

Lemma checkValidity_wf p : wfPlanner p → wfPlanner (checkValidity p).
Proof.
  intros Hwf. unfold checkValidity. destruct (setup_ p); [done|].
  by apply setup_wf.
Qed.

Lemma seedStarts_keeps_wf sts p p' :
  wfPlanner p → seedStarts sts p = Some p' → wfPlanner p'.
Proof.
  intros Hwf Hseed. destruct (seedStarts_wf sts p Hwf) as (p0 & Hp0 & Hwf0 & _).
  congruence.
Qed.

Lemma replenish_keeps_wf p w p' w' :
  wfPlanner p → replenish p w = Some (p', w') → wfPlanner p'.
Proof.
  intros Hwf Hrep.
  destruct (replenish_wf p w Hwf) as (p0 & w0 & Hp0 & Hwf0 & _). congruence.
Qed.

Lemma iteration_keeps_wf (s s' : LoopState State W) o :
  wfPlanner (planner s) → startMotions_ (planner s) ≠ [] →
  iteration s = Some (o, s') →
  wfPlanner (planner s') ∧ startMotions_ (planner s') ≠ [].
Proof.
  intros Hwf Hne Hit.
  destruct (iteration_wf s Hwf Hne) as (o0 & s0 & Hit0 & Hwf0 & Hne0).
  rewrite Hit in Hit0. by simplify_eq.
Qed.

Lemma solve_wf fuel p w r :
  wfPlanner p → solve fuel p w = Finished r → wfPlanner (after r).
Proof.
  intros Hwf Hsolve. apply checkValidity_wf in Hwf. unfold solve in Hsolve.
  destruct (goalIsSampleable w); simpl in Hsolve; [|by simplify_eq].
  destruct (nextStarts w) as [sts w1].
  destruct (seedStarts sts (checkValidity p)) as [p1|] eqn:Hseed; [|done].
  apply seedStarts_keeps_wf in Hseed; [|done].
  destruct (length (startMotions_ p1) =? 0) eqn:Hlen; [by simplify_eq|].
  destruct (couldSample w1); simpl in Hsolve; [|by simplify_eq].
  destruct (mainLoop fuel _) as [[sf os]| |] eqn:Hloop; [|done..].
  simplify_eq. simpl.
  eapply mainLoop_safe; [| |exact Hloop]; [done|].
  simpl. intros Hnil. apply length_zero_iff in Hnil. congruence.
Qed.

Lemma Reachable_wf p : Reachable (W:=W) p → wfPlanner p.
Proof.
  induction 1 as [junk|p op _ IH|p fuel w r _ IH Hsolve].
  - apply BiRealEST_wf.
  - by apply applyOp_wf.
  - by eapply solve_wf.
Qed.

(** * Further properties of the code *)

(** ** What [addMotion] returns *)

Lemma addMotion_shape motion motions pdf nn neighbors (t : Tree State) :
  addMotion motion motions pdf nn neighbors = Some t →
  ∃ pdf1,
    updateNeighbors motions pdf neighbors = Some pdf1
    ∧ t = (motions ++ [setElement motion (length pdf1)],
           pdf1 ++ [(length motions, seedWeight (length neighbors))],
           nn ++ [(length motions, state motion)]).
Proof.
  unfold addMotion.
  destruct (updateNeighbors motions pdf neighbors) as [pdf1|]; [|done].
  simpl. intros [= <-]. by exists pdf1.
Qed.

Lemma fits_app motions l (m : Motion State) :
  fits motions m → fits (motions ++ l) m.
Proof.
  unfold fits. destruct (parent m); [|done].
  intros (pm & Hq & Hr & Hc). exists pm.
  split; [by apply lookup_app_l_Some|done].
Qed.

Lemma treeFits_snoc motions (m : Motion State) e :
  treeFits motions → fits motions m → treeFits (motions ++ [setElement m e]).
Proof.
  intros Ht Hm i m' Hi. apply fits_app.
  apply lookup_app_Some in Hi as [Hi|[_ Hi]]; [by eapply Ht|].
  apply list_lookup_singleton_Some in Hi as [_ <-]. exact Hm.
Qed.

Lemma NoDup_bounded_length (l : list nat) n :
  NoDup l → Forall (λ x, x < n) l → length l ≤ n.
Proof.
  intros Hnd Hall. rewrite <- (length_seq n 0).
  apply submseteq_length, NoDup_submseteq; [done|].
  intros x Hx. apply elem_of_seq. rewrite Forall_forall in Hall.
  specialize (Hall x Hx). lia.
Qed.

Lemma addMotion_keeps_weightsOK motion motions pdf nn neighbors (t : Tree State) :
  wfTree (motions, pdf, nn) → weightsOK (motions, pdf, nn) →
  NoDup neighbors → Forall (λ n, n < length motions) neighbors →
  addMotion motion motions pdf nn neighbors = Some t → weightsOK t.
Proof.
  intros Hwf Hw Hnd Hall Hadd.
  apply addMotion_shape in Hadd as (pdf1 & Hup & ->).
  pose proof (wfTree_length_pdf _ Hwf) as Hlen. simpl in Hlen.
  destruct Hwf as (Hel & _ & _). simpl in Hel.
  assert (Hh : handles motions neighbors = Some neighbors).
  { apply handles_wf; [|done]. intros i m Hi. by apply (Hel i m). }
  destruct (updateNeighbors_weights motions neighbors pdf neighbors Hh Hnd)
    as (pdf' & Hup' & Hlen' & _ & Hin & Hout).
  { by rewrite Hlen. }
  rewrite Hup in Hup'. injection Hup' as <-.
  unfold weightsOK in *. simpl in *. intros e w.
  rewrite length_app. simpl.
  destruct (decide (e < length pdf1)) as [Hlt|Hge].
  - unfold PDF.getWeight at 1. rewrite lookup_app_l by done.
    fold (PDF.getWeight pdf1 e). intros Hgw.
    destruct (decide (e ∈ neighbors)) as [He|He].
    + destruct (getWeight_lt pdf e) as [w0 Hw0]; [lia|].
      destruct (Hw e w0 Hw0) as (k & j & Hkj & Hq).
      rewrite (Hin e w0 He Hw0) in Hgw. injection Hgw as <-.
      exists k, (S j). split; [lia|]. simpl. by rewrite <- Hq.
    + rewrite (Hout e He) in Hgw.
      destruct (Hw e w Hgw) as (k & j & Hkj & Hq).
      exists k, j. split; [lia|done].
  - unfold PDF.getWeight. rewrite lookup_app_r by lia.
    destruct (e - length pdf1) as [|k]; [|done]. simpl. intros [= <-].
    exists (length neighbors), 0. split; [|done].
    pose proof (NoDup_bounded_length neighbors (length motions) Hnd Hall).
    lia.
Qed.

(** ** Steps of a list *)

Lemma adjacent_cons {A} (R : A → A → Prop) a l :
  adjacent R (a :: l) ↔ (∀ b, head l = Some b → R a b) ∧ adjacent R l.
Proof.
  destruct l as [|b l]; simpl.
  - split; [done|]. done.
  - split.
    + intros [HR Hl]. split; [by intros ? [= <-]|done].
    + intros [HR Hl]. split; [by apply HR|done].
Qed.

Lemma adjacent_snoc {A} (R : A → A → Prop) l b :
  adjacent R (l ++ [b]) ↔ adjacent R l ∧ (∀ a, last l = Some a → R a b).
Proof.
  induction l as [|a l IH].
  - simpl. split; [done|]. done.
  - change ((a :: l) ++ [b]) with (a :: (l ++ [b])).
    rewrite !adjacent_cons, IH. destruct l as [|a' l]; simpl.
    + split.
      * intros [HR _]. split; [done|]. intros ? [= <-]. by apply HR.
      * intros [_ HR]. split; [|done]. intros ? [= <-]. by apply HR.
    + split.
      * intros [HR [Hl Hlast]]. done.
      * intros [[HR Hl] Hlast]. done.
Qed.

Lemma adjacent_app {A} (R : A → A → Prop) l k :
  adjacent R l → adjacent R k →
  (∀ a b, last l = Some a → head k = Some b → R a b) →
  adjacent R (l ++ k).
Proof.
  revert l. induction k as [|b k IH]; intros l Hl Hk Hjoin.
  - by rewrite app_nil_r.
  - change (l ++ b :: k) with (l ++ [b] ++ k). rewrite app_assoc.
    apply adjacent_cons in Hk as [Hb Hk]. apply IH.
    + apply adjacent_snoc. split; [done|]. intros a Ha. by apply Hjoin.
    + done.
    + intros a b'. rewrite last_snoc. intros [= <-]. apply Hb.
Qed.

Lemma adjacent_reverse {A} (R : A → A → Prop) l :
  adjacent R l → adjacent (flip R) (reverse l).
Proof.
  induction l as [|a l IH]; [done|].
  rewrite adjacent_cons, reverse_cons, adjacent_snoc.
  intros [Ha Hl]. split; [by apply IH|].
  intros b. rewrite last_reverse. apply Ha.
Qed.

Lemma adjacent_impl {A} (R R' : A → A → Prop) l :
  (∀ a b, R a b → R' a b) → adjacent R l → adjacent R' l.
Proof.
  intros HR. induction l as [|a l IH]; [done|].
  rewrite !adjacent_cons. intros [Ha Hl]. split; [|by apply IH].
  intros b Hb. by apply HR, Ha.
Qed.

(** ** The walk up the parents of a tree whose motions all fit *)

Lemma chain_checked motions : treeFits motions →
  ∀ c i (m r : Motion State),
    isChain motions (Some i) (m :: c) → last (m :: c) = Some r →
    root m = state r
    ∧ root r = state r
    ∧ adjacent (λ a b, checkMotion b a = true) (state <$> m :: c).
Proof.
  intros Hfit. induction c as [|m' c IH]; intros i m r (i' & _ & Hm & Hrest) Hlast.
  - simpl in Hrest, Hlast. injection Hlast as <-.
    pose proof (Hfit i' m Hm) as Hf. unfold fits in Hf. rewrite Hrest in Hf.
    done.
  - pose proof Hrest as (j & Hpar & Hm' & _).
    rewrite Hpar in Hrest.
    change (last (m :: m' :: c)) with (last (m' :: c)) in Hlast.
    destruct (IH j m' r Hrest Hlast) as (Hroot & Hr & Hadj).
    pose proof (Hfit i' m Hm) as Hf. unfold fits in Hf. rewrite Hpar in Hf.
    destruct Hf as (pm & Hpm & Hrm & Hcm). rewrite Hm' in Hpm.
    injection Hpm as <-. split; [congruence|]. split; [done|].
    change (state <$> m :: m' :: c) with (state m :: (state <$> m' :: c)).
    apply adjacent_cons. split; [|done]. simpl. by intros ? [= <-].
Qed.

Lemma isChain_length motions :
  (∀ i (m : Motion State), motions !! i = Some m →
     ∀ q, parent m = Some q → q < i) →
  ∀ c i, isChain motions (Some i) c → length c ≤ S i.
Proof.
  intros Hpar. induction c as [|m c IH]; intros i Hc; simpl; [lia|].
  destruct Hc as (i' & [= <-] & Hm & Hrest).
  destruct (parent m) as [q|] eqn:Hq.
  - pose proof (Hpar i m Hm q Hq). specialize (IH q Hrest). lia.
  - destruct c as [|m' c]; simpl; [lia|]. by destruct Hrest as (? & ? & _).
Qed.

(** ** The scan, read backwards *)

Lemma connectScan_accepts (motion : Motion State) others :
  ∀ neighbors seen n,
    connectScan motion others neighbors = Some (seen, Some n) →
    ∃ nm, others !! n = Some nm ∧ accepts motion nm = true.
Proof.
  induction neighbors as [|n' rest IH]; intros seen n Hscan; simpl in Hscan;
    [done|].
  destruct (others !! n') as [nm|] eqn:Hnm; simpl in Hscan; [|done].
  destruct (accepts motion nm) eqn:Hacc.
  - injection Hscan as <- <-. by exists nm.
  - destruct (connectScan motion others rest) as [[seen' found]|] eqn:Hrest;
      simpl in Hscan; [|done].
    simplify_eq. by eapply IH.
Qed.

Lemma connectScan_rejects (motion : Motion State) others :
  ∀ neighbors seen,
    connectScan motion others neighbors = Some (seen, None) →
    seen = neighbors
    ∧ Forall (λ n, ∃ nm, others !! n = Some nm ∧ accepts motion nm = false)
        neighbors.
Proof.
  induction neighbors as [|n' rest IH]; intros seen Hscan; simpl in Hscan.
  - by injection Hscan as <-.
  - destruct (others !! n') as [nm|] eqn:Hnm; simpl in Hscan; [|done].
    destruct (accepts motion nm) eqn:Hacc; [done|].
    destruct (connectScan motion others rest) as [[seen' found]|] eqn:Hrest;
      simpl in Hscan; [|done].
    simplify_eq. destruct (IH seen' eq_refl) as [-> Hall].
    split; [done|]. constructor; [by exists nm|done].
Qed.

Lemma connect_scan side m (motion : Motion State) p seen found p' :
  connect side m motion p = Some (seen, found, p') →
  connectScan motion (motionsOf (otherSide side) p)
    (nearestR (nnOf (otherSide side) p) (state motion) (maxDistance_ p))
  = Some (seen, found).
Proof.
  unfold connect.
  destruct (connectScan _ _ _) as [[seen' [n|]]|]; simpl; [| |done].
  - destruct (solutionPath _ _ _); simpl; [|done]. by intros [= <- <- _].
  - by intros [= <- <- _].
Qed.

(** The path a connection records, step by step. *)
Lemma connect_path side m (motion mm : Motion State) p seen n p' :
  (∀ s, treeFits (motionsOf s p)) →
  motionsOf side p !! m = Some mm →
  state mm = state motion → root mm = root motion →
  connect side m motion p = Some (seen, Some n, p') →
  ∃ pre post a b first lst,
    p' = recordSolution (StateOf side m, StateOf (otherSide side) n)
           (pre ++ post) p
    ∧ adjacent (λ x y, checkMotion x y = true) pre
    ∧ adjacent (λ x y, checkMotion y x = true) post
    ∧ last pre = Some a ∧ head post = Some b
    ∧ head (pre ++ post) = Some first ∧ last (pre ++ post) = Some lst
    ∧ match side with
      | StartSide =>
          checkMotion a b = true ∧ isStartGoalPairValid first lst = true
      | GoalSide =>
          checkMotion b a = true ∧ isStartGoalPairValid lst first = true
      end.
Proof.
  intros Hfit Hmm Hst Hrt Hcon.
  pose proof (connect_scan _ _ _ _ _ _ _ Hcon) as Hscan.
  apply connectScan_accepts in Hscan as (nm & Hnm & Hacc).
  apply andb_true_iff in Hacc as [Hpair Hcm].
  apply connect_inv in Hcon as (_ & path & Hpath & ->).
  unfold solutionPath in Hpath.
  destruct (mpath (startMotions_ p) _) as [c1|] eqn:Hc1; simpl in Hpath;
    [|done].
  destruct (mpath (goalMotions_ p) _) as [c2|] eqn:Hc2; simpl in Hpath;
    [|done].
  injection Hpath as <-.
  apply parentChain_isChain in Hc1, Hc2.
  destruct c1 as [|m1 c1]; [done|]. destruct c2 as [|m2 c2]; [done|].
  destruct (isChain_last _ _ _ _ Hc1) as (r1 & Hl1 & _ & _).
  destruct (isChain_last _ _ _ _ Hc2) as (r2 & Hl2 & _ & _).
  destruct (chain_checked _ (Hfit StartSide) _ _ _ _ Hc1 Hl1)
    as (Hr1 & _ & Hadj1).
  destruct (chain_checked _ (Hfit GoalSide) _ _ _ _ Hc2 Hl2)
    as (Hr2 & _ & Hadj2).
  pose proof Hc1 as (i1 & [= <-] & Hm1 & _).
  pose proof Hc2 as (i2 & [= <-] & Hm2 & _).
  exists (reverse (state <$> m1 :: c1)), (state <$> m2 :: c2), (state m1),
    (state m2), (state r1), (state r2).
  split; [done|]. split; [by apply (adjacent_reverse _ _ Hadj1)|].
  split; [done|]. split; [by rewrite last_reverse|]. split; [done|].
  split; [by apply head_reverse_app; rewrite fmap_last, Hl1|].
  split; [by apply last_app_r; rewrite fmap_last, Hl2|].
  destruct side; simpl in *; unfold motionsOf in *; simpl in *.
  - rewrite Hmm in Hm1. rewrite Hnm in Hm2. simplify_eq. split; congruence.
  - rewrite Hnm in Hm1. rewrite Hmm in Hm2. simplify_eq. split; congruence.
Qed.

(** ** The full invariant is kept *)

Lemma side_cases (s s0 : Side) : s0 = s ∨ s0 = otherSide s.
Proof. destruct s, s0; auto. Qed.

Lemma treeOf_recordSolution sd cp path (p : Planner State) :
  treeOf sd (recordSolution cp path p) = treeOf sd p.
Proof. by destruct sd. Qed.

Lemma Sound_wf (p : Planner State) : Sound p → wfPlanner p.
Proof. by intros (Hwf & _). Qed.

Lemma insert_sound s (motion : Motion State) neighbors t p :
  Sound p →
  NoDup neighbors → Forall (λ n, n < length (motionsOf s p)) neighbors →
  fits (motionsOf s p) motion →
  addMotion motion (motionsOf s p) (pdfOf s p) (nnOf s p) neighbors = Some t →
  Sound (setTree s t p)
  ∧ t.1.1 = motionsOf s p ++ [setElement motion (length (motionsOf s p))].
Proof.
  intros (Hwf & Hfit & Hw & Hpaths) Hnd Hall Hm Hadd.
  pose proof (wfPlanner_tree s p Hwf) as Ht. rewrite treeOf_eta in Ht.
  destruct (addMotion_wf motion _ _ _ _ Ht Hnd Hall) as (t' & Hadd' & Hms & Ht').
  { intros q Hq. unfold fits in Hm. rewrite Hq in Hm.
    destruct Hm as (pm & Hpm & _). by eapply lookup_lt_Some. }
  rewrite Hadd in Hadd'. injection Hadd' as <-.
  split; [|done]. split; [|split; [|split]].
  - apply setTree_wf; [done..|]. rewrite Hms, length_app. lia.
  - intros s0. destruct (side_cases s s0) as [->| ->].
    + rewrite motionsOf_setTree_same, Hms. by apply treeFits_snoc.
    + by rewrite motionsOf_setTree_other.
  - intros s0. destruct (side_cases s s0) as [->| ->].
    + rewrite treeOf_setTree_same.
      eapply addMotion_keeps_weightsOK; [exact Ht| |exact Hnd|exact Hall|exact Hadd].
      specialize (Hw s). by rewrite treeOf_eta in Hw.
    + by rewrite treeOf_setTree_other.
  - intros path. rewrite solutionPaths_setTree. apply Hpaths.
Qed.

Lemma insertRoot_sound s st (p p' : Planner State) :
  Sound p → insertRoot s st p = Some p' → Sound p'.
Proof.
  intros Hs Hins. unfold insertRoot in Hins.
  destruct (addMotion _ _ _ _ _) as [t|] eqn:Hadd; simpl in Hins; [|done].
  injection Hins as <-.
  destruct (neighbors_valid s p st (nbrhoodRadius_ p) (Sound_wf _ Hs))
    as [Hnd Hall].
  by destruct (insert_sound s (mkMotion st None st None) _ t p Hs Hnd Hall
                eq_refl Hadd).
Qed.

Lemma seedStarts_sound sts : ∀ p p' : Planner State,
  Sound p → seedStarts sts p = Some p' → Sound p'.
Proof.
  induction sts as [|st rest IH]; intros p p' Hs Hseed; simpl in Hseed.
  - by injection Hseed as <-.
  - destruct (insertRoot StartSide st p) as [p1|] eqn:Hins; simpl in Hseed;
      [|done].
    eapply IH; [|exact Hseed]. by eapply insertRoot_sound.
Qed.

Lemma replenish_sound (p p' : Planner State) (w w' : W) :
  Sound p → replenish p w = Some (p', w') → Sound p'.
Proof.
  intros Hs Hrep. apply replenish_cases in Hrep as [->|(st & _ & _ & Hins)];
    [done|]. by eapply insertRoot_sound.
Qed.

Lemma connect_sound side m (motion mm : Motion State) p seen found p' :
  Sound p →
  motionsOf side p !! m = Some mm →
  state mm = state motion → root mm = root motion →
  connect side m motion p = Some (seen, found, p') →
  Sound p'.
Proof.
  intros Hs Hmm Hst Hrt Hcon. destruct found as [n|].
  2:{ apply connect_inv in Hcon. by subst. }
  pose proof Hs as (Hwf & Hfit & Hw & Hpaths).
  destruct (connect_path _ _ _ _ _ _ _ _ Hfit Hmm Hst Hrt Hcon)
    as (pre & post & a & b & first & lst & -> & Hpre & Hpost & Ha & Hb & _ & _
        & Hside).
  apply connect_inv in Hcon as (Hn & _).
  split; [|split; [|split]].
  - apply recordSolution_wf; [done| |done]. by eapply lookup_lt_Some.
  - intros s0. rewrite motionsOf_recordSolution. apply Hfit.
  - intros s0. rewrite treeOf_recordSolution. apply Hw.
  - intros path Hin. unfold recordSolution in Hin. simpl in Hin.
    apply elem_of_app in Hin as [Hin|Hin]; [by apply Hpaths|].
    apply list_elem_of_singleton in Hin as ->. split.
    + rewrite length_app. destruct pre; [done|]. destruct post; [done|].
      simpl. lia.
    + apply adjacent_app.
      * eapply adjacent_impl; [|exact Hpre]. intros x y Hxy. by left.
      * eapply adjacent_impl; [|exact Hpost]. intros x y Hxy. by right.
      * intros a' b' Ha' Hb'. rewrite Ha in Ha'. rewrite Hb in Hb'.
        simplify_eq. destruct side; [left|right]; apply Hside.
Qed.

Lemma iteration_sound (s s' : LoopState State W) o :
  Sound (planner s) → iteration s = Some (o, s') → Sound (planner s').
Proof.
  intros Hs Hit. apply iteration_inv in Hit as (p & w & Hrep & Hcase).
  apply replenish_sound in Hrep; [|done].
  unfold iterationCase in Hcase.
  assert (Hins : ∀ m existing em x w2 t seen found p',
    pickCandidate (mkLoop p w (startTree s) (solved s))
      = Some (existing, em, Some x, w2) →
    checkMotion (state em) x = true →
    m = length (motionsOf (sideOf (startTree s)) p) →
    addMotion (mkMotion x (Some existing) (root em) None)
      (motionsOf (sideOf (startTree s)) p) (pdfOf (sideOf (startTree s)) p)
      (nnOf (sideOf (startTree s)) p)
      (nearestR (nnOf (sideOf (startTree s)) p) x (nbrhoodRadius_ p)) = Some t →
    connect (sideOf (startTree s)) m (mkMotion x (Some existing) (root em) None)
      (setTree (sideOf (startTree s)) t p) = Some (seen, found, p') →
    Sound p').
  { intros m existing em x w2 t seen found p' Hpick Hcm -> Hadd Hcon.
    apply pickCandidate_existing in Hpick. simpl in Hpick.
    destruct (neighbors_valid (sideOf (startTree s)) p x (nbrhoodRadius_ p)
                (Sound_wf _ Hrep)) as [Hnd Hall].
    destruct (insert_sound _ (mkMotion x (Some existing) (root em) None) _ t p
                Hrep Hnd Hall) as [Hs1 Hms]; [|done|].
    { unfold fits. simpl. by exists em. }
    eapply connect_sound; [exact Hs1| | | |exact Hcon].
    - rewrite motionsOf_setTree_same, Hms. apply list_lookup_middle. done.
    - done.
    - done. }
  destruct o as [|sd|sd|sd|sd m|sd m n].
  - by destruct Hcase as [_ ->].
  - by destruct Hcase as (_ & _ & existing & em & w2 & _ & ->).
  - by destruct Hcase as (_ & _ & existing & em & x & w2 & w3 & _ & _ & ->).
  - by destruct Hcase
      as (_ & _ & existing & em & x & w2 & w3 & _ & _ & _ & ->).
  - destruct Hcase as (_ & _ & existing & em & x & w2 & w3 & t & seen & p'
                       & Hpick & _ & Hcm & Hm & Hadd & Hcon & ->).
    simpl. eapply Hins; eauto.
  - destruct Hcase as (_ & _ & existing & em & x & w2 & w3 & t & seen & p'
                       & Hpick & _ & Hcm & Hm & Hadd & Hcon & ->).
    simpl. eapply Hins; eauto.
Qed.

Lemma record_eta (s : LoopState State W) :
  mkLoop (planner s) (world s) (startTree s) (solved s) = s.
Proof. by destruct s. Qed.

Lemma mainLoop_sound fuel : ∀ (s sf : LoopState State W) os,
  Sound (planner s) → mainLoop fuel s = Finished (sf, os) →
  Sound (planner sf).
Proof.
  induction fuel as [|fuel IH]; intros s sf os Hs Hloop;
    apply mainLoop_inv in Hloop
      as [(_ & -> & _)|(_ & fuel' & o & s' & Hfuel & Hit & Hrest)];
    try done.
  injection Hfuel as <-.
  apply iteration_sound in Hit; [|done].
  destruct Hrest as [(_ & -> & _)|(_ & os' & Hloop & _)]; [done|].
  by eapply IH.
Qed.

Lemma BiRealEST_sound junk : Sound (BiRealEST (State:=State) junk).
Proof.
  split; [apply BiRealEST_wf|]. split; [by intros [] ??|].
  split; [by intros [] ??|]. intros path Hin. by apply elem_of_nil in Hin.
Qed.

Lemma Sound_trees (p p' : Planner State) :
  Sound p → wfPlanner p' →
  (∀ s, treeOf s p' = treeOf s p) →
  solutionPaths p' = solutionPaths p →
  Sound p'.
Proof.
  intros (_ & Hfit & Hw & Hpaths) Hwf Htrees Hsol.
  split; [done|]. split; [|split].
  - intros s0. unfold motionsOf. rewrite Htrees. apply Hfit.
  - intros s0. rewrite Htrees. apply Hw.
  - intros path. rewrite Hsol. apply Hpaths.
Qed.

Lemma setup_sound (p : Planner State) : Sound p → Sound (setup p).
Proof.
  intros Hs. apply (Sound_trees p); [done|by apply setup_wf, Sound_wf| |].
  - intros []; unfold setup; by destruct (PrimFloat.ltb _ _).
  - unfold setup; by destruct (PrimFloat.ltb _ _).
Qed.

Lemma applyOp_sound (p : Planner State) op : Sound p → Sound (applyOp p op).
Proof.
  intros Hs. destruct op as [d| |].
  - apply (Sound_trees p); [done|by apply (applyOp_wf p (SetRange d)), Sound_wf
                            |by intros []|done].
  - by apply setup_sound.
  - destruct Hs as (Hwf & _ & _ & Hpaths).
    split; [by apply (applyOp_wf p Clear)|]. split; [by intros [] ??|].
    split; [by intros [] ??|]. exact Hpaths.
Qed.

Lemma checkValidity_sound (p : Planner State) :
  Sound p → Sound (checkValidity p).
Proof.
  intros Hs. unfold checkValidity. destruct (setup_ p); [done|].
  by apply setup_sound.
Qed.

Lemma solve_sound fuel (p : Planner State) (w : W) r :
  Sound p → solve fuel p w = Finished r → Sound (after r).
Proof.
  intros Hs Hsolve. apply checkValidity_sound in Hs. unfold solve in Hsolve.
  destruct (goalIsSampleable w); simpl in Hsolve; [|by simplify_eq].
  destruct (nextStarts w) as [sts w1].
  destruct (seedStarts sts (checkValidity p)) as [p1|] eqn:Hseed; [|done].
  apply seedStarts_sound in Hseed; [|done].
  destruct (length (startMotions_ p1) =? 0) eqn:Hlen; [by simplify_eq|].
  destruct (couldSample w1); simpl in Hsolve; [|by simplify_eq].
  destruct (mainLoop fuel _) as [[sf os]| |] eqn:Hloop; [|done..].
  simplify_eq. simpl. by eapply mainLoop_sound; [|exact Hloop].
Qed.

Lemma Reachable_sound (p : Planner State) : Reachable (W:=W) p → Sound p.
Proof.
  induction 1 as [junk|p op _ IH|p fuel w r _ IH Hsolve].
  - apply BiRealEST_sound.
  - by apply applyOp_sound.
  - by eapply solve_sound.
Qed.

(** ** What a call changes, and what it leaves *)

Lemma extends_refl (p : Planner State) : extends p p.
Proof. by repeat split. Qed.

Lemma extends_trans (p1 p2 p3 : Planner State) :
  extends p1 p2 → extends p2 p3 → extends p1 p3.
Proof.
  intros (Hm1 & Hs1 & Hd1 & Hr1 & Hu1) (Hm2 & Hs2 & Hd2 & Hr2 & Hu2).
  split; [|split; [|repeat split; congruence]].
  - intros sd. etrans; [apply Hm1|apply Hm2].
  - etrans; [apply Hs1|apply Hs2].
Qed.

Lemma setTree_extends s (t : Tree State) p x :
  t.1.1 = motionsOf s p ++ [x] → extends p (setTree s t p).
Proof.
  intros Hms. split; [|by destruct s].
  intros sd. destruct (side_cases s sd) as [->| ->].
  - rewrite motionsOf_setTree_same, Hms. by apply prefix_app_r.
  - by rewrite motionsOf_setTree_other.
Qed.

Lemma recordSolution_extends cp path (p : Planner State) :
  extends p (recordSolution cp path p).
Proof.
  split; [by intros []|]. split; [|done]. by apply prefix_app_r.
Qed.

Lemma insertRoot_shape s st (p p' : Planner State) :
  insertRoot s st p = Some p' →
  ∃ t e,
    p' = setTree s t p ∧ t.1.1 = motionsOf s p ++ [mkMotion st None st (Some e)].
Proof.
  unfold insertRoot.
  destruct (addMotion _ _ _ _ _) as [t|] eqn:Hadd; simpl; [|done].
  intros [= <-]. apply addMotion_shape in Hadd as (pdf1 & _ & ->).
  by eexists _, _.
Qed.

Lemma insertRoot_extends s st (p p' : Planner State) :
  insertRoot s st p = Some p' → extends p p'.
Proof.
  intros Hins. apply insertRoot_shape in Hins as (t & e & -> & Hms).
  by eapply setTree_extends.
Qed.

Lemma insertRoot_length s st (p p' : Planner State) :
  insertRoot s st p = Some p' →
  length (motionsOf s p') = S (length (motionsOf s p))
  ∧ motionsOf (otherSide s) p' = motionsOf (otherSide s) p.
Proof.
  intros Hins. apply insertRoot_shape in Hins as (t & e & -> & Hms).
  rewrite motionsOf_setTree_same, motionsOf_setTree_other, Hms, length_app.
  simpl. split; [lia|done].
Qed.

Lemma seedStarts_extends sts : ∀ p p' : Planner State,
  seedStarts sts p = Some p' →
  extends p p'
  ∧ length (startMotions_ p') = length (startMotions_ p) + length sts
  ∧ goalMotions_ p' = goalMotions_ p
  ∧ connectionPoint_ p' = connectionPoint_ p
  ∧ solutionPaths p' = solutionPaths p.
Proof.
  induction sts as [|st rest IH]; intros p p' Hseed; simpl in Hseed.
  - injection Hseed as <-. split; [apply extends_refl|]. simpl.
    split; [lia|done].
  - destruct (insertRoot StartSide st p) as [p1|] eqn:Hins; simpl in Hseed;
      [|done].
    destruct (IH _ _ Hseed) as (Hext & Hlen & Hgoal & Hcp & Hsol).
    pose proof (insertRoot_extends _ _ _ _ Hins) as Hext1.
    destruct (insertRoot_length _ _ _ _ Hins) as [Hlen1 Hgoal1].
    destruct (insertRoot_frame _ _ _ _ Hins) as (Hsol1 & Hcp1 & _).
    unfold motionsOf in Hlen1, Hgoal1. simpl in Hlen1, Hgoal1.
    split; [by eapply extends_trans|]. simpl.
    split; [lia|]. split; [congruence|]. split; congruence.
Qed.

Lemma replenish_extends (p p' : Planner State) (w w' : W) :
  replenish p w = Some (p', w') →
  extends p p'
  ∧ length (goalMotions_ p') ≤ S (length (goalMotions_ p)).
Proof.
  intros Hrep. apply replenish_cases in Hrep as [->|(st & _ & _ & Hins)].
  - split; [apply extends_refl|lia].
  - split; [by eapply insertRoot_extends|].
    destruct (insertRoot_length _ _ _ _ Hins) as [Hlen _].
    unfold motionsOf in Hlen. simpl in Hlen. lia.
Qed.

(** The number of motions an iteration with the outcome [o] appends to
    the tree of [sd] below the goal-tree replenishment. *)
Lemma insertion_effect (s : LoopState State W) p existing em x t seen found p' :
  let side := sideOf (startTree s) in
  let motion := mkMotion x (Some existing) (root em) None in
  addMotion motion (motionsOf side p) (pdfOf side p) (nnOf side p)
    (nearestR (nnOf side p) x (nbrhoodRadius_ p)) = Some t →
  connect side (length (motionsOf side p)) motion (setTree side t p)
    = Some (seen, found, p') →
  extends p p'
  ∧ length (motionsOf side p') = S (length (motionsOf side p))
  ∧ motionsOf (otherSide side) p' = motionsOf (otherSide side) p
  ∧ match found with
    | None =>
        solutionPaths p' = solutionPaths p
        ∧ connectionPoint_ p' = connectionPoint_ p
    | Some n =>
        ∃ path,
          solutionPaths p' = solutionPaths p ++ [path]
          ∧ connectionPoint_ p'
            = (Some (StateOf side (length (motionsOf side p))),
               Some (StateOf (otherSide side) n))
    end.
Proof.
  intros side motion Hadd Hcon.
  apply addMotion_shape in Hadd as (pdf1 & _ & ->).
  set (t := (motionsOf side p ++ [setElement motion (length pdf1)],
             pdf1 ++ [(length (motionsOf side p),
                       seedWeight (length (nearestR (nnOf side p) x
                                             (nbrhoodRadius_ p))))],
             nnOf side p ++ [(length (motionsOf side p), state motion)]))
    in *.
  assert (Hext : extends p (setTree side t p))
    by (by eapply setTree_extends).
  assert (Hlen : length (motionsOf side (setTree side t p))
                 = S (length (motionsOf side p))).
  { rewrite motionsOf_setTree_same. simpl. rewrite length_app. simpl. lia. }
  pose proof (motionsOf_setTree_other side t p) as Hother.
  apply connect_inv in Hcon. destruct found as [n|].
  - destruct Hcon as (_ & path & _ & ->).
    split; [eapply extends_trans; [exact Hext|apply recordSolution_extends]|].
    rewrite !motionsOf_recordSolution. split; [done|]. split; [done|].
    exists path. unfold recordSolution. simpl.
    by rewrite solutionPaths_setTree.
  - subst p'. split; [done|]. split; [done|]. split; [done|].
    rewrite solutionPaths_setTree. split; [done|]. by destruct side.
Qed.

Lemma iteration_effect (s s' : LoopState State W) o :
  iteration s = Some (o, s') →
  extends (planner s) (planner s')
  ∧ length (startMotions_ (planner s'))
    = length (startMotions_ (planner s))
      + (if insertsOn StartSide o then 1 else 0)
  ∧ length (goalMotions_ (planner s'))
    ≤ S (length (goalMotions_ (planner s)))
      + (if insertsOn GoalSide o then 1 else 0)
  ∧ (o = GoalTreeEmpty ↔ goalMotions_ (planner s') = [])
  ∧ match o with
    | Connected sd m n =>
        ∃ path,
          solutionPaths (planner s') = solutionPaths (planner s) ++ [path]
          ∧ connectionPoint_ (planner s')
            = (Some (StateOf sd m), Some (StateOf (otherSide sd) n))
    | _ =>
        solutionPaths (planner s') = solutionPaths (planner s)
        ∧ connectionPoint_ (planner s') = connectionPoint_ (planner s)
    end.
Proof.
  intros Hit. apply iteration_inv in Hit as (p & w & Hrep & Hcase).
  destruct (replenish_frame _ _ _ _ Hrep) as (Hsol & Hcp & _ & _ & Hstart).
  destruct (replenish_extends _ _ _ _ Hrep) as [Hext Hgoal].
  assert (Hst : length (startMotions_ p) = length (startMotions_ (planner s))).
  { by injection Hstart as -> _ _. }
  unfold iterationCase in Hcase.
  assert (Hnil : ∀ l : list (Motion State), l ≠ [] → [] = l → False)
    by (by intros l Hl <-).
  destruct o as [|sd|sd|sd|sd m|sd m n]; simpl.
  - destruct Hcase as [Hg ->]. simpl.
    split; [done|]. split; [lia|]. split; [lia|]. by rewrite Hsol, Hcp.
  - destruct Hcase as (_ & Hne & existing & em & w2 & _ & ->). simpl.
    split; [done|]. split; [lia|]. split; [lia|]. rewrite Hsol, Hcp.
    split; [|done]. split; [done|]. intros Hg. by destruct Hne.
  - destruct Hcase as (_ & Hne & existing & em & x & w2 & w3 & _ & _ & ->).
    simpl. split; [done|]. split; [lia|]. split; [lia|]. rewrite Hsol, Hcp.
    split; [|done]. split; [done|]. intros Hg. by destruct Hne.
  - destruct Hcase
      as (_ & Hne & existing & em & x & w2 & w3 & _ & _ & _ & ->).
    simpl. split; [done|]. split; [lia|]. split; [lia|]. rewrite Hsol, Hcp.
    split; [|done]. split; [done|]. intros Hg. by destruct Hne.
  - destruct Hcase as (-> & Hne & existing & em & x & w2 & w3 & t & seen & p'
                       & _ & _ & _ & -> & Hadd & Hcon & ->).
    destruct (insertion_effect s p existing em x t seen None p' Hadd Hcon)
      as (Hext' & Hlen & Hother & Hsol' & Hcp').
    simpl. split; [by eapply extends_trans|].
    destruct Hext' as (Hpre & _).
    unfold motionsOf in Hlen, Hother.
    destruct (startTree s); simpl in *.
    + rewrite Hother. split; [lia|]. split; [lia|].
      split; [|split; congruence]. split; [done|]. intros Hg. by destruct Hne.
    + rewrite Hother. split; [lia|]. split; [lia|].
      split; [|split; congruence]. split; [done|].
      intros Hg. rewrite Hg in Hlen. done.
  - destruct Hcase as (-> & Hne & existing & em & x & w2 & w3 & t & seen & p'
                       & _ & _ & _ & -> & Hadd & Hcon & ->).
    destruct (insertion_effect s p existing em x t seen (Some n) p' Hadd Hcon)
      as (Hext' & Hlen & Hother & path & Hsol' & Hcp').
    simpl. split; [by eapply extends_trans|].
    unfold motionsOf in Hlen, Hother.
    assert (Hrec : ∃ path0,
      solutionPaths p' = solutionPaths (planner s) ++ [path0]
      ∧ connectionPoint_ p'
        = (Some (StateOf (sideOf (startTree s))
                   (length (treeOf (sideOf (startTree s)) p).1.1)),
           Some (StateOf (otherSide (sideOf (startTree s))) n))).
    { exists path. split; [congruence|done]. }
    destruct (startTree s); simpl in *.
    + rewrite Hother. split; [lia|]. split; [lia|].
      split; [|done]. split; [done|]. intros Hg. by destruct Hne.
    + rewrite Hother. split; [lia|]. split; [lia|].
      split; [|done]. split; [done|].
      intros Hg. rewrite Hg in Hlen. done.
Qed.

Lemma filter_length_cons {A} (f : A → bool) o os :
  length (filter f (o :: os))
  = (if f o then 1 else 0) + length (filter f os).
Proof.
  rewrite filter_cons. by case_decide as Hd; destruct (f o).
Qed.

Lemma mainLoop_effect fuel : ∀ (s sf : LoopState State W) os,
  mainLoop fuel s = Finished (sf, os) →
  extends (planner s) (planner sf)
  ∧ length (startMotions_ (planner sf))
    = length (startMotions_ (planner s))
      + length (filter (insertsOn StartSide) os)
  ∧ length (goalMotions_ (planner sf))
    ≤ length (goalMotions_ (planner s)) + length os
      + length (filter (insertsOn GoalSide) os).
Proof.
  induction fuel as [|fuel IH]; intros s sf os Hloop;
    apply mainLoop_inv in Hloop
      as [(_ & -> & ->)|(_ & fuel' & o & s' & Hfuel & Hit & Hrest)];
    try (simpl; split; [apply extends_refl|split; [done|lia]]); try done.
  injection Hfuel as <-.
  apply iteration_effect in Hit as (Hext & Hst & Hgl & _). simpl in *.
  destruct Hrest as [(-> & -> & ->)|(_ & os' & Hloop & ->)].
  - simpl in *. split; [done|]. split; lia.
  - destruct (IH _ _ _ Hloop) as (Hext' & Hst' & Hgl').
    split; [by eapply extends_trans|].
    rewrite !filter_length_cons. simpl. split; lia.
Qed.

Lemma mainLoop_record fuel : ∀ (s sf : LoopState State W) os,
  mainLoop fuel s = Finished (sf, os) →
  solved s = false →
  if solved sf then
    ∃ sd m n path,
      last os = Some (Connected sd m n)
      ∧ solutionPaths (planner sf) = solutionPaths (planner s) ++ [path]
      ∧ connectionPoint_ (planner sf)
        = (Some (StateOf sd m), Some (StateOf (otherSide sd) n))
  else
    solutionPaths (planner sf) = solutionPaths (planner s)
    ∧ connectionPoint_ (planner sf) = connectionPoint_ (planner s).
Proof.
  induction fuel as [|fuel IH]; intros s sf os Hloop Hs;
    apply mainLoop_inv in Hloop
      as [(_ & -> & ->)|(_ & fuel' & o & s' & Hfuel & Hit & Hrest)];
    try (simpl; by rewrite Hs); try done.
  injection Hfuel as <-.
  pose proof (iteration_side _ _ _ Hit) as (_ & _ & Hsolved).
  apply iteration_effect in Hit as (_ & _ & _ & _ & Hrec). simpl in *.
  rewrite Hs in Hsolved. simpl in Hsolved.
  destruct Hrest as [(-> & -> & ->)|(Hne & os' & Hloop & ->)].
  - simpl in Hsolved. by rewrite Hsolved.
  - destruct (isConnected o) eqn:Hcon.
    + destruct o as [| | | | |sd m n]; try done.
      rewrite (mainLoop_solved fuel s' Hsolved) in Hloop.
      injection Hloop as <- <-. simpl.
      destruct Hrec as (path & Hsol & Hcp). by exists sd, m, n, path.
    + specialize (IH _ _ _ Hloop Hsolved).
      assert (Hsame : solutionPaths (planner s') = solutionPaths (planner s)
                      ∧ connectionPoint_ (planner s')
                        = connectionPoint_ (planner s))
        by (by destruct o).
      destruct Hsame as [Hsol Hcp]. rewrite Hsol, Hcp in IH.
      destruct (solved sf); [|done].
      destruct IH as (sd & m & n & path & Hlast & Hrest).
      exists sd, m, n, path. split; [|done].
      destruct os' as [|o' os']; [done|]. exact Hlast.
Qed.

Lemma mainLoop_goal_kept fuel : ∀ (s sf : LoopState State W) os,
  mainLoop fuel s = Finished (sf, os) →
  goalMotions_ (planner s) ≠ [] →
  GoalTreeEmpty ∉ os.
Proof.
  induction fuel as [|fuel IH]; intros s sf os Hloop Hne;
    apply mainLoop_inv in Hloop
      as [(_ & _ & ->)|(_ & fuel' & o & s' & Hfuel & Hit & Hrest)];
    try apply not_elem_of_nil; try done.
  injection Hfuel as <-.
  apply iteration_effect in Hit as (Hext & _ & _ & Hgte & _). simpl in *.
  assert (Hne' : goalMotions_ (planner s') ≠ []).
  { destruct Hext as (Hpre & _). specialize (Hpre GoalSide).
    unfold motionsOf in Hpre. simpl in Hpre. intros Hnil.
    rewrite Hnil in Hpre. apply prefix_nil_inv in Hpre. done. }
  destruct Hrest as [(-> & _)|(Hno & os' & Hloop & ->)].
  - destruct Hne'. by apply Hgte.
  - apply not_elem_of_cons. split; [done|]. by eapply IH.
Qed.

Lemma mainLoop_goal_empty fuel (s sf : LoopState State W) os :
  mainLoop fuel s = Finished (sf, os) →
  GoalTreeEmpty ∈ os →
  os = [GoalTreeEmpty]
  ∧ goalMotions_ (planner sf) = []
  ∧ goalMotions_ (planner s) = []
  ∧ solved sf = solved s.
Proof.
  intros Hloop Hin.
  apply mainLoop_inv in Hloop
    as [(_ & _ & ->)|(_ & fuel' & o & s' & -> & Hit & Hrest)].
  { by apply elem_of_nil in Hin. }
  pose proof (iteration_side _ _ _ Hit) as (_ & _ & Hsolved).
  apply iteration_effect in Hit as (Hext & _ & _ & Hgte & _). simpl in *.
  destruct Hrest as [(-> & -> & ->)|(Hno & os' & Hloop & ->)].
  - split; [done|]. pose proof (proj1 Hgte eq_refl) as Hnil.
    split; [done|]. split; [|by rewrite Hsolved, orb_false_r].
    destruct Hext as (Hpre & _). specialize (Hpre GoalSide).
    unfold motionsOf in Hpre. simpl in Hpre. rewrite Hnil in Hpre.
    by apply prefix_nil_inv in Hpre.
  - apply elem_of_cons in Hin as [Hin|Hin]; [by destruct Hno|].
    exfalso. eapply mainLoop_goal_kept; [exact Hloop| |exact Hin].
    intros Hnil. by apply Hgte in Hnil.
Qed.

Lemma checkValidity_trees (p : Planner State) :
  (∀ sd, treeOf sd (checkValidity p) = treeOf sd p)
  ∧ solutionPaths (checkValidity p) = solutionPaths p
  ∧ connectionPoint_ (checkValidity p) = connectionPoint_ p
  ∧ setup_ (checkValidity p) = true.
Proof.
  unfold checkValidity. destruct (setup_ p) eqn:Hset; [done|].
  unfold setup. destruct (PrimFloat.ltb _ _); simpl; (split; [by intros []|done]).
Qed.

(** What [solve] did, when it got past the goal kind: the planner with
    which the loop was or would have been entered, and the loop's run. *)
Lemma solve_cases fuel (p : Planner State) (w : W) r :
  solve fuel p w = Finished r →
  (goalIsSampleable w = false
   ∧ r = mkSolved UNRECOGNIZED_GOAL_TYPE (checkValidity p) w [])
  ∨ (goalIsSampleable w = true
     ∧ ∃ p1,
         seedStarts (nextStarts w).1 (checkValidity p) = Some p1
         ∧ ((outcomes r = [] ∧ after r = p1
             ∧ (status r = INVALID_START ∨ status r = INVALID_GOAL))
            ∨ ∃ sf,
                mainLoop fuel (mkLoop p1 (nextStarts w).2 true false)
                  = Finished (sf, outcomes r)
                ∧ startMotions_ p1 ≠ []
                ∧ after r = planner sf
                ∧ status r = if solved sf then EXACT_SOLUTION else TIMEOUT)).
Proof.
  intros Hsolve. unfold solve in Hsolve.
  destruct (goalIsSampleable w); simpl in Hsolve; [|left; by simplify_eq].
  right. split; [done|].
  destruct (nextStarts w) as [sts w1]. simpl.
  destruct (seedStarts sts (checkValidity p)) as [p1|] eqn:Hseed; [|done].
  exists p1. split; [done|].
  destruct (length (startMotions_ p1) =? 0) eqn:Hlen;
    [left; simplify_eq; auto|].
  destruct (couldSample w1); simpl in Hsolve; [|left; simplify_eq; auto].
  destruct (mainLoop fuel _) as [[sf os]| |] eqn:Hloop; [|done..].
  right. exists sf. simplify_eq. simpl. split; [done|]. split; [|done].
  intros Hnil. apply length_zero_iff in Hnil. congruence.
Qed.

Lemma adjacent_lookup {A} (R : A → A → Prop) (l : list A) :
  adjacent R l →
  ∀ i a b, l !! i = Some a → l !! S i = Some b → R a b.
Proof.
  induction l as [|x l IH]; intros Hadj i a b Ha Hb; [done|].
  apply adjacent_cons in Hadj as [Hx Hl]. destruct i as [|i]; simpl in *.
  - injection Ha as <-. apply Hx. by destruct l; simplify_eq/=.
  - by eapply IH.
Qed.

(** ** Properties of every planner the code can reach *)

(** X1, lockstep of the three structures of a tree (lines 275-290,
    80-97): in every planner that construction, [setRange], [setup],
    [clear] and [solve] can produce, the sampler and the
    nearest-neighbor index of a tree have exactly as many entries as the
    tree has motions; the motion at position [i] holds the sampler
    handle [i], the sampler element [i] holds that motion, and the index
    entry [i] holds that motion with its state. *)
Theorem reachable_lockstep (p : Planner State) s :
  Reachable (W:=W) p →
  length (pdfOf s p) = length (motionsOf s p)
  ∧ length (nnOf s p) = length (motionsOf s p)
  ∧ ∀ i m, motionsOf s p !! i = Some m →
      element m = Some i
      ∧ PDF.getData (pdfOf s p) i = Some i
      ∧ nnOf s p !! i = Some (i, state m).
Proof.
  intros Hr. apply Reachable_wf in Hr.
  pose proof (wfPlanner_tree s p Hr) as Ht.
  pose proof (wfTree_length_pdf _ Ht) as Hlen.
  destruct Ht as (Hel & Hpdf & Hnn).
  fold (motionsOf s p) in Hel, Hpdf, Hnn, Hlen.
  fold (pdfOf s p) in Hpdf, Hlen. fold (nnOf s p) in Hnn.
  split; [done|]. split; [by rewrite Hnn, length_imap|].
  intros i m Hm. split; [by apply (Hel i m)|]. split.
  - unfold PDF.getData. rewrite <- list_lookup_fmap, Hpdf.
    apply lookup_seq_lt. by eapply lookup_lt_Some.
  - rewrite Hnn. etrans; [apply list_lookup_imap|]. by rewrite Hm.
Qed.

(** X2, the parent links never form a cycle (lines 216, 235-249): in
    every reachable planner the parent of a motion stands before it in
    the vector, so the walk up the parent links from the motion at
    position [i] ends, after at most [i + 1] motions, at a motion of the
    tree that has no parent. *)
Theorem reachable_parent_walk (p : Planner State) s i :
  Reachable (W:=W) p →
  i < length (motionsOf s p) →
  ∃ m c r,
    motionsOf s p !! i = Some m
    ∧ (∀ q, parent m = Some q → q < i)
    ∧ mpath (motionsOf s p) i = Some (m :: c)
    ∧ isChain (motionsOf s p) (Some i) (m :: c)
    ∧ length (m :: c) ≤ S i
    ∧ last (m :: c) = Some r
    ∧ parent r = None
    ∧ r ∈ motionsOf s p.
Proof.
  intros Hr Hi. apply Reachable_wf in Hr.
  pose proof (wfTree_parents _ (wfPlanner_tree s p Hr)) as Hpar.
  fold (motionsOf s p) in Hpar.
  destruct (mpath_wf _ i Hpar Hi) as (m & c & Hm & Hc).
  pose proof (parentChain_isChain _ _ _ _ Hc) as Hchain.
  destruct (isChain_last _ _ _ _ Hchain) as (r & Hlast & Hroot & Hin).
  exists m, c, r. split; [done|]. split; [by apply (Hpar i m)|].
  split; [done|]. split; [done|].
  split; [by apply (isChain_length _ Hpar _ _ Hchain)|]. done.
Qed.

(** X3, the root field (lines 133, 172, 217): in every reachable planner
    the [root] of a motion is the state of the parentless motion at
    which the walk up its parent links ends; in particular a motion
    without parent is its own root, and a motion has the root of its
    parent. *)
Theorem reachable_root_field (p : Planner State) s i m :
  Reachable (W:=W) p →
  motionsOf s p !! i = Some m →
  (parent m = None → root m = state m)
  ∧ (∀ q, parent m = Some q →
       ∃ pm, motionsOf s p !! q = Some pm ∧ root m = root pm)
  ∧ ∃ c r,
      mpath (motionsOf s p) i = Some (m :: c)
      ∧ last (m :: c) = Some r
      ∧ parent r = None
      ∧ root m = state r.
Proof.
  intros Hr Hm. apply Reachable_sound in Hr as (Hwf & Hfit & _).
  pose proof (Hfit s i m Hm) as Hf. unfold fits in Hf.
  split; [by intros Hp; rewrite Hp in Hf|]. split.
  { intros q Hq. rewrite Hq in Hf. destruct Hf as (pm & Hpm & Hroot & _).
    by exists pm. }
  pose proof (wfTree_parents _ (wfPlanner_tree s p Hwf)) as Hpar.
  fold (motionsOf s p) in Hpar.
  destruct (mpath_wf _ i Hpar (lookup_lt_Some _ _ _ Hm)) as (m' & c & Hm' & Hc).
  rewrite Hm in Hm'. injection Hm' as <-.
  pose proof (parentChain_isChain _ _ _ _ Hc) as Hchain.
  destruct (isChain_last _ _ _ _ Hchain) as (r & Hlast & Hroot & _).
  destruct (chain_checked _ (Hfit s) _ _ _ _ Hchain Hlast) as (Hrm & _).
  by exists c, r.
Qed.

(** X4, the sampler weights (lines 280-287): in every reachable planner
    each weight is the double a motion is born with among some number
    [k] of neighbors, [1. / (k + 1.)], decayed some number [j] of times
    by [w / (w + 1.)], where [k + j] is less than the number of motions
    of the tree. In a tree of at most 256 motions this double is
    positive, at most 1, and within [j + 1] times 2^-53 of the real
    [1 / (k + j + 1)], one over a whole number between 1 and the size
    of the tree. *)
Theorem reachable_weights (p : Planner State) s e w :
  Reachable (W:=W) p →
  PDF.getWeight (pdfOf s p) e = Some w →
  ∃ k j,
    k + j < length (motionsOf s p)
    ∧ w = Nat.iter j (λ w, w / (w + 1))%float
            (1 / (toDouble (Z.of_nat k) + 1))%float
    ∧ (length (motionsOf s p) ≤ 256 →
       PrimFloat.ltb 0 w = true
       ∧ PrimFloat.leb w 1 = true
       ∧ (Qabs (realValue w - 1 / inject_Z (Z.of_nat (k + j + 1)))
          <= inject_Z (Z.of_nat (j + 1)) * 2 ^ (-53))%Q).
Proof.
  intros Hr Hw. apply Reachable_sound in Hr as (_ & _ & Hws & _).
  destruct (Hws s e w Hw) as (k & j & Hkj & Hq).
  exists k, j. split; [done|]. split; [exact Hq|].
  intros Hlen.
  assert (Hb : k + j < 256) by (unfold motionsOf, treeOf in *; lia).
  destruct (weightsChecked_family 256 k j weights_checked Hb)
    as (_ & Hd & Hn).
  apply decayOK_facts in Hd as (Hpos & _).
  apply nearReciprocal_facts in Hn as (Hle & Hclose).
  rewrite Hq. split; [exact Hpos|]. split; [exact Hle|].
  replace (k + j + 1) with (S (k + j)) by lia.
  replace (j + 1) with (S j) by lia. exact Hclose.
Qed.

(** X5, the edges of the trees (lines 211-217): in every reachable
    planner the motion from the state of a motion's parent to the
    motion's own state has passed [checkMotion], in that direction. *)
Theorem reachable_edges_checked (p : Planner State) s i m q :
  Reachable (W:=W) p →
  motionsOf s p !! i = Some m →
  parent m = Some q →
  ∃ pm, motionsOf s p !! q = Some pm
        ∧ q < i
        ∧ checkMotion (state pm) (state m) = true.
Proof.
  intros Hr Hm Hq. apply Reachable_sound in Hr as (Hwf & Hfit & _).
  pose proof (Hfit s i m Hm) as Hf. unfold fits in Hf. rewrite Hq in Hf.
  destruct Hf as (pm & Hpm & _ & Hcm). exists pm. split; [done|].
  split; [|done].
  by apply (wfTree_parents _ (wfPlanner_tree s p Hwf) i m Hm).
Qed.

(** X6, the recorded solution paths (lines 225-258): every path a
    reachable planner has handed to [addSolutionPath] has at least two
    states, and each step of it, from a state to the next one, has
    passed [checkMotion] in one of the two directions. *)
Theorem reachable_paths_checked (p : Planner State) path :
  Reachable (W:=W) p →
  path ∈ solutionPaths p →
  2 ≤ length path
  ∧ ∀ i a b, path !! i = Some a → path !! S i = Some b →
      checkMotion a b = true ∨ checkMotion b a = true.
Proof.
  intros Hr Hin. apply Reachable_sound in Hr as (_ & _ & _ & Hpaths).
  destruct (Hpaths path Hin) as [Hlen Hadj]. split; [done|].
  apply (adjacent_lookup linked path Hadj).
Qed.

(** X7, in which direction a connection was checked (lines 211,
    227-256): the path recorded by a connecting iteration is a start
    part followed by a goal part. Each step of the start part has passed
    [checkMotion] in the direction of the path, each step of the goal
    part in the opposite direction (from the goal root towards the
    bridge). The step between the two parts and the pair of the path's
    first and last state were tested with the new motion first: from
    start to goal when the start tree was expanded, from goal to start
    when the goal tree was. *)
Theorem connection_pairing (s s' : LoopState State W) side m n :
  Sound (planner s) →
  iteration s = Some (Connected side m n, s') →
  ∃ pre post a b first lst,
    solutionPaths (planner s') = solutionPaths (planner s) ++ [pre ++ post]
    ∧ adjacent (λ x y, checkMotion x y = true) pre
    ∧ adjacent (λ x y, checkMotion y x = true) post
    ∧ last pre = Some a ∧ head post = Some b
    ∧ head (pre ++ post) = Some first ∧ last (pre ++ post) = Some lst
    ∧ match side with
      | StartSide =>
          checkMotion a b = true ∧ isStartGoalPairValid first lst = true
      | GoalSide =>
          checkMotion b a = true ∧ isStartGoalPairValid lst first = true
      end.
Proof.
  intros Hs Hit. apply iteration_inv in Hit as (p & w & Hrep & Hcase).
  destruct (replenish_frame _ _ _ _ Hrep) as (Hsol & _).
  apply replenish_sound in Hrep; [|done].
  destruct Hcase as (-> & _ & existing & em & x & w2 & w3 & t & seen & p'
                     & Hpick & _ & Hcm & -> & Hadd & Hcon & ->).
  apply pickCandidate_existing in Hpick. simpl in Hpick.
  set (side := sideOf (startTree s)) in *.
  destruct (neighbors_valid side p x (nbrhoodRadius_ p) (Sound_wf _ Hrep))
    as [Hnd Hall].
  destruct (insert_sound side (mkMotion x (Some existing) (root em) None) _ t p
              Hrep Hnd Hall) as [Hs1 Hms]; [|done|].
  { unfold fits. simpl. by exists em. }
  destruct Hs1 as (_ & Hfit1 & _).
  assert (Hmm : motionsOf side (setTree side t p) !! length (motionsOf side p)
                = Some (setElement (mkMotion x (Some existing) (root em) None)
                          (length (motionsOf side p)))).
  { rewrite motionsOf_setTree_same, Hms. by apply list_lookup_middle. }
  destruct (connect_path side _ (mkMotion x (Some existing) (root em) None)
              _ _ _ _ _ Hfit1 Hmm eq_refl eq_refl Hcon)
    as (pre & post & a & b & first & lst & -> & Hrest).
  exists pre, post, a, b, first, lst. split; [|done]. simpl.
  unfold recordSolution. simpl. by rewrite solutionPaths_setTree, Hsol.
Qed.

(** ** Properties of a call of [solve] *)

(** X8, no invalid pointer and no failed assertion (lines 129-137,
    191-192, 275-290): whatever its collaborators answer, a call of
    [solve] on a reachable planner never looks up a motion, a sampler
    element or a neighbor that does not exist, and the [assert] on the
    sampled motion never fails. *)
Theorem solve_never_aborts fuel (p : Planner State) (w : W) :
  Reachable (W:=W) p → solve fuel p w ≠ Aborted.
Proof.
  intros Hr. apply Reachable_wf, checkValidity_wf in Hr. unfold solve.
  destruct (goalIsSampleable w); simpl; [|done].
  destruct (nextStarts w) as [sts w1].
  destruct (seedStarts_wf sts _ Hr) as (p1 & -> & Hwf1 & _).
  destruct (length (startMotions_ p1) =? 0) eqn:Hlen; [done|].
  destruct (couldSample w1); simpl; [|done].
  destruct (mainLoop_safe fuel (mkLoop p1 w1 true false)) as [Hsafe _].
  - done.
  - simpl. intros Hnil. apply length_zero_iff in Hnil. congruence.
  - by destruct (mainLoop fuel _) as [[sf os]| |].
Qed.

(** X9, what [solve] never does (lines 116-273): a call that returns
    has only appended to the two motion vectors and to the recorded
    paths. No motion that was there is removed, moved or altered, no
    recorded path is lost, and the range and the neighborhood radius are
    those [checkValidity] left at the entry; the planner is set up
    afterwards. *)
Theorem solve_extends fuel (p : Planner State) (w : W) r :
  solve fuel p w = Finished r →
  (∀ sd, motionsOf sd p `prefix_of` motionsOf sd (after r))
  ∧ solutionPaths p `prefix_of` solutionPaths (after r)
  ∧ maxDistance_ (after r) = maxDistance_ (checkValidity p)
  ∧ nbrhoodRadius_ (after r) = nbrhoodRadius_ (checkValidity p)
  ∧ setup_ (after r) = true.
Proof.
  intros Hsolve.
  destruct (checkValidity_trees p) as (Htrees & Hsol & _ & Hset).
  assert (Hext : extends (checkValidity p) (after r)).
  { apply solve_cases in Hsolve
      as [[_ ->]|(_ & p1 & Hseed & [(_ & -> & _)|(sf & Hloop & _ & -> & _)])].
    - apply extends_refl.
    - by apply seedStarts_extends in Hseed as (Hext & _).
    - apply seedStarts_extends in Hseed as (Hext & _).
      apply mainLoop_effect in Hloop as (Hext' & _).
      by eapply extends_trans. }
  destruct Hext as (Hpre & Hpaths & Hd & Hrad & Hsetup).
  split; [|split; [by rewrite <- Hsol|]].
  - intros sd. specialize (Hpre sd). unfold motionsOf in *.
    by rewrite Htrees in Hpre.
  - split; [done|]. split; [done|]. congruence.
Qed.

(** X10, how many motions a call creates (lines 129-137, 165-176,
    213-220): after a call that returns, the start tree holds the
    motions it held before, one root for each state [nextStart] yielded
    (none when the goal is of the wrong kind, the states then not being
    asked for), and one motion for each iteration that expanded the
    start tree as far as the insertion. The goal tree has gained at most
    one root per iteration, by the replenishment, and one motion for
    each iteration that expanded it as far as the insertion. *)
Theorem solve_motion_count fuel (p : Planner State) (w : W) r :
  solve fuel p w = Finished r →
  length (startMotions_ (after r))
  = length (startMotions_ p)
    + (if goalIsSampleable w then length (nextStarts w).1 else 0)
    + length (filter (insertsOn StartSide) (outcomes r))
  ∧ length (goalMotions_ (after r))
    ≤ length (goalMotions_ p) + length (outcomes r)
      + length (filter (insertsOn GoalSide) (outcomes r)).
Proof.
  intros Hsolve.
  destruct (checkValidity_trees p) as (Htrees & _).
  assert (Hst : startMotions_ (checkValidity p) = startMotions_ p)
    by (by injection (Htrees StartSide) as -> _ _).
  assert (Hgl : goalMotions_ (checkValidity p) = goalMotions_ p)
    by (by injection (Htrees GoalSide) as -> _ _).
  apply solve_cases in Hsolve
    as [[-> ->]|(-> & p1 & Hseed & [(-> & -> & _)|(sf & Hloop & _ & -> & _)])];
    simpl.
  - rewrite Hst, Hgl. lia.
  - apply seedStarts_extends in Hseed as (_ & Hlen & Hgoal & _).
    rewrite Hlen, Hgoal, Hst, Hgl. lia.
  - apply seedStarts_extends in Hseed as (_ & Hlen & Hgoal & _).
    apply mainLoop_effect in Hloop as (_ & Hlen' & Hgoal'). simpl in *.
    rewrite Hlen', Hlen, Hst. split; [lia|]. rewrite <- Hgl, <- Hgoal. lia.
Qed.

(** X11, the solution record (lines 230, 258, 272): a call that returns
    EXACT_SOLUTION has appended exactly one path to the recorded paths,
    its last iteration is the connecting one, and the connection point
    holds first the state of the motion that iteration inserted, which
    belongs to the tree that was being expanded, and second the state of
    the neighbor in the other tree. A call that returns any other status
    leaves the recorded paths and the connection point as they were. *)
Theorem solve_solution_record fuel (p : Planner State) (w : W) r :
  solve fuel p w = Finished r →
  (status r = EXACT_SOLUTION →
     ∃ sd m n path,
       last (outcomes r) = Some (Connected sd m n)
       ∧ solutionPaths (after r) = solutionPaths p ++ [path]
       ∧ connectionPoint_ (after r)
         = (Some (StateOf sd m), Some (StateOf (otherSide sd) n)))
  ∧ (status r ≠ EXACT_SOLUTION →
       solutionPaths (after r) = solutionPaths p
       ∧ connectionPoint_ (after r) = connectionPoint_ p).
Proof.
  intros Hsolve.
  destruct (checkValidity_trees p) as (_ & Hsol & Hcp & _).
  apply solve_cases in Hsolve
    as [[_ ->]|(_ & p1 & Hseed & [(_ & -> & Hst)|(sf & Hloop & _ & -> & Hst)])];
    simpl.
  - split; [done|]. by rewrite Hsol, Hcp.
  - apply seedStarts_extends in Hseed as (_ & _ & _ & Hcp1 & Hsol1).
    split; [by destruct Hst as [-> | ->]|]. intros _. split; congruence.
  - apply seedStarts_extends in Hseed as (_ & _ & _ & Hcp1 & Hsol1).
    apply mainLoop_record in Hloop; [|done]. simpl in Hloop.
    rewrite Hst. destruct (solved sf).
    + split; [|done]. intros _.
      destruct Hloop as (sd & m & n & path & Hlast & Hpaths & Hconn).
      exists sd, m, n, path. split; [done|]. split; congruence.
    + split; [done|]. intros _. destruct Hloop as [Hpaths Hconn].
      split; congruence.
Qed.

(** X12, the empty goal tree (lines 165-182): the loop is left by the
    [break] of line 181 only in its first iteration. If a call ends on
    an empty goal tree, that iteration was its only one, the planner had
    no goal motion when the call began and has none afterwards, and the
    status is TIMEOUT. *)
Theorem goal_tree_empty_alone fuel (p : Planner State) (w : W) r :
  solve fuel p w = Finished r →
  GoalTreeEmpty ∈ outcomes r →
  outcomes r = [GoalTreeEmpty]
  ∧ goalMotions_ p = []
  ∧ goalMotions_ (after r) = []
  ∧ status r = TIMEOUT.
Proof.
  intros Hsolve Hin.
  destruct (checkValidity_trees p) as (Htrees & _).
  assert (Hgl : goalMotions_ (checkValidity p) = goalMotions_ p)
    by (by injection (Htrees GoalSide) as -> _ _).
  apply solve_cases in Hsolve
    as [[_ ->]|(_ & p1 & Hseed & [(Hnil & _)|(sf & Hloop & _ & -> & Hst)])].
  - by apply elem_of_nil in Hin.
  - rewrite Hnil in Hin. by apply elem_of_nil in Hin.
  - apply seedStarts_extends in Hseed as (_ & _ & Hgoal & _).
    destruct (mainLoop_goal_empty _ _ _ _ Hloop Hin)
      as (Hos & Hempty & Hempty0 & Hsolved).
    simpl in *. split; [done|]. split; [congruence|]. split; [done|].
    by rewrite Hst, Hsolved.
Qed.

(** X13, a scan that connects nothing (lines 224-261): after an
    insertion, no neighbor of the other tree passes both tests exactly
    when the scan looks at every neighbor, in the order reported, and
    leaves the planner as it is, with no connection point set and no
    path recorded. *)
Theorem connect_unconnected side m (motion : Motion State) p :
  wfPlanner p →
  let neighbors :=
    nearestR (nnOf (otherSide side) p) (state motion) (maxDistance_ p) in
  (∀ n nm, n ∈ neighbors → motionsOf (otherSide side) p !! n = Some nm →
     accepts motion nm = false)
  ↔ connect side m motion p = Some (neighbors, None, p).
Proof.
  intros Hwf neighbors. split.
  - intros Hrej. unfold connect. fold neighbors.
    rewrite (connectScan_none motion (motionsOf (otherSide side) p) neighbors);
      [done|].
    destruct (neighbors_valid (otherSide side) p (state motion)
                (maxDistance_ p) Hwf) as [_ Hall].
    fold neighbors in Hall. rewrite Forall_forall in Hall.
    apply Forall_forall. intros n Hn.
    destruct (lookup_lt_is_Some_2 _ n (Hall n Hn)) as [nm Hnm].
    exists nm. split; [done|]. by eapply Hrej.
  - intros Hcon n nm Hn Hnm. apply connect_scan in Hcon.
    apply connectScan_rejects in Hcon as [_ Hall].
    rewrite Forall_forall in Hall.
    destruct (Hall n Hn) as (nm' & Hnm' & Hacc). congruence.
Qed.

(** X14, the seeding of the start tree (lines 129-137): each state
    [nextStart] yields becomes a root of the start tree, a motion
    without parent whose root is its own state, appended in the order
    the states come and holding the handle of its position; the goal
    tree, the connection point and the recorded paths are not
    touched. *)
Theorem seedStarts_roots sts : ∀ p : Planner State,
  wfPlanner p →
  ∃ p',
    seedStarts sts p = Some p'
    ∧ startMotions_ p'
      = startMotions_ p ++ rootMotions (length (startMotions_ p)) sts
    ∧ treeOf GoalSide p' = treeOf GoalSide p
    ∧ connectionPoint_ p' = connectionPoint_ p
    ∧ solutionPaths p' = solutionPaths p.
Proof.
  unfold rootMotions.
  induction sts as [|st rest IH]; intros p Hwf; simpl.
  - exists p. by rewrite app_nil_r.
  - destruct (insertRoot_wf StartSide st p Hwf) as (t & Hins & Hms & Hwf').
    rewrite Hins. simpl.
    destruct (insertRoot_frame _ _ _ _ Hins) as (Hsol & Hcp & _ & _ & Hgoal).
    destruct (IH _ Hwf') as (p' & -> & Hms' & Hgoal' & Hcp' & Hsol').
    exists p'. split; [done|].
    change (startMotions_ (setTree StartSide t p)) with t.1.1 in Hms'.
    rewrite Hms in Hms'. unfold motionsOf in Hms'. simpl in Hms'.
    split; [|split; [|split]]; [|etrans; [exact Hgoal'|exact Hgoal]|congruence..].
    rewrite Hms', <- app_assoc, length_app. simpl. rewrite Nat.add_0_r.
    f_equal. f_equal. apply imap_ext. intros i x _. simpl.
    do 2 f_equal. lia.
Qed.

(** ** The weights as local densities *)

Lemma nearestR_within (motions : list (Motion State)) q r i m :
  motions !! i = Some m →
  i ∈ nearestR (imap (λ i m, (i, state m)) motions) q r
  ↔ PrimFloat.leb (distance (state m) q) r = true.
Proof.
  intros Hm. rewrite nearestR_perm, list_elem_of_fmap. split.
  - intros ([j st] & -> & Hin). apply list_elem_of_filter in Hin as [Hw Hin].
    apply elem_of_lookup_imap in Hin as (j' & m' & Heq & Hm').
    injection Heq as -> ->. simpl in Hm. rewrite Hm in Hm'.
    injection Hm' as <-. unfold withinR in Hw. simpl in Hw.
    by apply Is_true_true.
  - intros Hq. exists (i, state m). split; [done|].
    apply list_elem_of_filter. split.
    + unfold withinR. simpl. by apply Is_true_true.
    + apply elem_of_lookup_imap. by exists i, m.
Qed.

Lemma foundNear_snoc_old r (motions : list (Motion State)) mx i x :
  i < length motions →
  foundNear r (motions ++ [mx]) i x = foundNear r motions i x.
Proof. intros Hi. unfold foundNear. by rewrite take_app_le by lia. Qed.

Lemma arrivedNear_snoc_old r (motions : list (Motion State)) mx i x :
  i < length motions →
  arrivedNear r (motions ++ [mx]) i x
  = arrivedNear r motions i x
    + (if PrimFloat.leb (distance x (state mx)) r then 1 else 0).
Proof.
  intros Hi. unfold arrivedNear.
  rewrite drop_app_le by lia.
  rewrite filter_app, length_app, filter_cons, filter_nil.
  case_decide as Hd; destruct (PrimFloat.leb (distance x (state mx)) r);
    simpl; try lia; by destruct Hd.
Qed.

Lemma foundNear_snoc_new r (motions : list (Motion State)) mx x :
  foundNear r (motions ++ [mx]) (length motions) x
  = length (filter (λ m, PrimFloat.leb (distance (state m) x) r) motions).
Proof. unfold foundNear. by rewrite take_app_length. Qed.

Lemma arrivedNear_snoc_new r (motions : list (Motion State)) mx x :
  arrivedNear r (motions ++ [mx]) (length motions) x = 0.
Proof.
  unfold arrivedNear.
  by rewrite drop_ge by (rewrite length_app; simpl; lia).
Qed.

Lemma near_bounded r (motions : list (Motion State)) i x :
  i < length motions →
  foundNear r motions i x + arrivedNear r motions i x < length motions.
Proof.
  intros Hi. unfold foundNear, arrivedNear.
  pose proof (length_filter
                (λ m : Motion State, PrimFloat.leb (distance (state m) x) r)
                (take i motions)) as Hf.
  pose proof (length_filter
                (λ m : Motion State, PrimFloat.leb (distance x (state m)) r)
                (drop (S i) motions)) as Ha.
  rewrite length_take in Hf. rewrite length_drop in Ha. lia.
Qed.

Lemma addMotion_density r motion motions pdf nn (t : Tree State) :
  wfTree (motions, pdf, nn) → densityTree r (motions, pdf, nn) →
  addMotion motion motions pdf nn (nearestR nn (state motion) r) = Some t →
  densityTree r t.
Proof.
  intros Hwf Hd Hadd.
  destruct (wfTree_neighbors _ (state motion) r Hwf) as [Hnd Hall].
  simpl in Hnd, Hall.
  apply addMotion_shape in Hadd as (pdf1 & Hup & ->).
  pose proof (wfTree_length_pdf _ Hwf) as Hlen. simpl in Hlen.
  destruct Hwf as (Hel & _ & Hnn). simpl in Hel, Hnn.
  assert (Hh : handles motions (nearestR nn (state motion) r)
               = Some (nearestR nn (state motion) r)).
  { apply handles_wf; [|done]. intros i m Hi. by apply (Hel i m). }
  destruct (updateNeighbors_weights motions _ pdf _ Hh Hnd)
    as (pdf' & Hup' & Hlen' & _ & Hin & Hout).
  { by rewrite Hlen. }
  rewrite Hup in Hup'. injection Hup' as <-.
  unfold densityTree in *. simpl in *. intros i m w Hm.
  destruct (decide (i < length motions)) as [Hlt|Hge].
  - rewrite lookup_app_l in Hm by done.
    unfold PDF.getWeight at 1. rewrite lookup_app_l by lia.
    fold (PDF.getWeight pdf1 i). intros Hgw.
    rewrite foundNear_snoc_old, arrivedNear_snoc_old by done. simpl.
    destruct (getWeight_lt pdf i) as [w0 Hw0]; [lia|].
    pose proof (Hd i m w0 Hm Hw0) as Hq.
    pose proof (nearestR_within motions (state motion) r i m Hm) as Hnear.
    rewrite <- Hnn in Hnear.
    destruct (PrimFloat.leb (distance (state m) (state motion)) r) eqn:Hdist.
    + rewrite (Hin i w0 (proj2 Hnear eq_refl) Hw0) in Hgw.
      injection Hgw as <-. rewrite Nat.add_1_r. simpl. by rewrite <- Hq.
    + rewrite Hout in Hgw.
      * rewrite Hw0 in Hgw. injection Hgw as <-. by rewrite Nat.add_0_r.
      * intros Hi. apply Hnear in Hi. done.
  - apply lookup_app_Some in Hm as [Hm|[_ Hm]].
    { apply lookup_lt_Some in Hm. lia. }
    apply list_lookup_singleton_Some in Hm as [Hi <-].
    assert (i = length motions) as -> by lia.
    unfold PDF.getWeight. rewrite lookup_app_r by lia.
    rewrite Hlen', Hlen, Nat.sub_diag. simpl. intros [= <-].
    rewrite foundNear_snoc_new, arrivedNear_snoc_new. simpl.
    assert (Hk : length (nearestR nn (state motion) r)
                 = length (filter (λ m, PrimFloat.leb
                                          (distance (state m) (state motion)) r)
                             motions)).
    { rewrite nearestR_length, Hnn.
      apply (filter_index_length (state motion) r motions (λ j, j)). }
    by rewrite Hk.
Qed.

Lemma densityOK_setTree s (t : Tree State) p :
  densityOK p → densityTree (nbrhoodRadius_ p) t → densityOK (setTree s t p).
Proof.
  intros Hd Ht sd.
  assert (Hr : nbrhoodRadius_ (setTree s t p) = nbrhoodRadius_ p)
    by (by destruct s).
  rewrite Hr. destruct (side_cases s sd) as [->| ->].
  - by rewrite treeOf_setTree_same.
  - rewrite treeOf_setTree_other. apply Hd.
Qed.

Lemma insertRoot_density s st (p p' : Planner State) :
  wfPlanner p → densityOK p → insertRoot s st p = Some p' → densityOK p'.
Proof.
  intros Hwf Hd Hins. unfold insertRoot in Hins.
  destruct (addMotion _ _ _ _ _) as [t|] eqn:Hadd; simpl in Hins; [|done].
  injection Hins as <-. apply densityOK_setTree; [done|].
  pose proof (wfPlanner_tree s p Hwf) as Ht. rewrite treeOf_eta in Ht.
  eapply (addMotion_density _ (mkMotion st None st None)); [exact Ht| |exact Hadd].
  specialize (Hd s). by rewrite treeOf_eta in Hd.
Qed.

Lemma seedStarts_density sts : ∀ p p' : Planner State,
  wfPlanner p → densityOK p → seedStarts sts p = Some p' → densityOK p'.
Proof.
  induction sts as [|st rest IH]; intros p p' Hwf Hd Hseed; simpl in Hseed.
  - by injection Hseed as <-.
  - destruct (insertRoot StartSide st p) as [p1|] eqn:Hins; simpl in Hseed;
      [|done].
    eapply (IH p1); [|by eapply insertRoot_density|exact Hseed].
    destruct (insertRoot_wf StartSide st p Hwf) as (t & Hins' & _ & Hwf').
    congruence.
Qed.

Lemma replenish_density (p p' : Planner State) (w w' : W) :
  wfPlanner p → densityOK p → replenish p w = Some (p', w') → densityOK p'.
Proof.
  intros Hwf Hd Hrep.
  apply replenish_cases in Hrep as [->|(st & _ & _ & Hins)]; [done|].
  by eapply insertRoot_density.
Qed.

Lemma densityOK_trees (p p' : Planner State) :
  densityOK p →
  (∀ sd, treeOf sd p' = treeOf sd p) →
  nbrhoodRadius_ p' = nbrhoodRadius_ p →
  densityOK p'.
Proof. intros Hd Htrees Hr sd. rewrite Hr, Htrees. apply Hd. Qed.

Lemma iteration_density (s s' : LoopState State W) o :
  wfPlanner (planner s) → densityOK (planner s) →
  iteration s = Some (o, s') → densityOK (planner s').
Proof.
  intros Hwf Hd Hit. apply iteration_inv in Hit as (p & w & Hrep & Hcase).
  pose proof (replenish_density _ _ _ _ Hwf Hd Hrep) as Hdp.
  pose proof (replenish_keeps_wf _ _ _ _ Hwf Hrep) as Hwfp.
  unfold iterationCase in Hcase.
  assert (Hins : ∀ m existing em x t seen found p',
    addMotion (mkMotion x (Some existing) (root em) None)
      (motionsOf (sideOf (startTree s)) p) (pdfOf (sideOf (startTree s)) p)
      (nnOf (sideOf (startTree s)) p)
      (nearestR (nnOf (sideOf (startTree s)) p) x (nbrhoodRadius_ p)) = Some t →
    connect (sideOf (startTree s)) m (mkMotion x (Some existing) (root em) None)
      (setTree (sideOf (startTree s)) t p) = Some (seen, found, p') →
    densityOK p').
  { intros m existing em x t seen found p' Hadd Hcon.
    assert (Hd1 : densityOK (setTree (sideOf (startTree s)) t p)).
    { apply densityOK_setTree; [done|].
      pose proof (wfPlanner_tree (sideOf (startTree s)) p Hwfp) as Ht.
      rewrite treeOf_eta in Ht.
      eapply (addMotion_density _ (mkMotion x (Some existing) (root em) None));
        [exact Ht| |exact Hadd].
      specialize (Hdp (sideOf (startTree s))). by rewrite treeOf_eta in Hdp. }
    apply connect_inv in Hcon. destruct found as [n|].
    - destruct Hcon as (_ & path & _ & ->).
      apply (densityOK_trees (setTree (sideOf (startTree s)) t p)); [done| |done].
      intros sd. apply treeOf_recordSolution.
    - by subst. }
  destruct o as [|sd|sd|sd|sd m|sd m n].
  - by destruct Hcase as [_ ->].
  - by destruct Hcase as (_ & _ & existing & em & w2 & _ & ->).
  - by destruct Hcase as (_ & _ & existing & em & x & w2 & w3 & _ & _ & ->).
  - by destruct Hcase
      as (_ & _ & existing & em & x & w2 & w3 & _ & _ & _ & ->).
  - destruct Hcase as (_ & _ & existing & em & x & w2 & w3 & t & seen & p'
                       & _ & _ & _ & _ & Hadd & Hcon & ->).
    simpl. eapply Hins; eauto.
  - destruct Hcase as (_ & _ & existing & em & x & w2 & w3 & t & seen & p'
                       & _ & _ & _ & _ & Hadd & Hcon & ->).
    simpl. eapply Hins; eauto.
Qed.

Lemma mainLoop_density fuel : ∀ (s sf : LoopState State W) os,
  wfPlanner (planner s) → startMotions_ (planner s) ≠ [] →
  densityOK (planner s) →
  mainLoop fuel s = Finished (sf, os) →
  densityOK (planner sf).
Proof.
  induction fuel as [|fuel IH]; intros s sf os Hwf Hne Hd Hloop;
    apply mainLoop_inv in Hloop
      as [(_ & -> & _)|(_ & fuel' & o & s' & Hfuel & Hit & Hrest)];
    try done.
  injection Hfuel as <-.
  pose proof Hit as Hd'. apply iteration_density in Hd'; [|done..].
  apply iteration_keeps_wf in Hit as [Hwf' Hne']; [|done..].
  destruct Hrest as [(_ & -> & _)|(_ & os' & Hloop & _)]; [done|].
  by eapply IH.
Qed.

(** The invariant of the planners of [Steady]. *)
Lemma solve_density fuel (p : Planner State) (w : W) r :
  wfPlanner p → densityOK p →
  setup_ p = true ∨ (∀ sd, motionsOf sd p = []) →
  solve fuel p w = Finished r →
  densityOK (after r) ∧ setup_ (after r) = true.
Proof.
  intros Hwf Hd Hset Hsolve.
  assert (Hd0 : densityOK (checkValidity p)).
  { destruct Hset as [Hset|Hnil].
    - unfold checkValidity. by rewrite Hset.
    - intros sd i m w0 Hm.
      destruct (checkValidity_trees p) as (Htrees & _).
      rewrite Htrees in Hm. fold (motionsOf sd p) in Hm.
      by rewrite Hnil in Hm. }
  pose proof (checkValidity_wf _ Hwf) as Hwf0.
  destruct (checkValidity_trees p) as (_ & _ & _ & Hs0).
  apply solve_cases in Hsolve
    as [[_ ->]|(_ & p1 & Hseed & [(_ & -> & _)|(sf & Hloop & Hne & -> & _)])].
  - done.
  - pose proof (seedStarts_extends _ _ _ Hseed) as ((_ & _ & _ & _ & Hs) & _).
    split; [by eapply seedStarts_density|congruence].
  - pose proof (seedStarts_extends _ _ _ Hseed) as ((_ & _ & _ & _ & Hs) & _).
    pose proof (mainLoop_effect _ _ _ _ Hloop) as ((_ & _ & _ & _ & Hs') & _).
    simpl in Hs'. split; [|congruence].
    eapply mainLoop_density; [| | |exact Hloop]; simpl; try done.
    + by eapply seedStarts_keeps_wf.
    + by eapply seedStarts_density.
Qed.

Lemma configured_trees junk ops sd :
  treeOf sd (configured (State:=State) junk ops) = ([], [], []).
Proof.
  unfold configured. induction ops as [|op ops IH] using rev_ind.
  - by destruct sd.
  - rewrite foldl_snoc. destruct op as [d| |]; simpl.
    + rewrite <- IH. by destruct sd.
    + rewrite <- IH. unfold setup. by destruct (PrimFloat.ltb _ _), sd.
    + by destruct sd.
Qed.

Lemma densityOK_empty (p : Planner State) :
  (∀ sd, motionsOf sd p = []) → densityOK p.
Proof.
  intros Hnil sd i m w Hm. fold (motionsOf sd p) in Hm. by rewrite Hnil in Hm.
Qed.

Lemma Steady_inv (p : Planner State) :
  Steady (W:=W) p →
  wfPlanner p ∧ densityOK p ∧ (setup_ p = true ∨ ∀ sd, motionsOf sd p = []).
Proof.
  induction 1 as [junk ops|p _ IH|p fuel w r _ IH Hsolve].
  - assert (Hnil : ∀ sd, motionsOf sd (configured (State:=State) junk ops) = []).
    { intros sd. unfold motionsOf. by rewrite configured_trees. }
    split; [apply configured_wf|]. split; [by apply densityOK_empty|by right].
  - destruct IH as (Hwf & _).
    assert (Hnil : ∀ sd, motionsOf sd (clear p) = []) by (by intros []).
    split; [by apply (applyOp_wf p Clear)|].
    split; [by apply densityOK_empty|by right].
  - destruct IH as (Hwf & Hd & Hset).
    destruct (solve_density _ _ _ _ Hwf Hd Hset Hsolve) as [Hd' Hset'].
    split; [by eapply solve_wf|]. split; [done|by left].
Qed.

(** X15, the weights follow the local densities (lines 135, 174, 200,
    220, 280-287): as long as the range is left alone once the planner
    has been asked to solve (the planner is configured, then only solved
    and cleared), the weight the sampler holds for a motion is the
    double [1. / (f + 1.)] decayed [a] times by [w / (w + 1.)], where
    [f] counts the earlier motions of its tree that were within
    [nbrhoodRadius_] of it when it was inserted and [a] the later ones
    that had it within [nbrhoodRadius_] when they were inserted. In a
    tree of at most 256 motions this weight is within [a + 1] times
    2^-53 of the real one over [f + a + 1], the number of motions so
    counted with the motion itself. *)
Theorem steady_density_weights (p : Planner State) sd i m w :
  Steady (W:=W) p →
  motionsOf sd p !! i = Some m →
  PDF.getWeight (pdfOf sd p) i = Some w →
  let f := foundNear (nbrhoodRadius_ p) (motionsOf sd p) i (state m) in
  let a := arrivedNear (nbrhoodRadius_ p) (motionsOf sd p) i (state m) in
  w = Nat.iter a (λ w, w / (w + 1))%float
        (1 / (toDouble (Z.of_nat f) + 1))%float
  ∧ (length (motionsOf sd p) ≤ 256 →
     (Qabs (realValue w - 1 / inject_Z (Z.of_nat (f + a + 1)))
      <= inject_Z (Z.of_nat (a + 1)) * 2 ^ (-53))%Q).
Proof.
  intros Hs Hm Hw f a. apply Steady_inv in Hs as (_ & Hd & _).
  pose proof (Hd sd i m w Hm Hw) as Hq. fold (motionsOf sd p) in Hq.
  fold f a in Hq. split; [exact Hq|]. intros Hlen.
  pose proof (near_bounded (nbrhoodRadius_ p) (motionsOf sd p) i (state m)
                (lookup_lt_Some _ _ _ Hm)) as Hfa.
  fold f a in Hfa.
  assert (Hb : f + a < 256) by lia.
  destruct (weightsChecked_family 256 f a weights_checked Hb)
    as (_ & _ & Hn).
  apply nearReciprocal_facts in Hn as (_ & Hclose).
  rewrite Hq.
  replace (f + a + 1) with (S (f + a)) by lia.
  replace (a + 1) with (S a) by lia. exact Hclose.
Qed.

(** ** The marks of the exported graph *)

Lemma rootPositions_snoc (motions : list (Motion State)) m :
  rootPositions (motions ++ [m])
  = rootPositions motions
    ++ match parent m with None => [length motions] | Some _ => [] end.
Proof.
  unfold rootPositions. rewrite indexed_snoc, omap_app. simpl.
  by destruct (parent m).
Qed.

Lemma elem_of_rootPositions (motions : list (Motion State)) i :
  i ∈ rootPositions motions ↔ ∃ m, motions !! i = Some m ∧ parent m = None.
Proof.
  induction motions as [|m motions IH] using rev_ind.
  - split; [by intros ?%elem_of_nil|by intros (? & ? & _)].
  - rewrite rootPositions_snoc, elem_of_app, IH. split.
    + intros [(m' & Hm' & Hp)|Hin].
      * exists m'. split; [by apply lookup_app_l_Some|done].
      * destruct (parent m) eqn:Hp; [by apply elem_of_nil in Hin|].
        apply list_elem_of_singleton in Hin as ->. exists m.
        split; [|done]. by rewrite lookup_app_r, Nat.sub_diag.
    + intros (m' & Hm' & Hp).
      apply lookup_app_Some in Hm' as [Hm'|[Hge Hm']]; [left; eauto|].
      right. apply list_lookup_singleton_Some in Hm' as [Hi <-].
      rewrite Hp. apply list_elem_of_singleton. lia.
Qed.

Lemma addVertex_marks d v :
  PlannerData.startVertices (PlannerData.addVertex d v).1
  = PlannerData.startVertices d
  ∧ PlannerData.goalVertices (PlannerData.addVertex d v).1
    = PlannerData.goalVertices d.
Proof. unfold PlannerData.addVertex. by repeat case_match. Qed.

Lemma addEdgeAt_marks d v1 v2 :
  PlannerData.startVertices (PlannerData.addEdgeAt d v1 v2)
  = PlannerData.startVertices d
  ∧ PlannerData.goalVertices (PlannerData.addEdgeAt d v1 v2)
    = PlannerData.goalVertices d.
Proof. unfold PlannerData.addEdgeAt. by repeat case_match. Qed.

Lemma addEdge_marks d v1 v2 :
  PlannerData.startVertices (PlannerData.addEdge d v1 v2)
  = PlannerData.startVertices d
  ∧ PlannerData.goalVertices (PlannerData.addEdge d v1 v2)
    = PlannerData.goalVertices d.
Proof.
  unfold PlannerData.addEdge.
  destruct (addVertex_marks d v1) as [Hs1 Hg1].
  destruct (PlannerData.addVertex d v1) as [d1 i1]. simpl in *.
  destruct (addVertex_marks d1 v2) as [Hs2 Hg2].
  destruct (PlannerData.addVertex d1 v2) as [d2 i2]. simpl in *.
  destruct i1, i2; try (split; congruence).
  destruct (addEdgeAt_marks d2 (Some n) (Some n0)) as [Hs3 Hg3].
  split; congruence.
Qed.

Lemma exportStart_marks d motions (m : Motion State) :
  PlannerData.vertices d = allVerts (length motions) 0 →
  PlannerData.startVertices (exportStart d (length motions, m))
  = PlannerData.startVertices d
    ++ match parent m with None => [length motions] | Some _ => [] end
  ∧ PlannerData.goalVertices (exportStart d (length motions, m))
    = PlannerData.goalVertices d.
Proof.
  intros Hv. unfold exportStart. simpl.
  destruct (parent m) as [q|].
  - rewrite app_nil_r. apply addEdge_marks.
  - pose proof (vertexIndex_start d _ _ (length motions) Hv) as Hnew.
    rewrite decide_False in Hnew by lia.
    unfold PlannerData.addStartVertex. rewrite (addVertex_new _ _ _ Hnew).
    simpl. unfold PlannerData.numVertices.
    rewrite Hv, allVerts_length, Nat.add_0_r. done.
Qed.

Lemma exportGoal_marks d ns motions (m : Motion State) :
  PlannerData.vertices d = allVerts ns (length motions) →
  PlannerData.startVertices (exportGoal d (length motions, m))
  = PlannerData.startVertices d
  ∧ PlannerData.goalVertices (exportGoal d (length motions, m))
    = PlannerData.goalVertices d
      ++ match parent m with None => [ns + length motions] | Some _ => [] end.
Proof.
  intros Hv. unfold exportGoal. simpl.
  destruct (parent m) as [q|].
  - rewrite app_nil_r. apply addEdge_marks.
  - pose proof (vertexIndex_goal d _ _ (length motions) Hv) as Hnew.
    rewrite decide_False in Hnew by lia.
    unfold PlannerData.addGoalVertex. rewrite (addVertex_new _ _ _ Hnew).
    simpl. unfold PlannerData.numVertices.
    rewrite Hv, allVerts_length. done.
Qed.

Lemma exportStart_fold_marks (motions : list (Motion State)) :
  (∀ i m, motions !! i = Some m → ∀ q, parent m = Some q → q < i) →
  PlannerData.startVertices
    (foldl exportStart PlannerData.empty (indexed motions))
  = rootPositions motions
  ∧ PlannerData.goalVertices
      (foldl exportStart PlannerData.empty (indexed motions)) = [].
Proof.
  induction motions as [|m motions IH] using rev_ind; intros Hpar; [done|].
  assert (Hpar' : ∀ i m', motions !! i = Some m' →
                    ∀ q, parent m' = Some q → q < i).
  { intros i m' Hm'. apply (Hpar i m'). by apply lookup_app_l_Some. }
  destruct (IH Hpar') as [Hs Hg].
  destruct (exportStart_fold motions Hpar') as [Hv _].
  rewrite indexed_snoc, foldl_snoc, rootPositions_snoc.
  destruct (exportStart_marks _ motions m Hv) as [Hs' Hg'].
  rewrite Hs', Hg', Hs, Hg. done.
Qed.

Lemma exportGoal_fold_marks d0 ns (motions : list (Motion State)) :
  (∀ i m, motions !! i = Some m → ∀ q, parent m = Some q → q < i) →
  PlannerData.vertices d0 = allVerts ns 0 →
  (∀ a b, (a, b) ∈ PlannerData.edges d0 → a < ns) →
  PlannerData.startVertices (foldl exportGoal d0 (indexed motions))
  = PlannerData.startVertices d0
  ∧ PlannerData.goalVertices (foldl exportGoal d0 (indexed motions))
    = PlannerData.goalVertices d0
      ++ ((λ j, ns + j) <$> rootPositions motions).
Proof.
  intros Hpar Hv0 HE. revert Hpar.
  induction motions as [|m motions IH] using rev_ind; intros Hpar.
  { simpl. by rewrite app_nil_r. }
  assert (Hpar' : ∀ i m', motions !! i = Some m' →
                    ∀ q, parent m' = Some q → q < i).
  { intros i m' Hm'. apply (Hpar i m'). by apply lookup_app_l_Some. }
  destruct (IH Hpar') as [Hs Hg].
  destruct (exportGoal_fold d0 ns motions Hpar' Hv0 HE) as [Hv _].
  rewrite indexed_snoc, foldl_snoc, rootPositions_snoc.
  destruct (exportGoal_marks _ ns motions m Hv) as [Hs' Hg'].
  rewrite Hs', Hg', Hs, Hg, fmap_app, <- app_assoc. f_equal. f_equal.
  by destruct (parent m).
Qed.

(** X16, the start and goal marks of the exported graph (lines 298-299
    and 307-308): in the graph [getPlannerData] builds from nothing for
    a planner that satisfies the invariant, the vertices marked as
    starts are exactly the vertices of the start motions without parent,
    and the vertices marked as goals exactly those of the goal motions
    without parent, each once and in the order of its vector; no motion
    with a parent is marked. *)
Theorem getPlannerData_marks (p : Planner State) :
  wfPlanner p →
  let ns := length (startMotions_ p) in
  let d := getPlannerData p PlannerData.empty in
  PlannerData.startVertices d = rootPositions (startMotions_ p)
  ∧ PlannerData.goalVertices d
    = (λ j, ns + j) <$> rootPositions (goalMotions_ p)
  ∧ (∀ i, i ∈ PlannerData.startVertices d
          ↔ ∃ m, startMotions_ p !! i = Some m ∧ parent m = None)
  ∧ (∀ j, ns + j ∈ PlannerData.goalVertices d
          ↔ ∃ m, goalMotions_ p !! j = Some m ∧ parent m = None).
Proof.
  intros (Hs & Hg & _) ns d.
  pose proof (wfTree_parents _ Hs) as Hps.
  pose proof (wfTree_parents _ Hg) as Hpg. simpl in Hps, Hpg.
  destruct (exportStart_fold (startMotions_ p) Hps) as [Hv1 He1].
  destruct (exportStart_fold_marks (startMotions_ p) Hps) as [Hs1 Hg1].
  set (d1 := foldl exportStart PlannerData.empty (indexed (startMotions_ p)))
    in *.
  destruct (exportGoal_fold_marks d1 ns (goalMotions_ p) Hpg Hv1)
    as [Hs2 Hg2].
  { intros a b Hin. rewrite He1 in Hin.
    apply elem_of_startEdges in Hin as (m & Hm & Hpar).
    pose proof (Hps _ _ Hm _ Hpar). apply lookup_lt_Some in Hm. unfold ns. lia. }
  set (d2 := foldl exportGoal d1 (indexed (goalMotions_ p))) in *.
  destruct (addEdgeAt_marks d2
              (PlannerData.vertexIndex d2 (connectionPoint_ p).1)
              (PlannerData.vertexIndex d2 (connectionPoint_ p).2))
    as [Hs3 Hg3].
  assert (Hsd : PlannerData.startVertices d = rootPositions (startMotions_ p))
    by (unfold d, getPlannerData; fold d1; fold d2; congruence).
  assert (Hgd : PlannerData.goalVertices d
                = (λ j, ns + j) <$> rootPositions (goalMotions_ p)).
  { unfold d, getPlannerData. fold d1. fold d2. rewrite Hg3, Hg2, Hg1. done. }
  split; [done|]. split; [done|]. split.
  - intros i. rewrite Hsd. apply elem_of_rootPositions.
  - intros j. rewrite Hgd, <- elem_of_rootPositions.
    rewrite list_elem_of_fmap. split.
    + intros (j' & Hj & Hin). by assert (j = j') as -> by lia.
    + intros Hin. by exists j.
Qed.

(** ** Calling [setup] again *)

(** X17, [setup] twice (lines 62-70): when the range is at least 1e-3,
    or the range that [configurePlannerRange] chooses for it is, a
    second call of [setup] changes nothing. (The guard of line 62 looks
    at the range only, so a self-configured range below 1e-3 would be
    configured again.) *)
Theorem setup_idempotent (p : Planner State) :
  (PrimFloat.ltb (maxDistance_ p) minRange = true →
   PrimFloat.ltb (configurePlannerRange (maxDistance_ p)) minRange = false) →
  setup (setup p) = setup p.
Proof.
  intros Hconf. unfold setup at 2 3.
  destruct (PrimFloat.ltb (maxDistance_ p) minRange) eqn:Hlt.
  - unfold setup. simpl. by rewrite (Hconf eq_refl).
  - unfold setup. simpl. by rewrite Hlt.
Qed.

(** ** The connection point *)

Lemma bridged_extends (p p' : Planner State) :
  bridged p → extends p p' → connectionPoint_ p' = connectionPoint_ p →
  bridged p'.
Proof.
  intros [Hnone|(s & m & n & mm & nm & Hcp & Hmm & Hnm & Hacc)] (Hpre & _) Heq.
  - left. congruence.
  - right. exists s, m, n, mm, nm. split; [congruence|].
    split; [by eapply prefix_lookup_Some; [|apply Hpre]|].
    split; [by eapply prefix_lookup_Some; [|apply Hpre]|done].
Qed.

Lemma iteration_bridged (s s' : LoopState State W) o :
  bridged (planner s) → iteration s = Some (o, s') → bridged (planner s').
Proof.
  intros Hb Hit.
  pose proof (iteration_effect _ _ _ Hit) as (Hext & _ & _ & _ & Hrec).
  destruct (isConnected o) eqn:Hcon.
  2:{ apply (bridged_extends (planner s)); [done..|].
      destruct o; try done; by destruct Hrec. }
  destruct o as [| | | | |sd m n]; try done. clear Hrec Hcon.
  apply iteration_inv in Hit as (p & w & _ & Hcase).
  destruct Hcase as (-> & _ & existing & em & x & w2 & w3 & t & seen & p'
                     & _ & _ & _ & -> & Hadd & Hcon & ->).
  simpl. set (side := sideOf (startTree s)) in *.
  pose proof (connect_scan _ _ _ _ _ _ _ Hcon) as Hscan.
  apply connectScan_accepts in Hscan as (nm & Hnm & Hacc).
  apply connect_inv in Hcon as (_ & path & _ & ->).
  apply addMotion_shape in Hadd as (pdf1 & _ & ->).
  right.
  exists side, (length (motionsOf side p)),  n,
    (setElement (mkMotion x (Some existing) (root em) None) (length pdf1)), nm.
  split; [done|]. rewrite !motionsOf_recordSolution.
  split; [|done]. rewrite motionsOf_setTree_same. simpl.
  by apply list_lookup_middle.
Qed.

Lemma mainLoop_bridged fuel : ∀ (s sf : LoopState State W) os,
  bridged (planner s) → mainLoop fuel s = Finished (sf, os) →
  bridged (planner sf).
Proof.
  induction fuel as [|fuel IH]; intros s sf os Hb Hloop;
    apply mainLoop_inv in Hloop
      as [(_ & -> & _)|(_ & fuel' & o & s' & Hfuel & Hit & Hrest)];
    try done.
  injection Hfuel as <-.
  apply iteration_bridged in Hit; [|done].
  destruct Hrest as [(_ & -> & _)|(_ & os' & Hloop & _)]; [done|].
  by eapply IH.
Qed.

Lemma bridged_trees (p p' : Planner State) :
  bridged p →
  (∀ sd, treeOf sd p' = treeOf sd p) →
  connectionPoint_ p' = connectionPoint_ p →
  bridged p'.
Proof.
  intros [Hnone|(s & m & n & mm & nm & Hcp & Hmm & Hnm & Hacc)] Htrees Heq.
  - left. congruence.
  - right. exists s, m, n, mm, nm. unfold motionsOf. rewrite !Htrees.
    split; [congruence|done].
Qed.

Lemma solve_bridged fuel (p : Planner State) (w : W) r :
  bridged p → solve fuel p w = Finished r → bridged (after r).
Proof.
  intros Hb Hsolve.
  destruct (checkValidity_trees p) as (Htrees & _ & Hcp & _).
  pose proof (bridged_trees p _ Hb Htrees Hcp) as Hb0.
  apply solve_cases in Hsolve
    as [[_ ->]|(_ & p1 & Hseed & [(_ & -> & _)|(sf & Hloop & _ & -> & _)])].
  - done.
  - apply seedStarts_extends in Hseed as (Hext & _ & _ & Hcp1 & _).
    by apply (bridged_extends (checkValidity p)).
  - apply seedStarts_extends in Hseed as (Hext & _ & _ & Hcp1 & _).
    eapply mainLoop_bridged; [|exact Hloop]. simpl.
    by apply (bridged_extends (checkValidity p)).
Qed.

(** X18, the connection point never dangles (lines 48, 96, 227-230): in
    every planner the code can produce, [connectionPoint_] is the pair of
    nulls, or it holds the states of two motions that are in the trees,
    one in each, and the first of them passed both tests of the scan
    against the second: [isStartGoalPairValid] on their roots and
    [checkMotion] on their states, taken in that order. *)
Theorem reachable_connection_checked (p : Planner State) :
  Reachable (W:=W) p →
  connectionPoint_ p = (None, None)
  ∨ ∃ s m n mm nm,
      connectionPoint_ p = (Some (StateOf s m), Some (StateOf (otherSide s) n))
      ∧ motionsOf s p !! m = Some mm
      ∧ motionsOf (otherSide s) p !! n = Some nm
      ∧ isStartGoalPairValid (root mm) (root nm) = true
      ∧ checkMotion (state mm) (state nm) = true.
Proof.
  intros Hr.
  assert (Hb : bridged p).
  { induction Hr as [junk|p op _ IH|p fuel w r _ IH Hsolve].
    - by left.
    - destruct op as [d| |]; simpl.
      + apply (bridged_trees p); [done|by intros []|done].
      + apply (bridged_trees p); [done| |].
        * intros []; unfold setup; by destruct (PrimFloat.ltb _ _).
        * unfold setup; by destruct (PrimFloat.ltb _ _).
      + by left.
    - by eapply solve_bridged. }
  destruct Hb as [Hnone|(s & m & n & mm & nm & Hcp & Hmm & Hnm & Hacc)];
    [by left|].
  right. exists s, m, n, mm, nm. apply andb_true_iff in Hacc as [Hp Hc]. done.
Qed.

(** ** The status and the bridging connection *)

(** An iteration connects the two trees exactly when the motion it
    inserts has an acceptable neighbor in the other tree. *)
Lemma iteration_bridges (b s' : LoopState State W) o :
  iteration b = Some (o, s') → (isConnected o = true ↔ bridges b).
Proof.
  intros Hit. apply iteration_inv in Hit as (p & w & Hrep & Hcase).
  unfold iterationCase in Hcase. split.
  - intros Hcon. destruct o as [|sd|sd|sd|sd m|sd m n]; try done.
    destruct Hcase as (_ & Hgoal & existing & em & x & w2 & w3 & t & seen & p'
                       & Hpick & Hrej & Hcm & _ & Hadd & Hconn & _).
    apply connect_scan in Hconn. simpl in Hconn.
    pose proof (connectScan_found _ _ _ _ _ Hconn) as [Hin _].
    destruct (connectScan_accepts _ _ _ _ _ Hconn) as (nm & Hnm & Hacc).
    by exists p, w, existing, em, x, w2, w3, t, n, nm.
  - intros (p0 & w0 & existing & em & x & w2 & w3 & t & n & nm & Hrep0 & Hgoal
            & Hpick & Hrej & Hcm & Hadd & Hin & Hnm & Hacc).
    rewrite Hrep in Hrep0. injection Hrep0 as <- <-.
    destruct o as [|sd|sd|sd|sd m|sd m n'].
    + by destruct Hcase as [Hnil _].
    + destruct Hcase as (_ & _ & ex' & em' & w2' & Hpick' & _).
      rewrite Hpick in Hpick'. done.
    + destruct Hcase as (_ & _ & ex' & em' & x' & w2' & w3' & Hpick' & Hrej'
                         & _).
      rewrite Hpick in Hpick'. simplify_eq. rewrite Hrej in Hrej'. done.
    + destruct Hcase as (_ & _ & ex' & em' & x' & w2' & w3' & Hpick' & _
                         & Hcm' & _).
      rewrite Hpick in Hpick'. simplify_eq. congruence.
    + destruct Hcase as (_ & _ & ex' & em' & x' & w2' & w3' & t' & seen & p'
                         & Hpick' & _ & _ & _ & Hadd' & Hconn & _).
      rewrite Hpick in Hpick'. simplify_eq.
      apply connect_scan in Hconn. simpl in Hconn.
      apply connectScan_rejects in Hconn as [_ Hall].
      rewrite Forall_forall in Hall.
      destruct (Hall n Hin) as (nm' & Hnm' & Hacc').
      rewrite Hnm in Hnm'. simplify_eq. congruence.
    + done.
Qed.

Lemma bodies_stop fuel (s : LoopState State W) :
  (ptc (world s)).1 || solved s = true → bodies fuel s = [].
Proof.
  intros Hstop. destruct fuel; simpl;
    destruct (ptc (world s)) as [stop w]; simpl in *; by rewrite Hstop.
Qed.

Lemma bodies_step fuel (s : LoopState State W) :
  (ptc (world s)).1 || solved s = false →
  let b := mkLoop (planner s) (ptc (world s)).2 (startTree s) (solved s) in
  bodies (S fuel) s
  = b :: match iteration b with
         | Some (GoalTreeEmpty, _) | None => []
         | Some (_, s') => bodies fuel s'
         end.
Proof.
  intros Hstop. simpl.
  destruct (ptc (world s)) as [stop w]; simpl in *. by rewrite Hstop.
Qed.

Lemma bodies_last fuel (s s' : LoopState State W) :
  (ptc (world s)).1 || solved s = false →
  let b := mkLoop (planner s) (ptc (world s)).2 (startTree s) (solved s) in
  iteration b = Some (GoalTreeEmpty, s') →
  bodies (S fuel) s = [b].
Proof.
  intros Hstop b Hit. rewrite bodies_step by done. fold b. by rewrite Hit.
Qed.

Lemma bodies_cons fuel (s s' : LoopState State W) o :
  (ptc (world s)).1 || solved s = false →
  let b := mkLoop (planner s) (ptc (world s)).2 (startTree s) (solved s) in
  iteration b = Some (o, s') → o ≠ GoalTreeEmpty →
  bodies (S fuel) s = b :: bodies fuel s'.
Proof.
  intros Hstop b Hit Hne. rewrite bodies_step by done. fold b. rewrite Hit.
  by destruct o.
Qed.

Lemma mainLoop_bodies fuel : ∀ (s sf : LoopState State W) os,
  mainLoop fuel s = Finished (sf, os) →
  solved s = false →
  (solved sf = true ↔ ∃ b, b ∈ bodies fuel s ∧ bridges b).
Proof.
  induction fuel as [|fuel IH]; intros s sf os Hloop Hs;
    apply mainLoop_inv in Hloop
      as [(Hstop & -> & ->)|(Hstop & fuel' & o & s' & Hfuel & Hit & Hrest)];
    try done.
  - rewrite bodies_stop by done. simpl. rewrite Hs.
    split; [done|]. intros (b & Hin & _). by apply elem_of_nil in Hin.
  - rewrite bodies_stop by done. simpl. rewrite Hs.
    split; [done|]. intros (b & Hin & _). by apply elem_of_nil in Hin.
  - injection Hfuel as <-.
    pose proof (iteration_bridges _ _ _ Hit) as Hbr.
    pose proof Hit as Hit0.
    apply iteration_side in Hit as (_ & _ & Hsolved). simpl in Hsolved.
    rewrite Hs in Hsolved. simpl in Hsolved.
    destruct Hrest as [(-> & -> & ->)|(Hne & os' & Hloop' & ->)].
    { rewrite (bodies_last fuel s s' Hstop Hit0).
      rewrite Hsolved. simpl. split; [done|]. intros (b & Hin & Hb).
      apply list_elem_of_singleton in Hin as ->. by apply Hbr in Hb. }
    rewrite (bodies_cons fuel s s' o Hstop Hit0 Hne).
    destruct (isConnected o) eqn:Hcon.
    + rewrite mainLoop_solved in Hloop' by done. simplify_eq. simpl.
      split; [|done]. intros _. eexists. split; [apply list_elem_of_here|].
      by apply Hbr.
    + rewrite (IH s' sf os' Hloop' Hsolved). split.
      * intros (b & Hin & Hb). exists b. split; [|done].
        by apply list_elem_of_further.
      * intros (b & Hin & Hb). apply elem_of_cons in Hin as [->|Hin].
        -- apply Hbr in Hb. done.
        -- by exists b.
Qed.

(** C7. Take a call of [solve] that passes the entry checks and enters
    the loop with the planner [p1] and the world [w1].
    - If it returns, its status is EXACT_SOLUTION when an iteration
      connected the two trees and TIMEOUT when none did. An iteration
      connects them exactly when it bridges them: its candidate passed
      the density test and [checkMotion] from the motion it grew from,
      was inserted, and among the motions of the other tree within
      [maxDistance_] of it there is one whose root makes a valid
      start-goal pair with the candidate's and to whose state the
      motion from the candidate passes [checkMotion]. So the status is
      EXACT_SOLUTION exactly when one of the bodies the loop ran bridges
      the trees; the connecting iteration is then the last one, a
      solution path is recorded and the connection point is set; with
      TIMEOUT the recorded paths and the connection point are as the
      loop found them.
    - If the termination condition is false at the first head of the
      loop, the goal tree is empty and the blocking [nextGoal(ptc)]
      yields no state, the loop stops in this first iteration and the
      status is TIMEOUT.
    - If the termination condition is true at the first head of the
      loop, the status is TIMEOUT and nothing was tried.
    - With a planner that satisfies the invariant, the call returns
      unless the loop is still running after as many iterations as there
      is fuel, the termination condition having been false at the head
      of each of them and once more after the last; it never fails on
      a pointer or an [assert]. *)
Theorem solve_status fuel p w p1 w1 :
  entersLoop p w p1 w1 →
  (∀ r, solve fuel p w = Finished r →
     (status r = EXACT_SOLUTION ↔ ∃ sd m n, Connected sd m n ∈ outcomes r)
     ∧ (status r = TIMEOUT ↔ ¬ ∃ sd m n, Connected sd m n ∈ outcomes r)
     ∧ (status r = EXACT_SOLUTION
        ↔ ∃ b, b ∈ bodies fuel (mkLoop p1 w1 true false) ∧ bridges b)
     ∧ (status r = EXACT_SOLUTION →
        ∃ sd m n path,
          last (outcomes r) = Some (Connected sd m n)
          ∧ solutionPaths (after r) = solutionPaths p1 ++ [path]
          ∧ connectionPoint_ (after r)
            = (Some (StateOf sd m), Some (StateOf (otherSide sd) n)))
     ∧ (status r = TIMEOUT →
        solutionPaths (after r) = solutionPaths p1
        ∧ connectionPoint_ (after r) = connectionPoint_ p1))
  ∧ (∀ w2 w3,
       ptc w1 = (false, w2) → goalMotions_ p1 = [] →
       nextGoal true w2 = (None, w3) →
       ∀ fuel',
         solve (S fuel') p w
         = Finished (mkSolved TIMEOUT p1 w3 [GoalTreeEmpty]))
  ∧ (∀ w2, ptc w1 = (true, w2) →
       solve fuel p w = Finished (mkSolved TIMEOUT p1 w2 []))
  ∧ (wfPlanner p1 →
       (∃ r, solve fuel p w = Finished r)
       ∨ (solve fuel p w = OutOfFuel ∧ Runs fuel (mkLoop p1 w1 true false))).
Proof.
  intros Henter. pose proof Henter as (_ & _ & _ & Hne & _).
  split; [|split; [|split]].
  - intros r Hsolve.
    rewrite (solve_enters _ _ _ _ _ Henter) in Hsolve.
    destruct (mainLoop fuel _) as [[sf os]| |] eqn:Hloop; simplify_eq.
    pose proof (mainLoop_bodies _ _ _ _ Hloop eq_refl) as Hbodies.
    pose proof (mainLoop_record _ _ _ _ Hloop eq_refl) as Hrec.
    apply mainLoop_solved_iff in Hloop; [|done]. simpl in *.
    destruct (solved sf).
    + split; [split; [intros _; by apply Hloop|done]|].
      split; [split; [done|]; intros Hno; destruct Hno; by apply Hloop|].
      split; [split; [intros _; by apply Hbodies|done]|].
      split; [by intros _|done].
    + split; [split; [done|]; intros Hex; by apply Hloop in Hex|].
      split; [split; [|done]; intros _ Hex; by apply Hloop in Hex|].
      split; [split; [done|]; intros Hex; by apply Hbodies in Hex|].
      split; [done|by intros _].
  - intros w2 w3 Hptc Hgoal Hnext fuel'.
    rewrite (solve_enters _ _ _ _ _ Henter). simpl. rewrite Hptc. simpl.
    unfold iteration, replenish. simpl. rewrite Hgoal. simpl.
    rewrite Hnext. simpl. by rewrite Hgoal.
  - intros w2 Hptc. rewrite (solve_enters _ _ _ _ _ Henter).
    destruct fuel; simpl; by rewrite Hptc.
  - intros Hwf. rewrite (solve_enters _ _ _ _ _ Henter).
    destruct (mainLoop_safe fuel (mkLoop p1 w1 true false) Hwf Hne)
      as [Hsafe _].
    destruct (mainLoop fuel _) as [[sf os]| |] eqn:Hloop; [| |done].
    + left. by eexists.
    + right. split; [done|]. by apply mainLoop_OutOfFuel.
Qed.

End Properties.

(** * The properties on the scripted world *)

Lemma Line_fresh_wf : wfPlanner Line.fresh.
Proof. apply (configured_wf 0%float [Setup]). Qed.

Lemma Line_p1_wf : wfPlanner Line.p1.
Proof.
  apply (seedStarts_keeps_wf [3%Z] Line.fresh); [apply Line_fresh_wf|].
  vm_compute. reflexivity.
Qed.

Lemma Line_p2_wf : wfPlanner Line.p2.
Proof.
  apply (replenish_keeps_wf Line.p1 (world (Line.body Line.s1)) Line.p2 Line.w2);
    [apply Line_p1_wf|].
  vm_compute. reflexivity.
Qed.

Lemma Line_s2_wf : wfPlanner (planner (Line.body Line.s2)).
Proof.
  apply (iteration_keeps_wf (Line.body Line.s1) Line.s2 (Inserted StartSide 1));
    [apply Line_p1_wf|done|].
  vm_compute. reflexivity.
Qed.

Lemma Line_result_wf : wfPlanner (after (Line.result 10 Line.fresh Line.w0)).
Proof.
  apply (solve_wf 10 Line.fresh Line.w0); [apply Line_fresh_wf|].
  vm_compute. reflexivity.
Qed.

Lemma Line_pDense_wf : wfPlanner Line.pDense.
Proof.
  apply (replenish_keeps_wf Line.pPair (world Line.sDense) Line.pDense
           Line.wDense').
  - apply (seedStarts_keeps_wf [3%Z; 4%Z] Line.fresh); [apply Line_fresh_wf|].
    vm_compute. reflexivity.
  - vm_compute. reflexivity.
Qed.

Lemma Line_pNine_wf : wfPlanner Line.pNine'.
Proof.
  apply (replenish_keeps_wf Line.pNine (world Line.sNine) Line.pNine'
           Line.wNine').
  - apply (seedStarts_keeps_wf Line.nineStarts Line.fresh);
      [apply Line_fresh_wf|].
    vm_compute. reflexivity.
  - vm_compute. reflexivity.
Qed.

(** A weight at which the rounded quotient is the weight itself. *)
Lemma decay_stalls :
  PrimFloat.ltb 0 0x1p-60 = true ∧ decay 0x1p-60 = 0x1p-60%float.
Proof. split; vm_compute; reflexivity. Qed.

(** C1, the claim as stated, fails on the run [wGrow]: its first
    iteration inserts the motion 4 with the two start roots for
    neighbors; their weight one half becomes a double that is not the
    real 1/3, and so does the weight of the new motion. *)
Lemma rounded_weights_differ :
  iteration Line.sGrow = Some (Inserted StartSide 2, Line.sGrow')
  ∧ handles (startMotions_ Line.pGrow) [0; 1] = Some [0; 1]
  ∧ addMotion (mkMotion 4%Z (Some 0) 3%Z None) (startMotions_ Line.pGrow)
      (startPdf_ Line.pGrow) (nnStart_ Line.pGrow) [0; 1]
    = Some (treeOf StartSide (planner Line.sGrow'))
  ∧ PDF.getWeight (startPdf_ Line.pGrow) 0 = Some 0.5%float
  ∧ (realValue 0.5 == 1 # 2)%Q
  ∧ (∃ w', PDF.getWeight (startPdf_ (planner Line.sGrow')) 0 = Some w'
           ∧ ¬ (realValue w' == (1 # 2) / ((1 # 2) + 1))%Q)
  ∧ (∃ w', PDF.getWeight (startPdf_ (planner Line.sGrow')) 2 = Some w'
           ∧ ¬ (realValue w' == 1 / (inject_Z 2 + 1))%Q)
  ∧ ¬ (∀ (motion : Motion Z) motions pdf (nn : NN Z) neighbors es t,
         handles motions neighbors = Some es →
         NoDup es →
         Forall (λ e, e < length pdf) es →
         addMotion motion motions pdf nn neighbors = Some t →
         ∀ e w, e ∈ es → PDF.getWeight pdf e = Some w →
           ∃ w', PDF.getWeight t.1.2 e = Some w'
                 ∧ (realValue w' == realValue w / (realValue w + 1))%Q).
Proof.
  assert (H1 : handles (startMotions_ Line.pGrow) [0; 1] = Some [0; 1])
    by (vm_compute; reflexivity).
  assert (H2 : addMotion (mkMotion 4%Z (Some 0) 3%Z None)
                 (startMotions_ Line.pGrow) (startPdf_ Line.pGrow)
                 (nnStart_ Line.pGrow) [0; 1]
               = Some (treeOf StartSide (planner Line.sGrow')))
    by (vm_compute; reflexivity).
  assert (H3 : PDF.getWeight (startPdf_ Line.pGrow) 0 = Some 0.5%float)
    by (vm_compute; reflexivity).
  split; [vm_compute; reflexivity|]. split; [exact H1|].
  split; [exact H2|]. split; [exact H3|]. split; [vm_compute; reflexivity|].
  split.
  { eexists. split; [vm_compute; reflexivity|].
    intros Heq. vm_compute in Heq. discriminate Heq. }
  split.
  { eexists. split; [vm_compute; reflexivity|].
    intros Heq. vm_compute in Heq. discriminate Heq. }
  intros H.
  assert (Hnd : NoDup [0; 1]) by (exact (bool_decide_unpack (NoDup [0; 1]) I)).
  assert (Hlt : Forall (λ e, e < length (startPdf_ Line.pGrow)) [0; 1])
    by (repeat constructor; vm_compute; lia).
  assert (Hin : 0 ∈ [0; 1]) by apply list_elem_of_here.
  destruct (H _ _ _ _ _ _ _ H1 Hnd Hlt H2 0 0.5%float Hin H3)
    as (w' & Hw' & Heq).
  vm_compute in Hw'. injection Hw' as <-.
  vm_compute in Heq. discriminate Heq.
Qed.

(** C1 as amended, on the start tree of the run [w0] after its first
    iteration: a new motion with both motions of the tree as
    neighbors. *)
Lemma addMotion_weights_witness :
  handles (startMotions_ (planner Line.s2)) [0; 1] = Some [0; 1]
  ∧ NoDup [0; 1]
  ∧ Forall (λ e, e < length (startPdf_ (planner Line.s2))) [0; 1]
  ∧ ∃ pdf' nn',
      addMotion (mkMotion 5%Z (Some 1) 3%Z None)
        (startMotions_ (planner Line.s2)) (startPdf_ (planner Line.s2))
        (nnStart_ (planner Line.s2)) [0; 1]
      = Some (startMotions_ (planner Line.s2)
                ++ [setElement (mkMotion 5%Z (Some 1) 3%Z None)
                      (length (startPdf_ (planner Line.s2)))],
              pdf', nn')
      ∧ (∀ e w, e ∈ [0; 1] →
           PDF.getWeight (startPdf_ (planner Line.s2)) e = Some w →
           PDF.getWeight pdf' e = Some (w / (w + 1))%float)
      ∧ (∀ e, e ∉ [0; 1] → e < length (startPdf_ (planner Line.s2)) →
           PDF.getWeight pdf' e
           = PDF.getWeight (startPdf_ (planner Line.s2)) e)
      ∧ PDF.getData pdf' (length (startPdf_ (planner Line.s2)))
        = Some (length (startMotions_ (planner Line.s2)))
      ∧ PDF.getWeight pdf' (length (startPdf_ (planner Line.s2)))
        = Some (1 / (toDouble (Z.of_nat (length [0; 1])) + 1))%float.
Proof.
  assert (H1 : handles (startMotions_ (planner Line.s2)) [0; 1] = Some [0; 1])
    by (vm_compute; reflexivity).
  assert (H2 : NoDup [0; 1]) by (exact (bool_decide_unpack (NoDup [0; 1]) I)).
  assert (H3 : Forall (λ e, e < length (startPdf_ (planner Line.s2))) [0; 1])
    by (repeat constructor; vm_compute; lia).
  exact (conj H1 (conj H2 (conj H3
    (proj1 (addMotion_weights (mkMotion 5%Z (Some 1) 3%Z None)
              (startMotions_ (planner Line.s2)) (startPdf_ (planner Line.s2))
              (nnStart_ (planner Line.s2)) [0; 1] [0; 1]) H1 H2 H3)))).
Defined.

(** C2, the claim as stated, fails on the run [wNine]: the candidate 4
    has nine neighbors and the draw is the double the code computes for
    [1.0 - (1.0 / 9)], which is below the real 8/9; the draw is not
    below itself, and the candidate is inserted. *)
Lemma threshold_draw_inserted :
  wfPlanner Line.pNine'
  ∧ replenish (planner Line.sNine) (world Line.sNine)
    = Some (Line.pNine', Line.wNine')
  ∧ goalMotions_ Line.pNine' ≠ []
  ∧ pickCandidate (mkLoop Line.pNine' Line.wNine' true false)
    = Some (0, Line.seedNine, Some 4%Z, Line.afterNearNine)
  ∧ length (nearestR (nnOf StartSide Line.pNine') 4%Z
              (nbrhoodRadius_ Line.pNine')) = 9
  ∧ (uniform01 Line.afterNearNine).1 = Line.drawNine
  ∧ (0 <= realValue Line.drawNine)%Q
  ∧ (realValue Line.drawNine < 1 - 1 / inject_Z (Z.of_nat 9))%Q
  ∧ iteration Line.sNine = Some (Inserted StartSide 9, Line.sNine')
  ∧ ¬ (∀ (s : LoopState Z Line.Script) p w existing em x w2,
         wfPlanner p →
         replenish (planner s) (world s) = Some (p, w) →
         goalMotions_ p ≠ [] →
         pickCandidate (mkLoop p w (startTree s) (solved s))
           = Some (existing, em, Some x, w2) →
         let side := sideOf (startTree s) in
         let k := length (nearestR (nnOf side p) x (nbrhoodRadius_ p)) in
         let u := (uniform01 w2).1 in
         (∃ s', iteration s = Some (DensityRejected side, s'))
         ↔ k ≠ 0 ∧ (realValue u < 1 - 1 / inject_Z (Z.of_nat k))%Q).
Proof.
  assert (H1 := Line_pNine_wf).
  assert (H2 : replenish (planner Line.sNine) (world Line.sNine)
               = Some (Line.pNine', Line.wNine'))
    by (vm_compute; reflexivity).
  assert (H3 : goalMotions_ Line.pNine' ≠ []) by (vm_compute; discriminate).
  assert (H4 : pickCandidate (mkLoop Line.pNine' Line.wNine' true false)
               = Some (0, Line.seedNine, Some 4%Z, Line.afterNearNine))
    by (vm_compute; reflexivity).
  assert (H5 : iteration Line.sNine
               = Some (Inserted StartSide 9, Line.sNine'))
    by (vm_compute; reflexivity).
  assert (H6 : (realValue Line.drawNine < 1 - 1 / inject_Z (Z.of_nat 9))%Q)
    by (vm_compute; reflexivity).
  split; [exact H1|]. split; [exact H2|]. split; [exact H3|].
  split; [exact H4|]. split; [vm_compute; reflexivity|].
  split; [vm_compute; reflexivity|].
  split; [vm_compute; discriminate|]. split; [exact H6|].
  split; [exact H5|].
  intros H.
  destruct (proj2 (H Line.sNine _ _ _ _ _ _ H1 H2 H3 H4)) as [s' Hs'].
  - split; [vm_compute; discriminate|exact H6].
  - rewrite H5 in Hs'. discriminate Hs'.
Qed.

(** C2 as amended, on the first iteration of the run [wDense]: the
    candidate 4 has the two neighbors 3 and 4, the draw 0.25 is below
    the threshold 0.5, and the candidate is rejected. *)
Lemma density_rejection_witness :
  wfPlanner Line.pDense
  ∧ replenish (planner Line.sDense) (world Line.sDense)
    = Some (Line.pDense, Line.wDense')
  ∧ goalMotions_ Line.pDense ≠ []
  ∧ pickCandidate (mkLoop Line.pDense Line.wDense' true false)
    = Some (0, Line.seed1, Some 4%Z, Line.afterNearDense)
  ∧ length (nearestR (nnOf StartSide Line.pDense) 4%Z
              (nbrhoodRadius_ Line.pDense)) = 2
  ∧ (uniform01 Line.afterNearDense).1 = 0.25%float
  ∧ ∃ s', iteration Line.sDense = Some (DensityRejected StartSide, s').
Proof.
  assert (H1 := Line_pDense_wf).
  assert (H2 : replenish (planner Line.sDense) (world Line.sDense)
               = Some (Line.pDense, Line.wDense'))
    by (vm_compute; reflexivity).
  assert (H3 : goalMotions_ Line.pDense ≠ []) by (vm_compute; discriminate).
  assert (H4 : pickCandidate (mkLoop Line.pDense Line.wDense' true false)
               = Some (0, Line.seed1, Some 4%Z, Line.afterNearDense))
    by (vm_compute; reflexivity).
  pose proof (density_rejection Line.sDense _ _ _ _ _ _ H1 H2 H3 H4)
    as (_ & Hiff & _).
  split; [exact H1|]. split; [exact H2|]. split; [exact H3|].
  split; [exact H4|]. split; [vm_compute; reflexivity|].
  split; [vm_compute; reflexivity|].
  apply Hiff. split; [vm_compute; discriminate|vm_compute; reflexivity].
Defined.

(** C3 on the second iteration of the run [w0]: the new goal motion 9
    has the start motions 3 and 4 within the range; the motion to 3 is
    invalid, the motion to 4 is valid. *)
Lemma bridge_first_success_witness :
  wfPlanner (planner (Line.body Line.s2))
  ∧ replenish (planner (Line.body Line.s2)) (world (Line.body Line.s2))
    = Some (planner (Line.body Line.s2), world (Line.body Line.s2))
  ∧ pickCandidate (Line.body Line.s2)
    = Some (0, Line.seed2, Some 9%Z, Line.afterNear2)
  ∧ nearestR (nnOf StartSide (setTree GoalSide Line.t3 (planner Line.s2))) 9%Z
      (maxDistance_ (setTree GoalSide Line.t3 (planner Line.s2)))
    = [0] ++ 1 :: []
  ∧ accepts (mkMotion 9%Z (Some 0) 12%Z None) Line.seed1 = false
  ∧ accepts (mkMotion 9%Z (Some 0) 12%Z None) Line.found2 = true
  ∧ ∃ s',
      connect GoalSide 1 (mkMotion 9%Z (Some 0) 12%Z None)
        (setTree GoalSide Line.t3 (planner Line.s2))
      = Some ([0] ++ [1], Some 1, planner s')
      ∧ iteration (Line.body Line.s2) = Some (Connected GoalSide 1 1, s')
      ∧ connectionPoint_ (planner s')
        = (Some (StateOf GoalSide 1), Some (StateOf StartSide 1))
      ∧ solved s' = true
      ∧ ∀ fuel,
          mainLoop fuel s'
          = Finished (mkLoop (planner s') (ptc (world s')).2 (startTree s')
                        true, []).
Proof.
  assert (H1 := Line_s2_wf).
  assert (H2 : replenish (planner (Line.body Line.s2))
                 (world (Line.body Line.s2))
               = Some (planner (Line.body Line.s2), world (Line.body Line.s2)))
    by (vm_compute; reflexivity).
  assert (H3 : goalMotions_ (planner (Line.body Line.s2)) ≠ [])
    by (vm_compute; discriminate).
  assert (H4 : pickCandidate (Line.body Line.s2)
               = Some (0, Line.seed2, Some 9%Z, Line.afterNear2))
    by (vm_compute; reflexivity).
  assert (H5 : densityReject
                 (length (nearestR (nnOf GoalSide (planner (Line.body Line.s2)))
                            9%Z (nbrhoodRadius_ (planner (Line.body Line.s2)))))
                 Line.afterNear2 = (false, Line.afterNear2))
    by (vm_compute; reflexivity).
  assert (H6 : checkMotion (state Line.seed2) 9%Z = true)
    by (vm_compute; reflexivity).
  assert (H7 : addMotion (mkMotion 9%Z (Some 0) (root Line.seed2) None)
                 (motionsOf GoalSide (planner (Line.body Line.s2)))
                 (pdfOf GoalSide (planner (Line.body Line.s2)))
                 (nnOf GoalSide (planner (Line.body Line.s2)))
                 (nearestR (nnOf GoalSide (planner (Line.body Line.s2))) 9%Z
                    (nbrhoodRadius_ (planner (Line.body Line.s2))))
               = Some Line.t3)
    by (vm_compute; reflexivity).
  assert (H8 : nearestR
                 (nnOf StartSide (setTree GoalSide Line.t3 (planner Line.s2)))
                 9%Z
                 (maxDistance_ (setTree GoalSide Line.t3 (planner Line.s2)))
               = [0] ++ 1 :: [])
    by (vm_compute; reflexivity).
  assert (H9 : accepts (mkMotion 9%Z (Some 0) 12%Z None) Line.seed1 = false)
    by (vm_compute; reflexivity).
  assert (H10 : accepts (mkMotion 9%Z (Some 0) 12%Z None) Line.found2 = true)
    by (vm_compute; reflexivity).
  destruct (bridge_first_success (Line.body Line.s2) _ _ 0 Line.seed2 9%Z _ _
              Line.t3 [0] 1 Line.found2 [] H1 H2 H3 H4 H5 H6 H7 H8)
    as (s' & Hc & Hit & _ & Hcp & Hs & Hloop).
  { intros n' nm' Hn' Hnm'. apply list_elem_of_singleton in Hn' as ->.
    vm_compute in Hnm'. injection Hnm' as <-. exact H9. }
  { vm_compute. reflexivity. }
  { exact H10. }
  repeat (split; [assumption|]). by exists s'.
Defined.

(** C4 on the same iteration: the path is 3, 4, 9, 12. *)
Lemma solution_path_shape_witness :
  wfPlanner (planner (Line.body Line.s2))
  ∧ iteration (Line.body Line.s2) = Some (Connected GoalSide 1 1, Line.s3)
  ∧ ∃ c1 c2 r1 r2 path,
      isChain (startMotions_ (planner Line.s3)) (Some 1) c1
      ∧ isChain (goalMotions_ (planner Line.s3)) (Some 1) c2
      ∧ path = reverse (state <$> c1) ++ (state <$> c2)
      ∧ solutionPaths (planner Line.s3)
        = solutionPaths (planner (Line.body Line.s2)) ++ [path]
      ∧ last c1 = Some r1 ∧ parent r1 = None
      ∧ r1 ∈ startMotions_ (planner Line.s3)
      ∧ last c2 = Some r2 ∧ parent r2 = None
      ∧ r2 ∈ goalMotions_ (planner Line.s3)
      ∧ head path = Some (state r1)
      ∧ last path = Some (state r2)
      ∧ length path = length c1 + length c2.
Proof.
  assert (H1 := Line_s2_wf).
  assert (H2 : iteration (Line.body Line.s2)
               = Some (Connected GoalSide 1 1, Line.s3))
    by (vm_compute; reflexivity).
  exact (conj H1 (conj H2
    (solution_path_shape (Line.body Line.s2) Line.s3 GoalSide 1 1 H1 H2))).
Defined.

(** C5, the claim as stated, fails on the run [wFail]: its two
    iterations both expand the start side, the first one having left by
    the [continue] of line 196. *)
Lemma solve_repeats_side :
  omap expandedSide (outcomes (Line.result 10 Line.fresh Line.wFail))
  = [StartSide; StartSide]
  ∧ ¬ (∀ fuel (p : Planner Z) (w : Line.Script) r,
         solve fuel p w = Finished r →
         noRepeat (omap expandedSide (outcomes r)) = true).
Proof.
  split; [vm_compute; reflexivity|].
  intros H.
  specialize (H 10 Line.fresh Line.wFail (Line.result 10 Line.fresh Line.wFail)).
  vm_compute in H. specialize (H eq_refl). discriminate H.
Qed.

(** C5 as amended, on the run [w0]. *)
Lemma solve_sides_witness :
  solve 10 Line.fresh Line.w0 = Finished (Line.result 10 Line.fresh Line.w0)
  ∧ alternatesFrom StartSide
      (omap expandedSide
         (filter reachesFlip (outcomes (Line.result 10 Line.fresh Line.w0)))).
Proof.
  assert (H1 : solve 10 Line.fresh Line.w0
               = Finished (Line.result 10 Line.fresh Line.w0))
    by (vm_compute; reflexivity).
  exact (conj H1 (proj2 (proj2 (solve_sides 10 Line.fresh Line.w0 _ H1)))).
Defined.

(** C6, the claim as stated, fails on the world [wNoGoalKind]: there is
    no valid start state, and the status is UNRECOGNIZED_GOAL_TYPE, the
    kind of the goal being looked at first. *)
Lemma solve_no_start_other_status :
  (nextStarts Line.wNoGoalKind).1 = []
  ∧ startMotions_ Line.fresh = []
  ∧ solve 0 Line.fresh Line.wNoGoalKind
    = Finished (mkSolved UNRECOGNIZED_GOAL_TYPE Line.fresh Line.wNoGoalKind [])
  ∧ ¬ (∀ fuel (p : Planner Z) (w : Line.Script) r,
         (nextStarts w).1 = [] → startMotions_ p = [] →
         solve fuel p w = Finished r → status r = INVALID_START).
Proof.
  repeat (split; [reflexivity|]).
  intros H.
  specialize (H 0 Line.fresh Line.wNoGoalKind
                (mkSolved UNRECOGNIZED_GOAL_TYPE Line.fresh Line.wNoGoalKind [])
                eq_refl eq_refl eq_refl).
  discriminate H.
Qed.

(** C6 as amended, on three worlds, one for each failed check. *)
Lemma solve_configuration_errors_witness :
  solve 0 Line.fresh Line.wNoGoalKind
  = Finished (mkSolved UNRECOGNIZED_GOAL_TYPE (checkValidity Line.fresh)
                Line.wNoGoalKind [])
  ∧ solve 0 Line.fresh Line.wNoStart
    = Finished (mkSolved INVALID_START (checkValidity Line.fresh)
                  (nextStarts Line.wNoStart).2 [])
  ∧ solve 0 Line.fresh Line.wNoGoal
    = Finished (mkSolved INVALID_GOAL Line.p1 (nextStarts Line.wNoGoal).2 []).
Proof.
  split; [|split].
  - apply (proj1 (solve_configuration_errors 0 Line.fresh Line.wNoGoalKind)).
    reflexivity.
  - apply (proj1 (proj2 (proj2
             (solve_configuration_errors 0 Line.fresh Line.wNoStart))));
      reflexivity.
  - apply (proj2 (proj2 (proj2
             (solve_configuration_errors 0 Line.fresh Line.wNoGoal))));
      [reflexivity|vm_compute; reflexivity|vm_compute; discriminate
      |reflexivity].
Defined.

(** C7 on the run [w0], which connects, and on the world
    [wExhausted], whose goal region yields nothing. *)
Lemma solve_status_witness :
  entersLoop Line.fresh Line.w0 Line.p1 Line.w1
  ∧ solve 10 Line.fresh Line.w0 = Finished (Line.result 10 Line.fresh Line.w0)
  ∧ status (Line.result 10 Line.fresh Line.w0) = EXACT_SOLUTION
  ∧ (∃ b, b ∈ bodies 10 (mkLoop Line.p1 Line.w1 true false) ∧ bridges b)
  ∧ (∃ sd m n path,
       last (outcomes (Line.result 10 Line.fresh Line.w0))
       = Some (Connected sd m n)
       ∧ solutionPaths (after (Line.result 10 Line.fresh Line.w0))
         = solutionPaths Line.p1 ++ [path]
       ∧ connectionPoint_ (after (Line.result 10 Line.fresh Line.w0))
         = (Some (StateOf sd m), Some (StateOf (otherSide sd) n)))
  ∧ entersLoop Line.fresh Line.wExhausted Line.p1
      (Line.popStarts Line.wExhausted).2
  ∧ solve 1 Line.fresh Line.wExhausted
    = Finished (mkSolved TIMEOUT Line.p1
                  (Line.popStop (Line.popStarts Line.wExhausted).2).2
                  [GoalTreeEmpty]).
Proof.
  assert (H1 : entersLoop Line.fresh Line.w0 Line.p1 Line.w1).
  { repeat split; try (vm_compute; reflexivity). vm_compute. discriminate. }
  assert (H2 : entersLoop Line.fresh Line.wExhausted Line.p1
                 (Line.popStarts Line.wExhausted).2).
  { repeat split; try (vm_compute; reflexivity). vm_compute. discriminate. }
  assert (H3 : solve 10 Line.fresh Line.w0
               = Finished (Line.result 10 Line.fresh Line.w0))
    by (vm_compute; reflexivity).
  destruct (proj1 (solve_status 10 Line.fresh Line.w0 Line.p1 Line.w1 H1)
              _ H3) as (Hout & _ & Hbr & Hrec & _).
  assert (H4 : status (Line.result 10 Line.fresh Line.w0) = EXACT_SOLUTION).
  { apply Hout. exists GoalSide, 1, 1. vm_compute.
    apply list_elem_of_further, list_elem_of_here. }
  split; [exact H1|]. split; [exact H3|]. split; [exact H4|].
  split; [exact (proj1 Hbr H4)|]. split; [exact (Hrec H4)|].
  split; [exact H2|].
  apply (proj1 (proj2 (solve_status 1 Line.fresh Line.wExhausted Line.p1 _
                         H2))
           (Line.popStop (Line.popStarts Line.wExhausted).2).2
           (Line.popStop (Line.popStarts Line.wExhausted).2).2);
    vm_compute; reflexivity.
Defined.

(** C8 on the planner the run [w0] leaves. *)
Lemma getPlannerData_graph_witness :
  wfPlanner (after (Line.result 10 Line.fresh Line.w0))
  ∧ PlannerData.vertices
      (getPlannerData (after (Line.result 10 Line.fresh Line.w0))
         PlannerData.empty)
    = startVerts 2 ++ goalVerts 2
  ∧ PlannerData.edges
      (getPlannerData (after (Line.result 10 Line.fresh Line.w0))
         PlannerData.empty)
    = treeEdges (after (Line.result 10 Line.fresh Line.w0)) ++ [(3, 1)].
Proof.
  assert (H1 := Line_result_wf).
  destruct (getPlannerData_graph _ H1)
    as (Hv & _ & _ & _ & _ & _ & _ & Hcp).
  destruct (Hcp (StateOf GoalSide 1) (StateOf StartSide 1) eq_refl)
    as (_ & _ & He).
  split; [exact H1|]. split; [exact Hv|exact He].
Defined.

(** C10, the claim as stated, fails on the first iteration of the run
    [wFail]: the iteration is given up because [sampleNear] fails, and
    the goal tree has gained the goal state 12. *)
Lemma abandoned_iteration_changes_planner :
  iteration Line.sFail = Some (SampleNearFailed StartSide, Line.sFail')
  ∧ length (goalMotions_ (planner Line.sFail)) = 0
  ∧ length (goalMotions_ (planner Line.sFail')) = 1
  ∧ ¬ (∀ (s s' : LoopState Z Line.Script) o,
         iteration s = Some (o, s') → abandoned o = true →
         planner s' = planner s).
Proof.
  repeat (split; [vm_compute; reflexivity|]).
  intros H.
  specialize (H Line.sFail Line.sFail' (SampleNearFailed StartSide)).
  vm_compute in H. specialize (H eq_refl eq_refl). discriminate H.
Qed.

(** C10 as amended, on the same iteration. *)
Lemma abandoned_iteration_frame_witness :
  iteration Line.sFail = Some (SampleNearFailed StartSide, Line.sFail')
  ∧ abandoned (SampleNearFailed StartSide) = true
  ∧ treeOf StartSide (planner Line.sFail')
    = treeOf StartSide (planner Line.sFail)
  ∧ connectionPoint_ (planner Line.sFail')
    = connectionPoint_ (planner Line.sFail).
Proof.
  assert (H1 : iteration Line.sFail
               = Some (SampleNearFailed StartSide, Line.sFail'))
    by (vm_compute; reflexivity).
  destruct (abandoned_iteration_frame Line.sFail Line.sFail' _ H1 eq_refl)
    as (_ & Ht & Hc & _).
  split; [exact H1|]. split; [reflexivity|]. split; [exact Ht|exact Hc].
Defined.

(** * The further properties on the scripted world *)

Lemma Line_fresh_sound : Sound Line.fresh.
Proof. apply setup_sound, BiRealEST_sound. Qed.

Lemma Line_p1_sound : Sound Line.p1.
Proof.
  apply (seedStarts_sound [3%Z] Line.fresh); [apply Line_fresh_sound|].
  vm_compute. reflexivity.
Qed.

Lemma Line_s2_sound : Sound (planner (Line.body Line.s2)).
Proof.
  apply (iteration_sound (Line.body Line.s1) Line.s2 (Inserted StartSide 1));
    [apply Line_p1_sound|].
  vm_compute. reflexivity.
Qed.

Lemma Line_fresh_reachable : Reachable (W:=Line.Script) Line.fresh.
Proof. apply (reach_op (BiRealEST 0) Setup), reach_new. Qed.

Lemma Line_solved_reachable : Reachable (W:=Line.Script) Line.solvedPlanner.
Proof.
  apply (reach_solve Line.fresh 10 Line.w0); [apply Line_fresh_reachable|].
  vm_compute. reflexivity.
Qed.

Lemma Line_solve_w0 :
  solve 10 Line.fresh Line.w0 = Finished (Line.result 10 Line.fresh Line.w0).
Proof. vm_compute. reflexivity. Qed.

(** X1 on the start tree of the planner the run [w0] leaves. *)
Lemma reachable_lockstep_witness :
  Reachable (W:=Line.Script) Line.solvedPlanner
  ∧ length (pdfOf StartSide Line.solvedPlanner) = 2
  ∧ length (nnOf StartSide Line.solvedPlanner) = 2
  ∧ ∀ i m, motionsOf StartSide Line.solvedPlanner !! i = Some m →
      element m = Some i
      ∧ PDF.getData (pdfOf StartSide Line.solvedPlanner) i = Some i
      ∧ nnOf StartSide Line.solvedPlanner !! i = Some (i, state m).
Proof.
  split; [exact Line_solved_reachable|].
  exact (reachable_lockstep Line.solvedPlanner StartSide Line_solved_reachable).
Defined.

(** X2 on the motion 4 of that start tree, whose walk is 4, 3. *)
Lemma reachable_parent_walk_witness :
  Reachable (W:=Line.Script) Line.solvedPlanner
  ∧ 1 < length (motionsOf StartSide Line.solvedPlanner)
  ∧ ∃ m c r,
      motionsOf StartSide Line.solvedPlanner !! 1 = Some m
      ∧ (∀ q, parent m = Some q → q < 1)
      ∧ mpath (motionsOf StartSide Line.solvedPlanner) 1 = Some (m :: c)
      ∧ isChain (motionsOf StartSide Line.solvedPlanner) (Some 1) (m :: c)
      ∧ length (m :: c) ≤ 2
      ∧ last (m :: c) = Some r
      ∧ parent r = None
      ∧ r ∈ motionsOf StartSide Line.solvedPlanner.
Proof.
  assert (H1 : 1 < length (motionsOf StartSide Line.solvedPlanner))
    by (vm_compute; lia).
  split; [exact Line_solved_reachable|]. split; [exact H1|].
  exact (reachable_parent_walk Line.solvedPlanner StartSide 1
           Line_solved_reachable H1).
Defined.

(** X3 on the same motion: its root is the state 3 of the start root. *)
Lemma reachable_root_field_witness :
  Reachable (W:=Line.Script) Line.solvedPlanner
  ∧ motionsOf StartSide Line.solvedPlanner !! 1 = Some Line.found2
  ∧ ∃ c r,
      mpath (motionsOf StartSide Line.solvedPlanner) 1
        = Some (Line.found2 :: c)
      ∧ last (Line.found2 :: c) = Some r
      ∧ parent r = None
      ∧ root Line.found2 = state r.
Proof.
  assert (H1 : motionsOf StartSide Line.solvedPlanner !! 1
               = Some Line.found2) by (vm_compute; reflexivity).
  split; [exact Line_solved_reachable|]. split; [exact H1|].
  exact (proj2 (proj2 (reachable_root_field Line.solvedPlanner StartSide 1
                         Line.found2 Line_solved_reachable H1))).
Defined.

(** X4 on the weight of the start root, which had one motion arrive in
    its neighborhood. *)
Lemma reachable_weights_witness :
  Reachable (W:=Line.Script) Line.solvedPlanner
  ∧ PDF.getWeight (pdfOf StartSide Line.solvedPlanner) 0
    = Some Line.rootWeight
  ∧ Line.rootWeight = 0.5%float
  ∧ ∃ k j,
      k + j < length (motionsOf StartSide Line.solvedPlanner)
      ∧ Line.rootWeight
        = Nat.iter j (λ w, w / (w + 1))%float
            (1 / (toDouble (Z.of_nat k) + 1))%float
      ∧ (length (motionsOf StartSide Line.solvedPlanner) ≤ 256 →
         PrimFloat.ltb 0 Line.rootWeight = true
         ∧ PrimFloat.leb Line.rootWeight 1 = true
         ∧ (Qabs (realValue Line.rootWeight
                  - 1 / inject_Z (Z.of_nat (k + j + 1)))
            <= inject_Z (Z.of_nat (j + 1)) * 2 ^ (-53))%Q).
Proof.
  assert (H1 : PDF.getWeight (pdfOf StartSide Line.solvedPlanner) 0
               = Some Line.rootWeight) by (vm_compute; reflexivity).
  split; [exact Line_solved_reachable|]. split; [exact H1|].
  split; [vm_compute; reflexivity|].
  exact (reachable_weights Line.solvedPlanner StartSide 0
           Line.rootWeight Line_solved_reachable H1).
Defined.

(** X5 on the motion 4 of the start tree and its parent 3. *)
Lemma reachable_edges_checked_witness :
  Reachable (W:=Line.Script) Line.solvedPlanner
  ∧ motionsOf StartSide Line.solvedPlanner !! 1 = Some Line.found2
  ∧ parent Line.found2 = Some 0
  ∧ ∃ pm, motionsOf StartSide Line.solvedPlanner !! 0 = Some pm
          ∧ 0 < 1
          ∧ checkMotion (state pm) (state Line.found2) = true.
Proof.
  assert (H1 : motionsOf StartSide Line.solvedPlanner !! 1
               = Some Line.found2) by (vm_compute; reflexivity).
  split; [exact Line_solved_reachable|]. split; [exact H1|].
  split; [reflexivity|].
  exact (reachable_edges_checked Line.solvedPlanner StartSide 1 Line.found2 0
           Line_solved_reachable H1 eq_refl).
Defined.

(** X6 on the path 3, 4, 9, 12 the run [w0] records. *)
Lemma reachable_paths_checked_witness :
  Reachable (W:=Line.Script) Line.solvedPlanner
  ∧ [3; 4; 9; 12]%Z ∈ solutionPaths Line.solvedPlanner
  ∧ 2 ≤ length [3; 4; 9; 12]%Z
  ∧ ∀ i a b, [3; 4; 9; 12]%Z !! i = Some a →
      [3; 4; 9; 12]%Z !! S i = Some b →
      checkMotion a b = true ∨ checkMotion b a = true.
Proof.
  assert (H1 : [3; 4; 9; 12]%Z ∈ solutionPaths Line.solvedPlanner)
    by (vm_compute; apply list_elem_of_here).
  split; [exact Line_solved_reachable|]. split; [exact H1|].
  exact (reachable_paths_checked Line.solvedPlanner [3; 4; 9; 12]%Z
           Line_solved_reachable H1).
Defined.

(** X7 on the second iteration of the run [w0], which expands the goal
    tree. *)
Lemma connection_pairing_witness :
  Sound (planner (Line.body Line.s2))
  ∧ iteration (Line.body Line.s2) = Some (Connected GoalSide 1 1, Line.s3)
  ∧ ∃ pre post a b first lst,
      solutionPaths (planner Line.s3)
      = solutionPaths (planner (Line.body Line.s2)) ++ [pre ++ post]
      ∧ adjacent (λ x y, checkMotion x y = true) pre
      ∧ adjacent (λ x y, checkMotion y x = true) post
      ∧ last pre = Some a ∧ head post = Some b
      ∧ head (pre ++ post) = Some first ∧ last (pre ++ post) = Some lst
      ∧ checkMotion b a = true ∧ isStartGoalPairValid lst first = true.
Proof.
  assert (H1 := Line_s2_sound).
  assert (H2 : iteration (Line.body Line.s2)
               = Some (Connected GoalSide 1 1, Line.s3))
    by (vm_compute; reflexivity).
  exact (conj H1 (conj H2
    (connection_pairing (Line.body Line.s2) Line.s3 GoalSide 1 1 H1 H2))).
Defined.

(** X8 on the run [w0]. *)
Lemma solve_never_aborts_witness :
  Reachable (W:=Line.Script) Line.fresh
  ∧ solve 10 Line.fresh Line.w0 ≠ Aborted.
Proof.
  split; [exact Line_fresh_reachable|].
  exact (solve_never_aborts 10 Line.fresh Line.w0 Line_fresh_reachable).
Defined.

(** X9 on a second call, made on the planner the run [w0] leaves: it
    seeds the start state again and gives up its one iteration. *)
Lemma solve_extends_witness :
  solve 10 Line.solvedPlanner Line.wExhausted
  = Finished (Line.result 10 Line.solvedPlanner Line.wExhausted)
  ∧ (∀ sd, motionsOf sd Line.solvedPlanner
           `prefix_of` motionsOf sd
                         (after (Line.result 10 Line.solvedPlanner
                                   Line.wExhausted)))
  ∧ solutionPaths Line.solvedPlanner
    `prefix_of` solutionPaths
                  (after (Line.result 10 Line.solvedPlanner Line.wExhausted))
  ∧ setup_ (after (Line.result 10 Line.solvedPlanner Line.wExhausted)) = true.
Proof.
  assert (H1 : solve 10 Line.solvedPlanner Line.wExhausted
               = Finished (Line.result 10 Line.solvedPlanner Line.wExhausted))
    by (vm_compute; reflexivity).
  destruct (solve_extends 10 Line.solvedPlanner Line.wExhausted _ H1)
    as (Hm & Hp & _ & _ & Hs).
  exact (conj H1 (conj Hm (conj Hp Hs))).
Defined.

(** X10 on the run [w0]: one start state, one insertion into the start
    tree. *)
Lemma solve_motion_count_witness :
  solve 10 Line.fresh Line.w0 = Finished (Line.result 10 Line.fresh Line.w0)
  ∧ length (startMotions_ (after (Line.result 10 Line.fresh Line.w0)))
    = length (startMotions_ Line.fresh)
      + (if goalIsSampleable Line.w0 then length (nextStarts Line.w0).1 else 0)
      + length (filter (insertsOn StartSide)
                  (outcomes (Line.result 10 Line.fresh Line.w0))).
Proof.
  exact (conj Line_solve_w0
    (proj1 (solve_motion_count 10 Line.fresh Line.w0 _ Line_solve_w0))).
Defined.

(** X11 on the run [w0], which connects while expanding the goal tree:
    the connection point holds the goal-side state first. *)
Lemma solve_solution_record_witness :
  solve 10 Line.fresh Line.w0 = Finished (Line.result 10 Line.fresh Line.w0)
  ∧ status (Line.result 10 Line.fresh Line.w0) = EXACT_SOLUTION
  ∧ ∃ sd m n path,
      last (outcomes (Line.result 10 Line.fresh Line.w0))
        = Some (Connected sd m n)
      ∧ solutionPaths (after (Line.result 10 Line.fresh Line.w0))
        = solutionPaths Line.fresh ++ [path]
      ∧ connectionPoint_ (after (Line.result 10 Line.fresh Line.w0))
        = (Some (StateOf sd m), Some (StateOf (otherSide sd) n)).
Proof.
  assert (H2 : status (Line.result 10 Line.fresh Line.w0) = EXACT_SOLUTION)
    by (vm_compute; reflexivity).
  exact (conj Line_solve_w0 (conj H2
    (proj1 (solve_solution_record 10 Line.fresh Line.w0 _ Line_solve_w0) H2))).
Defined.

(** X12 on the world [wExhausted], whose goal region yields nothing. *)
Lemma goal_tree_empty_alone_witness :
  solve 1 Line.fresh Line.wExhausted
  = Finished (Line.result 1 Line.fresh Line.wExhausted)
  ∧ GoalTreeEmpty ∈ outcomes (Line.result 1 Line.fresh Line.wExhausted)
  ∧ outcomes (Line.result 1 Line.fresh Line.wExhausted) = [GoalTreeEmpty]
  ∧ goalMotions_ Line.fresh = []
  ∧ goalMotions_ (after (Line.result 1 Line.fresh Line.wExhausted)) = []
  ∧ status (Line.result 1 Line.fresh Line.wExhausted) = TIMEOUT.
Proof.
  assert (H1 : solve 1 Line.fresh Line.wExhausted
               = Finished (Line.result 1 Line.fresh Line.wExhausted))
    by (vm_compute; reflexivity).
  assert (H2 : GoalTreeEmpty
               ∈ outcomes (Line.result 1 Line.fresh Line.wExhausted))
    by (vm_compute; apply list_elem_of_here).
  exact (conj H1 (conj H2
    (goal_tree_empty_alone 1 Line.fresh Line.wExhausted _ H1 H2))).
Defined.

(** X13 on the planner of the run [w0] after its first iteration: a new
    goal motion at 10 has the start motion 4 within the range, and the
    motion to it is too long to be valid. *)
Lemma connect_unconnected_witness :
  wfPlanner (planner (Line.body Line.s2))
  ∧ nearestR (nnOf StartSide (planner (Line.body Line.s2))) 10%Z
      (maxDistance_ (planner (Line.body Line.s2))) = [1]
  ∧ accepts (mkMotion 10%Z (Some 0) 12%Z None) Line.found2 = false
  ∧ connect GoalSide 1 (mkMotion 10%Z (Some 0) 12%Z None)
      (planner (Line.body Line.s2))
    = Some ([1], None, planner (Line.body Line.s2)).
Proof.
  assert (H1 := Line_s2_wf).
  assert (H2 : nearestR (nnOf StartSide (planner (Line.body Line.s2))) 10%Z
                 (maxDistance_ (planner (Line.body Line.s2))) = [1])
    by (vm_compute; reflexivity).
  assert (H3 : accepts (mkMotion 10%Z (Some 0) 12%Z None) Line.found2 = false)
    by (vm_compute; reflexivity).
  split; [exact H1|]. split; [exact H2|]. split; [exact H3|].
  rewrite <- H2 at 1.
  apply (proj1 (connect_unconnected GoalSide 1
                  (mkMotion 10%Z (Some 0) 12%Z None)
                  (planner (Line.body Line.s2)) H1)).
  intros n nm Hn Hnm.
  assert (Hn' : n ∈ [1]) by (rewrite <- H2; exact Hn).
  apply list_elem_of_singleton in Hn' as ->.
  vm_compute in Hnm. injection Hnm as <-. exact H3.
Defined.

(** X14 on two start states given to the planner [fresh]. *)
Lemma seedStarts_roots_witness :
  wfPlanner Line.fresh
  ∧ ∃ p',
      seedStarts [3; 7]%Z Line.fresh = Some p'
      ∧ startMotions_ p'
        = startMotions_ Line.fresh
          ++ rootMotions (length (startMotions_ Line.fresh)) [3; 7]%Z
      ∧ treeOf GoalSide p' = treeOf GoalSide Line.fresh
      ∧ connectionPoint_ p' = connectionPoint_ Line.fresh
      ∧ solutionPaths p' = solutionPaths Line.fresh.
Proof.
  exact (conj Line_fresh_wf
           (seedStarts_roots [3; 7]%Z Line.fresh Line_fresh_wf)).
Defined.

Lemma Line_solved_steady : Steady (W:=Line.Script) Line.solvedPlanner.
Proof.
  apply (steady_solve Line.fresh 10 Line.w0);
    [exact (steady_configured 0%float [Setup])|].
  vm_compute. reflexivity.
Qed.

(** X15 on the start root of the planner the run [w0] leaves: it was
    inserted first, and the motion 4 found it within the radius 2, so
    its weight is 1 decayed once, one half. *)
Lemma steady_density_weights_witness :
  Steady (W:=Line.Script) Line.solvedPlanner
  ∧ motionsOf StartSide Line.solvedPlanner !! 0 = Some Line.seed1
  ∧ PDF.getWeight (pdfOf StartSide Line.solvedPlanner) 0
    = Some Line.rootWeight
  ∧ foundNear (nbrhoodRadius_ Line.solvedPlanner)
      (motionsOf StartSide Line.solvedPlanner) 0 (state Line.seed1) = 0
  ∧ arrivedNear (nbrhoodRadius_ Line.solvedPlanner)
      (motionsOf StartSide Line.solvedPlanner) 0 (state Line.seed1) = 1
  ∧ Line.rootWeight = 0.5%float
  ∧ (let f := foundNear (nbrhoodRadius_ Line.solvedPlanner)
                (motionsOf StartSide Line.solvedPlanner) 0
                (state Line.seed1) in
     let a := arrivedNear (nbrhoodRadius_ Line.solvedPlanner)
                (motionsOf StartSide Line.solvedPlanner) 0
                (state Line.seed1) in
     Line.rootWeight
     = Nat.iter a (λ w, w / (w + 1))%float
         (1 / (toDouble (Z.of_nat f) + 1))%float
     ∧ (length (motionsOf StartSide Line.solvedPlanner) ≤ 256 →
        (Qabs (realValue Line.rootWeight - 1 / inject_Z (Z.of_nat (f + a + 1)))
         <= inject_Z (Z.of_nat (a + 1)) * 2 ^ (-53))%Q)).
Proof.
  assert (H1 : motionsOf StartSide Line.solvedPlanner !! 0 = Some Line.seed1)
    by (vm_compute; reflexivity).
  assert (H2 : PDF.getWeight (pdfOf StartSide Line.solvedPlanner) 0
               = Some Line.rootWeight) by (vm_compute; reflexivity).
  split; [exact Line_solved_steady|]. split; [exact H1|]. split; [exact H2|].
  split; [vm_compute; reflexivity|]. split; [vm_compute; reflexivity|].
  split; [vm_compute; reflexivity|].
  exact (steady_density_weights Line.solvedPlanner StartSide 0 Line.seed1
           Line.rootWeight Line_solved_steady H1 H2).
Defined.

(** X16 on the planner the run [w0] leaves: the start root is the
    vertex 0, the goal root the vertex 2. *)
Lemma getPlannerData_marks_witness :
  wfPlanner Line.solvedPlanner
  ∧ PlannerData.startVertices
      (getPlannerData Line.solvedPlanner PlannerData.empty) = [0]
  ∧ PlannerData.goalVertices
      (getPlannerData Line.solvedPlanner PlannerData.empty) = [2].
Proof.
  assert (H1 := Line_result_wf).
  destruct (getPlannerData_marks Line.solvedPlanner H1) as (Hs & Hg & _).
  split; [exact H1|]. split.
  - rewrite Hs. vm_compute. reflexivity.
  - rewrite Hg. vm_compute. reflexivity.
Defined.

(** X17 on a new planner: the range 0 is replaced by the configured
    range 6, and a second [setup] leaves it. *)
Lemma setup_idempotent_witness :
  (PrimFloat.ltb (maxDistance_ (BiRealEST (State:=Z) 0)) minRange = true →
   PrimFloat.ltb
     (configurePlannerRange (maxDistance_ (BiRealEST (State:=Z) 0)))
     minRange = false)
  ∧ setup (setup (BiRealEST 0)) = Line.fresh.
Proof.
  assert (H1 : PrimFloat.ltb (maxDistance_ (BiRealEST (State:=Z) 0)) minRange
               = true →
               PrimFloat.ltb
                 (configurePlannerRange (maxDistance_ (BiRealEST (State:=Z) 0)))
                 minRange = false)
    by (intros _; vm_compute; reflexivity).
  exact (conj H1 (setup_idempotent (BiRealEST 0) H1)).
Defined.

(** X18 on the planner the run [w0] leaves: the connection point joins
    the goal motion 9 to the start motion 4. *)
Lemma reachable_connection_checked_witness :
  Reachable (W:=Line.Script) Line.solvedPlanner
  ∧ connectionPoint_ Line.solvedPlanner
    = (Some (StateOf GoalSide 1), Some (StateOf StartSide 1))
  ∧ (connectionPoint_ Line.solvedPlanner = (None, None)
     ∨ ∃ s m n mm nm,
         connectionPoint_ Line.solvedPlanner
         = (Some (StateOf s m), Some (StateOf (otherSide s) n))
         ∧ motionsOf s Line.solvedPlanner !! m = Some mm
         ∧ motionsOf (otherSide s) Line.solvedPlanner !! n = Some nm
         ∧ isStartGoalPairValid (root mm) (root nm) = true
         ∧ checkMotion (state mm) (state nm) = true).
Proof.
  split; [exact Line_solved_reachable|]. split; [vm_compute; reflexivity|].
  exact (reachable_connection_checked Line.solvedPlanner Line_solved_reachable).
Defined.
